(** * HLSL translator front-end: parser and AST printer

    A shallow embedding of [src/HLSLParser.cpp] (the recursive-descent
    parser) and [src/ASTPrinter.cpp] (the reference visitor), with the
    properties of the specification stated and settled against it.

    The parser is embedded as a state-and-exception monad over the
    parser object (current token, scanner, allocator); its productions
    keep the names of the member functions of [HLSLParser].  AST nodes
    carry the two things a C++ node has beyond its fields: an address
    (its identity, the target of the raw back-pointers [declStmntRef]
    and [symbolRef]) and the source position given to it on creation. *)

From Stdlib Require Import String Ascii List Bool Arith NArith Lia.
From Stdlib Require Import DecimalString.
Import ListNotations.

Local Open Scope list_scope.
Local Open Scope string_scope.

Set Implicit Arguments.
Set Warnings "-register-all".

(** ** Source positions *)

(** Modelled from the spec: [SourcePos] is declared in a header that is
    not among the sources; it is a pair of unsigned counters rendered as
    ["L:C"]. *)
Record SourcePos : Type := MkSourcePos { line : N; column : N }.

Definition N_to_string (n : N) : string :=
  NilZero.string_of_uint (N.to_uint n).

Definition ToString (p : SourcePos) : string :=
  N_to_string (line p) ++ ":" ++ N_to_string (column p).

(** ** Tokens *)

(** Modelled from the spec: the token kinds of [Token.h] (section 6.2),
    kept in a module so that they read [Tokens.Ident] as in the code. *)
Module Tokens.
Inductive t : Type :=
| Ident | BoolLiteral | IntLiteral | FloatLiteral
| ScalarType | VectorType | MatrixType | Texture | Sampler
| UniformBuffer | Void | Struct | Register | PackOffset
| If | Else | Switch | Case | Default | For | While | Do | Return
| CtrlTransfer | InputModifier | StorageModifier | TypeModifier
| AssignOp | UnaryOp | BinaryOp | TernaryOp
| LBracket | RBracket | LCurly | RCurly | LParen | RParen
| Comma | Semicolon | Colon | Dot | Directive | EndOfStream.

Definition eqb (a b : t) : bool :=
  match a, b with
  | Ident, Ident | BoolLiteral, BoolLiteral | IntLiteral, IntLiteral
  | FloatLiteral, FloatLiteral | ScalarType, ScalarType
  | VectorType, VectorType | MatrixType, MatrixType | Texture, Texture
  | Sampler, Sampler | UniformBuffer, UniformBuffer | Void, Void
  | Struct, Struct | Register, Register | PackOffset, PackOffset
  | If, If | Else, Else | Switch, Switch | Case, Case | Default, Default
  | For, For | While, While | Do, Do | Return, Return
  | CtrlTransfer, CtrlTransfer | InputModifier, InputModifier
  | StorageModifier, StorageModifier | TypeModifier, TypeModifier
  | AssignOp, AssignOp | UnaryOp, UnaryOp | BinaryOp, BinaryOp
  | TernaryOp, TernaryOp | LBracket, LBracket | RBracket, RBracket
  | LCurly, LCurly | RCurly, RCurly | LParen, LParen | RParen, RParen
  | Comma, Comma | Semicolon, Semicolon | Colon, Colon | Dot, Dot
  | Directive, Directive | EndOfStream, EndOfStream => true
  | _, _ => false
  end.

End Tokens.

(** Modelled from the spec: a token is a value with a kind, the exact
    spelling that produced it, and its position. *)
Record Token : Type := MkToken {
  Type_ : Tokens.t;
  Spell : string;
  Pos : SourcePos
}.

(** ** The abstract syntax tree *)

(** What every node inherits from [AST]: the position given by [Make],
    and the node's address. *)
Record AST : Type := MkAST { addr : nat; pos : SourcePos }.

(** A raw, non-owning pointer to a node: null, or the node's address. *)
Definition Ref : Type := option nat.

Inductive Expr : Type :=
| ListExpr (h : AST) (firstExpr nextExpr : Expr)
| LiteralExpr (h : AST) (literal : string)
| TypeNameExpr (h : AST) (typeName : string)
| TernaryExpr (h : AST) (condition ifExpr elseExpr : Expr)
| BinaryExpr (h : AST) (lhsExpr : Expr) (op : string) (rhsExpr : Expr)
| UnaryExpr (h : AST) (op : string) (expr : Expr)
| PostUnaryExpr (h : AST) (expr : Expr) (op : string)
| FunctionCallExpr (h : AST) (call : FunctionCall)
| BracketExpr (h : AST) (expr : Expr)
| CastExpr (h : AST) (typeExpr : Expr) (expr : Expr)
| VarAccessExpr (h : AST) (varIdent : VarIdent) (assignOp : string)
                (assignExpr : option Expr)
| InitializerExpr (h : AST) (exprs : list Expr)
with VarIdent : Type :=
| MkVarIdent (h : AST) (ident : string) (arrayIndices : list Expr)
             (next : option VarIdent)
with FunctionCall : Type :=
| MkFunctionCall (h : AST) (name : VarIdent) (arguments : list Expr).

Record PackOffset : Type := MkPackOffset {
  po_h : AST;
  po_registerName : string;
  po_vectorComponent : string
}.

Record VarSemantic : Type := MkVarSemantic {
  vs_h : AST;
  vs_semantic : string;
  vs_registerName : string;
  vs_packOffset : option PackOffset
}.

Record VarDecl : Type := MkVarDecl {
  vd_h : AST;
  vd_name : string;
  vd_arrayDims : list Expr;
  vd_semantics : list VarSemantic;
  vd_initializer : option Expr;
  declStmntRef : Ref
}.

Record BufferDeclIdent : Type := MkBufferDeclIdent {
  bdi_h : AST;
  bdi_ident : string;
  bdi_registerName : string
}.

Inductive VarDeclStmnt : Type :=
| MkVarDeclStmnt (h : AST) (inputModifier : string)
                 (typeModifiers storageModifiers : list string)
                 (varType : VarType) (varDecls : list VarDecl)
with VarType : Type :=
| MkVarType (h : AST) (baseType : string) (structType : option Structure)
            (symbolRef : Ref)
with Structure : Type :=
| MkStructure (h : AST) (name : string) (members : list VarDeclStmnt).

Inductive Stmnt : Type :=
| NullStmnt (h : AST)
| DirectiveStmnt (h : AST) (line_ : string)
| CodeBlockStmnt (h : AST) (codeBlock : CodeBlock)
| ForLoopStmnt (h : AST) (attribs : list FunctionCall) (initSmnt : Stmnt)
               (condition iteration : option Expr) (bodyStmnt : Stmnt)
| WhileLoopStmnt (h : AST) (attribs : list FunctionCall) (condition : Expr)
                 (bodyStmnt : Stmnt)
| DoWhileLoopStmnt (h : AST) (attribs : list FunctionCall)
                   (bodyStmnt : Stmnt) (condition : Expr)
| IfStmnt (h : AST) (attribs : list FunctionCall) (condition : Expr)
          (bodyStmnt : Stmnt) (elseStmnt : option ElseStmnt)
| SwitchStmnt (h : AST) (attribs : list FunctionCall) (selector : Expr)
              (cases : list SwitchCase)
| StmntVarDecl (s : VarDeclStmnt)
| AssignStmnt (h : AST) (varIdent : VarIdent) (op : string) (expr : Expr)
| ExprStmnt (h : AST) (expr : Expr)
| FunctionCallStmnt (h : AST) (call : FunctionCall)
| ReturnStmnt (h : AST) (expr : option Expr)
| StructDeclStmnt (h : AST) (structure : Structure)
| CtrlTransferStmnt (h : AST) (instruction : string)
with CodeBlock : Type :=
| MkCodeBlock (h : AST) (stmnts : list Stmnt)
with ElseStmnt : Type :=
| MkElseStmnt (h : AST) (bodyStmnt : Stmnt)
with SwitchCase : Type :=
| MkSwitchCase (h : AST) (expr : option Expr) (stmnts : list Stmnt).

Inductive GlobalDecl : Type :=
| FunctionDecl (h : AST) (attribs : list FunctionCall) (returnType : VarType)
               (name : string) (parameters : list VarDeclStmnt)
               (semantic : string) (codeBlock : option CodeBlock)
| UniformBufferDecl (h : AST) (bufferType name registerName : string)
                    (members : list VarDeclStmnt)
| TextureDecl (h : AST) (textureType colorType : string)
              (names : list BufferDeclIdent)
| SamplerDecl (h : AST) (samplerType : string) (names : list BufferDeclIdent)
| StructDecl (h : AST) (structure : Structure)
| DirectiveDecl (h : AST) (line_ : string).

Record Program : Type := MkProgram {
  prog_h : AST;
  globalDecls : list GlobalDecl
}.

(** ** The parser object *)

(** Modelled from the spec: the scanner is not among the sources.  It
    delivers the tokens of the source in order and, once they are used
    up, [EndOfStream] on every further read.  Its position is the one of
    the token it delivered last. *)
Record HLSLScanner : Type := MkScanner {
  source_ : list Token;
  pos_ : SourcePos
}.

Definition Next (sc : HLSLScanner) : Token * HLSLScanner :=
  match source_ sc with
  | t :: rest => (t, MkScanner rest (Pos t))
  | [] => (MkToken Tokens.EndOfStream "" (pos_ sc), sc)
  end.

(** The members of [HLSLParser] that parsing reads and writes: the
    scanner, the current token, and the next free address of the
    allocator behind [Make]. *)
Record HLSLParser : Type := MkParser {
  scanner_ : HLSLScanner;
  tkn_ : Token;
  heap_ : nat
}.

(** A production either returns a value and the advanced parser, throws
    [std::runtime_error] with its message, or exhausts the recursion
    budget of the embedding. *)
Inductive Result (A : Type) : Type :=
| Ok (a : A) (p : HLSLParser)
| Throw (what : string)
| OutOfFuel.

Arguments Throw {A} what.
Arguments OutOfFuel {A}.

Definition M (A : Type) : Type := HLSLParser -> Result A.

Definition ret {A} (a : A) : M A := fun p => Ok a p.

Definition bind {A B} (c : M A) (k : A -> M B) : M B :=
  fun p =>
    match c p with
    | Ok a p' => k a p'
    | Throw w => Throw w
    | OutOfFuel => OutOfFuel
    end.

Declare Scope parser_scope.
Delimit Scope parser_scope with parser.
Notation "x <- c ;; k" := (bind c (fun x => k))
  (at level 61, c at next level, right associativity) : parser_scope.
Notation "c ;; k" := (bind c (fun _ => k))
  (at level 61, right associativity) : parser_scope.
Local Open Scope parser_scope.

(** [if (cond) a else b] where the condition inspects the current token. *)
Definition IfM {A} (c : HLSLParser -> bool) (a b : M A) : M A :=
  fun p => if c p then a p else b p.

Definition when_ (c : HLSLParser -> bool) (a : M unit) : M unit :=
  IfM c a (ret tt).

Definition andb_ (c d : HLSLParser -> bool) : HLSLParser -> bool :=
  fun p => c p && d p.
Definition orb_ (c d : HLSLParser -> bool) : HLSLParser -> bool :=
  fun p => c p || d p.
Definition negb_ (c : HLSLParser -> bool) : HLSLParser -> bool :=
  fun p => negb (c p).

(** *** Token stream adapter *)

Definition Error {A} (msg : string) : M A :=
  fun p =>
    Throw ("syntax error (" ++ ToString (pos_ (scanner_ p)) ++ ") : " ++ msg).

Definition ErrorUnexpected {A} : M A :=
  fun p => Error ("unexpected token '" ++ Spell (tkn_ p) ++ "'") p.

Definition ErrorUnexpectedHint {A} (hint : string) : M A :=
  fun p =>
    Error ("unexpected token '" ++ Spell (tkn_ p) ++ "' (" ++ hint ++ ")") p.

Definition AcceptIt : M Token :=
  fun p =>
    let prevTkn := tkn_ p in
    let (t, sc) := Next (scanner_ p) in
    Ok prevTkn (MkParser sc t (heap_ p)).

Definition HLSLParser_Type (p : HLSLParser) : Tokens.t := Type_ (tkn_ p).

Definition Is (type : Tokens.t) (p : HLSLParser) : bool :=
  Tokens.eqb (HLSLParser_Type p) type.

Definition IsSpell (type : Tokens.t) (spell : string) (p : HLSLParser) : bool :=
  Tokens.eqb (HLSLParser_Type p) type && String.eqb (Spell (tkn_ p)) spell.

Definition Accept (type : Tokens.t) : M Token :=
  IfM (negb_ (Is type)) ErrorUnexpected AcceptIt.

Definition AcceptSpell (type : Tokens.t) (spell : string) : M Token :=
  IfM (negb_ (Is type)) ErrorUnexpected
    (IfM (fun p => negb (String.eqb (Spell (tkn_ p)) spell))
       (fun p => Error ("unexpected token spelling '" ++ Spell (tkn_ p)
                        ++ "' (expected '" ++ spell ++ "')") p)
       AcceptIt).

Definition Semi : M Token := Accept Tokens.Semicolon.

Definition IsDataType (p : HLSLParser) : bool :=
  Is Tokens.ScalarType p || Is Tokens.VectorType p || Is Tokens.MatrixType p
  || Is Tokens.Texture p || Is Tokens.Sampler p.

Definition IsLiteral (p : HLSLParser) : bool :=
  Is Tokens.BoolLiteral p || Is Tokens.IntLiteral p || Is Tokens.FloatLiteral p.

Definition IsPrimaryExpr (p : HLSLParser) : bool :=
  IsLiteral p || Is Tokens.Ident p || Is Tokens.UnaryOp p
  || IsSpell Tokens.BinaryOp "-" p || Is Tokens.LBracket p.

(** Modelled from the spec: [Make<T>()] is declared in the parser's
    header.  It allocates the node and fixes its position, before any
    child is attached. *)
Definition Make : M AST :=
  fun p =>
    Ok (MkAST (heap_ p) (pos_ (scanner_ p)))
       (MkParser (scanner_ p) (tkn_ p) (S (heap_ p))).

(** The parser as [ParseSource] starts it on a scanner: the first
    [AcceptIt()] has loaded the first token, nothing is allocated yet. *)
Definition first_token (sc : HLSLScanner) : HLSLParser :=
  let (t, sc') := Next sc in MkParser sc' t 0.

(** ** The productions *)

(** The productions are mutually recursive, and their loops run as long
    as the input lasts.  Each production is written against the
    productions one recursion level down ([self]): a recursive call, or
    the next iteration of a loop, goes through [self]; every other call
    is direct.  [HLSL] below ties the knot by recursion on a budget. *)
Record Recursion : Type := MkRecursion {
  call_ParseExpr : bool -> option Expr -> M Expr;
  call_ParsePrimaryExpr : M Expr;
  call_ParseVarIdent : M VarIdent;
  call_ParseStmnt : M Stmnt;
  call_ParseVarDeclStmnt : M VarDeclStmnt;
  loop_ParseProgram : list GlobalDecl -> M (list GlobalDecl);
  loop_ParseParameter :
    string * list string * list string -> M (string * list string * list string);
  loop_ParseSwitchCase : list Stmnt -> M (list Stmnt);
  loop_ParseAttribute : list Expr -> M (list Expr);
  loop_ParseVarDeclStmnt :
    list string * list string -> M (list string * list string * VarType);
  loop_ParseVarDeclList : list VarDecl -> M (list VarDecl);
  loop_ParseVarDeclStmntList : list VarDeclStmnt -> M (list VarDeclStmnt);
  loop_ParseParameterList : list VarDeclStmnt -> M (list VarDeclStmnt);
  loop_ParseStmntList : list Stmnt -> M (list Stmnt);
  loop_ParseExprList : Tokens.t -> bool -> list Expr -> M (list Expr);
  loop_ParseArrayDimensionList : list Expr -> M (list Expr);
  loop_ParseVarSemanticList : list VarSemantic -> M (list VarSemantic);
  loop_ParseAttributeList : list FunctionCall -> M (list FunctionCall);
  loop_ParseSwitchCaseList : list SwitchCase -> M (list SwitchCase);
  loop_ParseBufferDeclIdentList :
    list BufferDeclIdent -> M (list BufferDeclIdent)
}.

(** [v.push_back(x)] *)
Definition push_back {A} (v : list A) (x : A) : list A := (v ++ [x])%list.

Definition set_declStmntRef (r : Ref) (v : VarDecl) : VarDecl :=
  MkVarDecl (vd_h v) (vd_name v) (vd_arrayDims v) (vd_semantics v)
            (vd_initializer v) r.

Definition VarIdent_next (v : VarIdent) : option VarIdent :=
  match v with MkVarIdent _ _ _ n => n end.

Definition VarIdent_ident (v : VarIdent) : string :=
  match v with MkVarIdent _ i _ _ => i end.

(** Modelled from the spec: the default arguments live in the parser's
    header, which is not among the sources.  A call without arguments
    reads [ParseExpr(false, nullptr)], [ParseRegister(true)],
    [ParseVarType(false)], [ParseFunctionCall(nullptr)] and
    [ParseExprList(terminator, false)]: these are the values under
    which the call sites agree with the grammar of the spec (a comma
    list only where [allowComma] is passed, [void] only as a return
    type, the colon of a register read by [ParseRegister] itself). *)
Section Productions.

Variable self : Recursion.

(** *** Others *)

Definition ParseRegister (parseColon : bool) : M string :=
  (if parseColon then Accept Tokens.Colon ;; ret tt else ret tt) ;;
  Accept Tokens.Register ;;
  Accept Tokens.LBracket ;;
  registerName <- Accept Tokens.Ident ;;
  Accept Tokens.RBracket ;;
  ret (Spell registerName).

Definition ParseSemantic : M string :=
  Accept Tokens.Colon ;;
  t <- Accept Tokens.Ident ;;
  ret (Spell t).

Definition ParseBufferDeclIdent : M BufferDeclIdent :=
  ast <- Make ;;
  ident <- Accept Tokens.Ident ;;
  registerName <- IfM (Is Tokens.Colon) (ParseRegister true) (ret "") ;;
  ret (MkBufferDeclIdent ast (Spell ident) registerName).

Definition ParsePackOffset (parseColon : bool) : M PackOffset :=
  ast <- Make ;;
  (if parseColon then Accept Tokens.Colon ;; ret tt else ret tt) ;;
  Accept Tokens.PackOffset ;;
  Accept Tokens.LBracket ;;
  registerName <- Accept Tokens.Ident ;;
  vectorComponent <-
    IfM (Is Tokens.Dot)
      (AcceptIt ;; c <- Accept Tokens.Ident ;; ret (Spell c))
      (ret "") ;;
  Accept Tokens.RBracket ;;
  ret (MkPackOffset ast (Spell registerName) vectorComponent).

Definition ParseVarSemantic : M VarSemantic :=
  ast <- Make ;;
  Accept Tokens.Colon ;;
  IfM (Is Tokens.Register)
    (r <- ParseRegister false ;; ret (MkVarSemantic ast "" r None))
    (IfM (Is Tokens.PackOffset)
       (po <- ParsePackOffset false ;; ret (MkVarSemantic ast "" "" (Some po)))
       (t <- Accept Tokens.Ident ;; ret (MkVarSemantic ast (Spell t) "" None))).

(** *** Lists without expressions *)

Definition ParseVarSemanticList_loop (semantics : list VarSemantic)
  : M (list VarSemantic) :=
  IfM (Is Tokens.Colon)
    (s <- ParseVarSemantic ;;
     loop_ParseVarSemanticList self (push_back semantics s))
    (ret semantics).

Definition ParseVarSemanticList : M (list VarSemantic) :=
  ParseVarSemanticList_loop [].

Definition ParseBufferDeclIdentList_loop (bufferIdents : list BufferDeclIdent)
  : M (list BufferDeclIdent) :=
  IfM (Is Tokens.Comma)
    (AcceptIt ;;
     b <- ParseBufferDeclIdent ;;
     loop_ParseBufferDeclIdentList self (push_back bufferIdents b))
    (ret bufferIdents).

Definition ParseBufferDeclIdentList : M (list BufferDeclIdent) :=
  b <- ParseBufferDeclIdent ;;
  ParseBufferDeclIdentList_loop (push_back [] b).

(** *** Expressions *)

Definition ParseArrayDimension : M Expr :=
  Accept Tokens.LParen ;;
  ast <- call_ParseExpr self false None ;;
  Accept Tokens.RParen ;;
  ret ast.

Definition ParseArrayDimensionList_loop (arrayDims : list Expr)
  : M (list Expr) :=
  IfM (Is Tokens.LParen)
    (d <- ParseArrayDimension ;;
     loop_ParseArrayDimensionList self (push_back arrayDims d))
    (ret arrayDims).

Definition ParseArrayDimensionList : M (list Expr) :=
  ParseArrayDimensionList_loop [].

Definition ParseVarIdent : M VarIdent :=
  ast <- Make ;;
  ident <- Accept Tokens.Ident ;;
  arrayIndices <- ParseArrayDimensionList ;;
  IfM (Is Tokens.Dot)
    (AcceptIt ;;
     next <- call_ParseVarIdent self ;;
     ret (MkVarIdent ast (Spell ident) arrayIndices (Some next)))
    (ret (MkVarIdent ast (Spell ident) arrayIndices None)).

Definition ParseExprList_loop (listTerminatorToken : Tokens.t)
  (allowLastComma : bool) (exprs : list Expr) : M (list Expr) :=
  e <- call_ParseExpr self false None ;;
  let exprs := push_back exprs e in
  IfM (Is Tokens.Comma)
    (AcceptIt ;;
     IfM (fun p => allowLastComma && Is listTerminatorToken p)
       (ret exprs)
       (loop_ParseExprList self listTerminatorToken allowLastComma exprs))
    (ret exprs).

Definition ParseExprList (listTerminatorToken : Tokens.t)
  (allowLastComma : bool) : M (list Expr) :=
  IfM (negb_ (Is listTerminatorToken))
    (ParseExprList_loop listTerminatorToken allowLastComma [])
    (ret []).

Definition ParseArgumentList : M (list Expr) :=
  Accept Tokens.LBracket ;;
  arguments <- ParseExprList Tokens.RBracket false ;;
  Accept Tokens.RBracket ;;
  ret arguments.

Definition ParseInitializerList : M (list Expr) :=
  Accept Tokens.LCurly ;;
  arguments <- ParseExprList Tokens.RCurly true ;;
  Accept Tokens.RCurly ;;
  ret arguments.

Definition ParseFunctionCall (varIdent : option VarIdent) : M FunctionCall :=
  ast <- Make ;;
  name <-
    match varIdent with
    | Some v => ret v
    | None =>
        IfM IsDataType
          (v <- Make ;;
           t <- AcceptIt ;;
           ret (MkVarIdent v (Spell t) [] None))
          ParseVarIdent
    end ;;
  arguments <- ParseArgumentList ;;
  ret (MkFunctionCall ast name arguments).

Definition ParseFunctionCallExpr (varIdent : option VarIdent) : M Expr :=
  ast <- Make ;;
  call <- ParseFunctionCall varIdent ;;
  ret (FunctionCallExpr ast call).

Definition ParseVarAccessExpr (varIdent : option VarIdent) : M Expr :=
  ast <- Make ;;
  v <- match varIdent with
       | Some v => ret v
       | None => ParseVarIdent
       end ;;
  IfM (Is Tokens.AssignOp)
    (assignOp <- AcceptIt ;;
     assignExpr <- call_ParseExpr self false None ;;
     ret (VarAccessExpr ast v (Spell assignOp) (Some assignExpr)))
    (ret (VarAccessExpr ast v "" None)).

Definition ParseVarAccessOrFunctionCallExpr : M Expr :=
  varIdent <- ParseVarIdent ;;
  IfM (Is Tokens.LBracket)
    (ParseFunctionCallExpr (Some varIdent))
    (ParseVarAccessExpr (Some varIdent)).

Definition ParseInitializerExpr : M Expr :=
  ast <- Make ;;
  exprs <- ParseInitializerList ;;
  ret (InitializerExpr ast exprs).

Definition ParseLiteralExpr : M Expr :=
  IfM (negb_ IsLiteral)
    (ErrorUnexpectedHint "expected literal expression")
    (ast <- Make ;;
     t <- AcceptIt ;;
     ret (LiteralExpr ast (Spell t))).

Definition ParseTypeNameOrFunctionCallExpr : M Expr :=
  IfM (negb_ IsDataType)
    (ErrorUnexpectedHint "expected type name or function call expression")
    (typeName <- AcceptIt ;;
     IfM (Is Tokens.LBracket)
       (varIdent <- Make ;;
        ParseFunctionCallExpr
          (Some (MkVarIdent varIdent (Spell typeName) [] None)))
       (ast <- Make ;;
        ret (TypeNameExpr ast (Spell typeName)))).

Definition ParseUnaryExpr : M Expr :=
  IfM (fun p => negb (Is Tokens.UnaryOp p)
                && negb (IsSpell Tokens.BinaryOp "-" p))
    (ErrorUnexpectedHint "expected unary expression operator")
    (ast <- Make ;;
     op <- AcceptIt ;;
     expr <- call_ParsePrimaryExpr self ;;
     ret (UnaryExpr ast (Spell op) expr)).

(** [expr->Type() == TypeNameExpr ||
     (expr->Type() == VarAccessExpr && ...->assignExpr == nullptr)] *)
Definition is_type_form (expr : Expr) : bool :=
  match expr with
  | TypeNameExpr _ _ => true
  | VarAccessExpr _ _ _ None => true
  | _ => false
  end.

Definition ParseBracketOrCastExpr : M Expr :=
  Accept Tokens.LBracket ;;
  expr <- call_ParseExpr self true None ;;
  Accept Tokens.RBracket ;;
  IfM (fun p => IsPrimaryExpr p && is_type_form expr)
    (ast <- Make ;;
     e <- call_ParsePrimaryExpr self ;;
     ret (CastExpr ast expr e))
    (ast <- Make ;;
     ret (BracketExpr ast expr)).

Definition ParsePrimaryExpr : M Expr :=
  IfM IsLiteral ParseLiteralExpr
 (IfM IsDataType ParseTypeNameOrFunctionCallExpr
 (IfM (orb_ (Is Tokens.UnaryOp) (IsSpell Tokens.BinaryOp "-")) ParseUnaryExpr
 (IfM (Is Tokens.LBracket) ParseBracketOrCastExpr
 (IfM (Is Tokens.LCurly) ParseInitializerExpr
 (IfM (Is Tokens.Ident) ParseVarAccessOrFunctionCallExpr
 (ErrorUnexpectedHint "expected primary expression")))))).

Definition ParseExpr (allowComma : bool) (initExpr : option Expr) : M Expr :=
  ast <- match initExpr with
         | Some e => ret e
         | None => ParsePrimaryExpr
         end ;;
  ast <- IfM (Is Tokens.UnaryOp)
           (unaryExpr <- Make ;;
            op <- AcceptIt ;;
            ret (PostUnaryExpr unaryExpr ast (Spell op)))
           (ret ast) ;;
  IfM (Is Tokens.BinaryOp)
    (binExpr <- Make ;;
     op <- AcceptIt ;;
     rhsExpr <- call_ParseExpr self allowComma None ;;
     ret (BinaryExpr binExpr ast (Spell op) rhsExpr))
 (IfM (Is Tokens.TernaryOp)
    (ternExpr <- Make ;;
     AcceptIt ;;
     ifExpr <- call_ParseExpr self false None ;;
     Accept Tokens.Colon ;;
     elseExpr <- call_ParseExpr self false None ;;
     ret (TernaryExpr ternExpr ast ifExpr elseExpr))
 (IfM (fun p => allowComma && Is Tokens.Comma p)
    (AcceptIt ;;
     listExpr <- Make ;;
     nextExpr <- call_ParseExpr self true None ;;
     ret (ListExpr listExpr ast nextExpr))
    (ret ast))).

(** *** Variables *)

Definition ParseAttribute_loop (arguments : list Expr) : M (list Expr) :=
  e <- ParseExpr false None ;;
  let arguments := push_back arguments e in
  IfM (Is Tokens.Comma)
    (AcceptIt ;; loop_ParseAttribute self arguments)
    (ret arguments).

Definition ParseAttribute : M FunctionCall :=
  ast <- Make ;;
  Accept Tokens.LParen ;;
  name <- Make ;;
  ident <- Accept Tokens.Ident ;;
  arguments <-
    IfM (Is Tokens.LBracket)
      (AcceptIt ;;
       arguments <- IfM (negb_ (Is Tokens.RBracket))
                      (ParseAttribute_loop [])
                      (ret []) ;;
       Accept Tokens.RBracket ;;
       ret arguments)
      (ret []) ;;
  Accept Tokens.RParen ;;
  ret (MkFunctionCall ast (MkVarIdent name (Spell ident) [] None) arguments).

Definition ParseAttributeList_loop (attribs : list FunctionCall)
  : M (list FunctionCall) :=
  IfM (Is Tokens.LParen)
    (a <- ParseAttribute ;;
     loop_ParseAttributeList self (push_back attribs a))
    (ret attribs).

Definition ParseAttributeList : M (list FunctionCall) :=
  ParseAttributeList_loop [].

Definition ParseInitializer : M Expr :=
  AcceptSpell Tokens.AssignOp "=" ;;
  ParseExpr false None.

Definition ParseVarDecl : M VarDecl :=
  ast <- Make ;;
  name <- Accept Tokens.Ident ;;
  arrayDims <- ParseArrayDimensionList ;;
  semantics <- ParseVarSemanticList ;;
  IfM (IsSpell Tokens.AssignOp "=")
    (initializer <- ParseInitializer ;;
     ret (MkVarDecl ast (Spell name) arrayDims semantics (Some initializer)
                    None))
    (ret (MkVarDecl ast (Spell name) arrayDims semantics None None)).

Definition ParseVarDeclList_loop (varDecls : list VarDecl)
  : M (list VarDecl) :=
  d <- ParseVarDecl ;;
  let varDecls := push_back varDecls d in
  IfM (Is Tokens.Comma)
    (AcceptIt ;; loop_ParseVarDeclList self varDecls)
    (ret varDecls).

Definition ParseVarDeclList : M (list VarDecl) :=
  ParseVarDeclList_loop [].

Definition ParseVarDeclStmntList_loop (members : list VarDeclStmnt)
  : M (list VarDeclStmnt) :=
  IfM (negb_ (Is Tokens.RCurly))
    (m <- call_ParseVarDeclStmnt self ;;
     loop_ParseVarDeclStmntList self (push_back members m))
    (ret members).

Definition ParseVarDeclStmntList : M (list VarDeclStmnt) :=
  Accept Tokens.LCurly ;;
  members <- ParseVarDeclStmntList_loop [] ;;
  AcceptIt ;;
  ret members.

Definition ParseStructure : M Structure :=
  ast <- Make ;;
  Accept Tokens.Struct ;;
  name <- Accept Tokens.Ident ;;
  members <- ParseVarDeclStmntList ;;
  ret (MkStructure ast (Spell name) members).

Definition Structure_get (s : Structure) : Ref :=
  match s with MkStructure h _ _ => Some (addr h) end.

Definition ParseVarType (parseVoidType : bool) : M VarType :=
  ast <- Make ;;
  IfM (Is Tokens.Void)
    (if parseVoidType
     then t <- AcceptIt ;; ret (MkVarType ast (Spell t) None None)
     else Error "'void' type not allowed in this context")
 (IfM (orb_ (Is Tokens.Ident) IsDataType)
    (t <- AcceptIt ;; ret (MkVarType ast (Spell t) None None))
 (IfM (Is Tokens.Struct)
    (structType <- ParseStructure ;;
     ret (MkVarType ast "" (Some structType) (Structure_get structType)))
    (ErrorUnexpectedHint "expected type specifier"))).

(** *** Statements on declarations *)

Definition ParseVarDeclStmnt_loop (mods : list string * list string)
  : M (list string * list string * VarType) :=
  let (typeModifiers, storageModifiers) := mods in
  IfM (Is Tokens.StorageModifier)
    (ident <- AcceptIt ;;
     loop_ParseVarDeclStmnt self
       (typeModifiers, push_back storageModifiers (Spell ident)))
 (IfM (Is Tokens.TypeModifier)
    (ident <- AcceptIt ;;
     loop_ParseVarDeclStmnt self
       (push_back typeModifiers (Spell ident), storageModifiers))
 (IfM (Is Tokens.Ident)
    (ident <- AcceptIt ;;
     varType <- Make ;;
     ret (typeModifiers, storageModifiers,
          MkVarType varType (Spell ident) None None))
 (IfM (Is Tokens.Struct)
    (varType <- Make ;;
     structType <- ParseStructure ;;
     ret (typeModifiers, storageModifiers,
          MkVarType varType "" (Some structType) None))
 (IfM IsDataType
    (varType <- Make ;;
     t <- AcceptIt ;;
     ret (typeModifiers, storageModifiers,
          MkVarType varType (Spell t) None None))
    ErrorUnexpected)))).

Definition ParseVarDeclStmnt : M VarDeclStmnt :=
  ast <- Make ;;
  r <- ParseVarDeclStmnt_loop ([], []) ;;
  let '(typeModifiers, storageModifiers, varType) := r in
  varDecls <- ParseVarDeclList ;;
  Semi ;;
  ret (MkVarDeclStmnt ast "" typeModifiers storageModifiers varType
         (map (set_declStmntRef (Some (addr ast))) varDecls)).

Definition ParseParameter_loop (mods : string * list string * list string)
  : M (string * list string * list string) :=
  let '(inputModifier, typeModifiers, storageModifiers) := mods in
  IfM (fun p => Is Tokens.InputModifier p || Is Tokens.TypeModifier p
                || Is Tokens.StorageModifier p)
    (IfM (Is Tokens.InputModifier)
       (t <- AcceptIt ;;
        loop_ParseParameter self (Spell t, typeModifiers, storageModifiers))
    (IfM (Is Tokens.TypeModifier)
       (t <- AcceptIt ;;
        loop_ParseParameter self
          (inputModifier, push_back typeModifiers (Spell t), storageModifiers))
    (IfM (Is Tokens.StorageModifier)
       (t <- AcceptIt ;;
        loop_ParseParameter self
          (inputModifier, typeModifiers, push_back storageModifiers (Spell t)))
       (loop_ParseParameter self mods))))
    (ret mods).

Definition ParseParameter : M VarDeclStmnt :=
  ast <- Make ;;
  r <- ParseParameter_loop ("", [], []) ;;
  let '(inputModifier, typeModifiers, storageModifiers) := r in
  varType <- ParseVarType false ;;
  varDecl <- ParseVarDecl ;;
  ret (MkVarDeclStmnt ast inputModifier typeModifiers storageModifiers varType
         (push_back [] varDecl)).

Definition ParseParameterList_loop (parameters : list VarDeclStmnt)
  : M (list VarDeclStmnt) :=
  prm <- ParseParameter ;;
  let parameters := push_back parameters prm in
  IfM (Is Tokens.Comma)
    (AcceptIt ;; loop_ParseParameterList self parameters)
    (ret parameters).

Definition ParseParameterList : M (list VarDeclStmnt) :=
  Accept Tokens.LBracket ;;
  parameters <- IfM (negb_ (Is Tokens.RBracket))
                  (ParseParameterList_loop [])
                  (ret []) ;;
  Accept Tokens.RBracket ;;
  ret parameters.

(** *** Statements *)

Definition ParseStmntList_loop (stmnts : list Stmnt) : M (list Stmnt) :=
  IfM (negb_ (Is Tokens.RCurly))
    (s <- call_ParseStmnt self ;;
     loop_ParseStmntList self (push_back stmnts s))
    (ret stmnts).

Definition ParseStmntList : M (list Stmnt) := ParseStmntList_loop [].

Definition ParseCodeBlock : M CodeBlock :=
  ast <- Make ;;
  Accept Tokens.LCurly ;;
  stmnts <- ParseStmntList ;;
  Accept Tokens.RCurly ;;
  ret (MkCodeBlock ast stmnts).

Definition ParseSwitchCase_loop (stmnts : list Stmnt) : M (list Stmnt) :=
  IfM (fun p => negb (Is Tokens.Case p) && negb (Is Tokens.Default p)
                && negb (Is Tokens.RCurly p))
    (s <- call_ParseStmnt self ;;
     loop_ParseSwitchCase self (push_back stmnts s))
    (ret stmnts).

Definition ParseSwitchCase : M SwitchCase :=
  ast <- Make ;;
  expr <- IfM (Is Tokens.Case)
            (Accept Tokens.Case ;;
             e <- ParseExpr false None ;;
             ret (Some e))
            (Accept Tokens.Default ;; ret None) ;;
  Accept Tokens.Colon ;;
  stmnts <- ParseSwitchCase_loop [] ;;
  ret (MkSwitchCase ast expr stmnts).

Definition ParseSwitchCaseList_loop (cases : list SwitchCase)
  : M (list SwitchCase) :=
  IfM (orb_ (Is Tokens.Case) (Is Tokens.Default))
    (c <- ParseSwitchCase ;;
     loop_ParseSwitchCaseList self (push_back cases c))
    (ret cases).

Definition ParseSwitchCaseList : M (list SwitchCase) :=
  ParseSwitchCaseList_loop [].

Definition ParseNullStmnt : M Stmnt :=
  ast <- Make ;;
  Semi ;;
  ret (NullStmnt ast).

Definition ParseDirectiveStmnt : M Stmnt :=
  ast <- Make ;;
  t <- Accept Tokens.Directive ;;
  ret (DirectiveStmnt ast (Spell t)).

Definition ParseCodeBlockStmnt : M Stmnt :=
  ast <- Make ;;
  codeBlock <- ParseCodeBlock ;;
  ret (CodeBlockStmnt ast codeBlock).

Definition ParseForLoopStmnt (attribs : list FunctionCall) : M Stmnt :=
  ast <- Make ;;
  Accept Tokens.For ;;
  Accept Tokens.LBracket ;;
  initSmnt <- call_ParseStmnt self ;;
  condition <- IfM (negb_ (Is Tokens.Semicolon))
                 (e <- ParseExpr true None ;; ret (Some e))
                 (ret None) ;;
  Semi ;;
  iteration <- IfM (negb_ (Is Tokens.RBracket))
                 (e <- ParseExpr true None ;; ret (Some e))
                 (ret None) ;;
  Accept Tokens.RBracket ;;
  bodyStmnt <- call_ParseStmnt self ;;
  ret (ForLoopStmnt ast attribs initSmnt condition iteration bodyStmnt).

Definition ParseWhileLoopStmnt (attribs : list FunctionCall) : M Stmnt :=
  ast <- Make ;;
  Accept Tokens.While ;;
  Accept Tokens.LBracket ;;
  condition <- ParseExpr true None ;;
  Accept Tokens.RBracket ;;
  bodyStmnt <- call_ParseStmnt self ;;
  ret (WhileLoopStmnt ast attribs condition bodyStmnt).

Definition ParseDoWhileLoopStmnt (attribs : list FunctionCall) : M Stmnt :=
  ast <- Make ;;
  Accept Tokens.Do ;;
  bodyStmnt <- call_ParseStmnt self ;;
  Accept Tokens.While ;;
  Accept Tokens.LBracket ;;
  condition <- ParseExpr true None ;;
  Accept Tokens.RBracket ;;
  Semi ;;
  ret (DoWhileLoopStmnt ast attribs bodyStmnt condition).

Definition ParseElseStmnt : M ElseStmnt :=
  ast <- Make ;;
  Accept Tokens.Else ;;
  bodyStmnt <- call_ParseStmnt self ;;
  ret (MkElseStmnt ast bodyStmnt).

Definition ParseIfStmnt (attribs : list FunctionCall) : M Stmnt :=
  ast <- Make ;;
  Accept Tokens.If ;;
  Accept Tokens.LBracket ;;
  condition <- ParseExpr true None ;;
  Accept Tokens.RBracket ;;
  bodyStmnt <- call_ParseStmnt self ;;
  IfM (Is Tokens.Else)
    (elseStmnt <- ParseElseStmnt ;;
     ret (IfStmnt ast attribs condition bodyStmnt (Some elseStmnt)))
    (ret (IfStmnt ast attribs condition bodyStmnt None)).

Definition ParseSwitchStmnt (attribs : list FunctionCall) : M Stmnt :=
  ast <- Make ;;
  Accept Tokens.Switch ;;
  Accept Tokens.LBracket ;;
  selector <- ParseExpr true None ;;
  Accept Tokens.RBracket ;;
  Accept Tokens.LCurly ;;
  cases <- ParseSwitchCaseList ;;
  Accept Tokens.RCurly ;;
  ret (SwitchStmnt ast attribs selector cases).

Definition ParseCtrlTransferStmnt : M Stmnt :=
  ast <- Make ;;
  instruction <- Accept Tokens.CtrlTransfer ;;
  Semi ;;
  ret (CtrlTransferStmnt ast (Spell instruction)).

Definition ParseReturnStmnt : M Stmnt :=
  ast <- Make ;;
  Accept Tokens.Return ;;
  expr <- IfM (negb_ (Is Tokens.Semicolon))
            (e <- ParseExpr true None ;; ret (Some e))
            (ret None) ;;
  Semi ;;
  ret (ReturnStmnt ast expr).

Definition ParseExprStmnt (varIdent : option VarIdent) : M Stmnt :=
  ast <- Make ;;
  expr <- match varIdent with
          | Some v =>
              expr <- Make ;;
              ParseExpr true (Some (VarAccessExpr expr v "" None))
          | None => ParseExpr true None
          end ;;
  Semi ;;
  ret (ExprStmnt ast expr).

Definition ParseStructDeclOrVarDeclStmnt : M Stmnt :=
  ast <- Make ;;
  structure <- ParseStructure ;;
  IfM (negb_ (Is Tokens.Semicolon))
    (varDeclStmnt <- Make ;;
     varType <- Make ;;
     varDecls <- ParseVarDeclList ;;
     Semi ;;
     ret (StmntVarDecl
            (MkVarDeclStmnt varDeclStmnt "" [] []
               (MkVarType varType "" (Some structure) None) varDecls)))
    (Semi ;;
     ret (StructDeclStmnt ast structure)).

Definition ParseVarDeclOrAssignOrFunctionCallStmnt : M Stmnt :=
  varIdent <- ParseVarIdent ;;
  IfM (Is Tokens.LBracket)
    (ast <- Make ;;
     call <- ParseFunctionCall (Some varIdent) ;;
     Semi ;;
     ret (FunctionCallStmnt ast call))
 (IfM (Is Tokens.AssignOp)
    (ast <- Make ;;
     op <- AcceptIt ;;
     expr <- ParseExpr true None ;;
     Semi ;;
     ret (AssignStmnt ast varIdent (Spell op) expr))
 (IfM (orb_ (IsSpell Tokens.UnaryOp "++") (IsSpell Tokens.UnaryOp "--"))
    (ParseExprStmnt (Some varIdent))
    (match VarIdent_next varIdent with
     | None =>
         ast <- Make ;;
         varType <- Make ;;
         varDecls <- ParseVarDeclList ;;
         Semi ;;
         ret (StmntVarDecl
                (MkVarDeclStmnt ast "" [] []
                   (MkVarType varType (VarIdent_ident varIdent) None None)
                   (map (set_declStmntRef (Some (addr ast))) varDecls)))
     | Some _ =>
         ErrorUnexpectedHint
           "expected variable declaration, assignment or function call statement"
     end))).

Definition ParseStmnt : M Stmnt :=
  attribs <- IfM (Is Tokens.LParen) ParseAttributeList (ret []) ;;
  fun p =>
    match HLSLParser_Type p with
    | Tokens.Semicolon => ParseNullStmnt p
    | Tokens.Directive => ParseDirectiveStmnt p
    | Tokens.LCurly => ParseCodeBlockStmnt p
    | Tokens.Return => ParseReturnStmnt p
    | Tokens.Ident => ParseVarDeclOrAssignOrFunctionCallStmnt p
    | Tokens.For => ParseForLoopStmnt attribs p
    | Tokens.While => ParseWhileLoopStmnt attribs p
    | Tokens.Do => ParseDoWhileLoopStmnt attribs p
    | Tokens.If => ParseIfStmnt attribs p
    | Tokens.Switch => ParseSwitchStmnt attribs p
    | Tokens.CtrlTransfer => ParseCtrlTransferStmnt p
    | Tokens.Struct => ParseStructDeclOrVarDeclStmnt p
    | Tokens.TypeModifier
    | Tokens.StorageModifier => (s <- ParseVarDeclStmnt ;; ret (StmntVarDecl s)) p
    | _ =>
        IfM IsDataType
          (s <- ParseVarDeclStmnt ;; ret (StmntVarDecl s))
          (ParseExprStmnt None) p
    end.

(** *** Global declarations *)

Definition ParseFunctionDecl : M GlobalDecl :=
  ast <- Make ;;
  attribs <- ParseAttributeList ;;
  returnType <- ParseVarType true ;;
  name <- Accept Tokens.Ident ;;
  parameters <- ParseParameterList ;;
  semantic <- IfM (Is Tokens.Colon) ParseSemantic (ret "") ;;
  IfM (Is Tokens.Semicolon)
    (AcceptIt ;;
     ret (FunctionDecl ast attribs returnType (Spell name) parameters semantic
            None))
    (codeBlock <- ParseCodeBlock ;;
     ret (FunctionDecl ast attribs returnType (Spell name) parameters semantic
            (Some codeBlock))).

Definition ParseUniformBufferDecl : M GlobalDecl :=
  ast <- Make ;;
  bufferType <- Accept Tokens.UniformBuffer ;;
  name <- Accept Tokens.Ident ;;
  registerName <- IfM (Is Tokens.Colon) (ParseRegister true) (ret "") ;;
  members <- ParseVarDeclStmntList ;;
  Semi ;;
  ret (UniformBufferDecl ast (Spell bufferType) (Spell name) registerName
         members).

Definition ParseTextureDecl : M GlobalDecl :=
  ast <- Make ;;
  textureType <- Accept Tokens.Texture ;;
  colorType <-
    IfM (IsSpell Tokens.BinaryOp "<")
      (AcceptIt ;;
       c <- Accept Tokens.ScalarType ;;
       AcceptSpell Tokens.BinaryOp ">" ;;
       ret (Spell c))
      (ret "") ;;
  names <- ParseBufferDeclIdentList ;;
  Semi ;;
  ret (TextureDecl ast (Spell textureType) colorType names).

Definition ParseSamplerDecl : M GlobalDecl :=
  ast <- Make ;;
  samplerType <- Accept Tokens.Sampler ;;
  names <- ParseBufferDeclIdentList ;;
  Semi ;;
  ret (SamplerDecl ast (Spell samplerType) names).

Definition ParseStructDecl : M GlobalDecl :=
  ast <- Make ;;
  structure <- ParseStructure ;;
  Semi ;;
  ret (StructDecl ast structure).

Definition ParseDirectiveDecl : M GlobalDecl :=
  ast <- Make ;;
  t <- Accept Tokens.Directive ;;
  ret (DirectiveDecl ast (Spell t)).

Definition ParseGlobalDecl : M GlobalDecl :=
  fun p =>
    match HLSLParser_Type p with
    | Tokens.Sampler => ParseSamplerDecl p
    | Tokens.Texture => ParseTextureDecl p
    | Tokens.UniformBuffer => ParseUniformBufferDecl p
    | Tokens.Struct => ParseStructDecl p
    | Tokens.Directive => ParseDirectiveDecl p
    | _ => ParseFunctionDecl p
    end.

Definition ParseProgram_loop (globalDecls : list GlobalDecl)
  : M (list GlobalDecl) :=
  IfM (negb_ (Is Tokens.EndOfStream))
    (d <- ParseGlobalDecl ;;
     loop_ParseProgram self (push_back globalDecls d))
    (ret globalDecls).

Definition ParseProgram : M Program :=
  ast <- Make ;;
  globalDecls <- ParseProgram_loop [] ;;
  ret (MkProgram ast globalDecls).

End Productions.

(** *** Tying the knot *)

(** With no budget left, every recursive call gives up. *)
Definition exhausted : Recursion :=
  MkRecursion
    (fun _ _ _ => OutOfFuel) (fun _ => OutOfFuel) (fun _ => OutOfFuel)
    (fun _ => OutOfFuel) (fun _ => OutOfFuel) (fun _ _ => OutOfFuel)
    (fun _ _ => OutOfFuel) (fun _ _ => OutOfFuel) (fun _ _ => OutOfFuel)
    (fun _ _ => OutOfFuel) (fun _ _ => OutOfFuel) (fun _ _ => OutOfFuel)
    (fun _ _ => OutOfFuel) (fun _ _ => OutOfFuel)
    (fun _ _ _ _ => OutOfFuel) (fun _ _ => OutOfFuel) (fun _ _ => OutOfFuel)
    (fun _ _ => OutOfFuel) (fun _ _ => OutOfFuel) (fun _ _ => OutOfFuel).

(** [HLSL n] are the productions that may nest recursive calls and loop
    iterations [n] deep. *)
Fixpoint HLSL (fuel : nat) : Recursion :=
  match fuel with
  | O => exhausted
  | S n =>
      let self := HLSL n in
      {| call_ParseExpr := ParseExpr self;
         call_ParsePrimaryExpr := ParsePrimaryExpr self;
         call_ParseVarIdent := ParseVarIdent self;
         call_ParseStmnt := ParseStmnt self;
         call_ParseVarDeclStmnt := ParseVarDeclStmnt self;
         loop_ParseProgram := ParseProgram_loop self;
         loop_ParseParameter := ParseParameter_loop self;
         loop_ParseSwitchCase := ParseSwitchCase_loop self;
         loop_ParseAttribute := ParseAttribute_loop self;
         loop_ParseVarDeclStmnt := ParseVarDeclStmnt_loop self;
         loop_ParseVarDeclList := ParseVarDeclList_loop self;
         loop_ParseVarDeclStmntList := ParseVarDeclStmntList_loop self;
         loop_ParseParameterList := ParseParameterList_loop self;
         loop_ParseStmntList := ParseStmntList_loop self;
         loop_ParseExprList := ParseExprList_loop self;
         loop_ParseArrayDimensionList := ParseArrayDimensionList_loop self;
         loop_ParseVarSemanticList := ParseVarSemanticList_loop self;
         loop_ParseAttributeList := ParseAttributeList_loop self;
         loop_ParseSwitchCaseList := ParseSwitchCaseList_loop self;
         loop_ParseBufferDeclIdentList := ParseBufferDeclIdentList_loop self |}
  end.

(** ** The logger *)

(** [Logger] is an interface (five virtual operations); a sink is any
    type of logger states with these operations. *)
Class Logger (L : Type) : Type := {
  Logger_Info : string -> L -> L;
  Logger_Warning : string -> L -> L;
  Logger_Error : string -> L -> L;
  Logger_IncIndent : L -> L;
  Logger_DecIndent : L -> L
}.

(** The calls a sink receives, for sinks that only record them. *)
Inductive LogCall : Type :=
| CallInfo (message : string)
| CallWarning (message : string)
| CallError (message : string)
| CallIncIndent
| CallDecIndent.

#[export] Instance Recorder : Logger (list LogCall) := {|
  Logger_Info m l := push_back l (CallInfo m);
  Logger_Warning m l := push_back l (CallWarning m);
  Logger_Error m l := push_back l (CallError m);
  Logger_IncIndent l := push_back l CallIncIndent;
  Logger_DecIndent l := push_back l CallDecIndent
|}.

(** Modelled from the spec: a sink keeps a non-negative indentation
    counter ([DecIndent] at zero does nothing) and every emitted line
    carries the indentation in force.  [lines] replays recorded calls
    that way and keeps the informational lines. *)
Fixpoint lines_from (indent : nat) (calls : list LogCall)
  : list (nat * string) :=
  match calls with
  | [] => []
  | CallInfo m :: rest => (indent, m) :: lines_from indent rest
  | CallIncIndent :: rest => lines_from (S indent) rest
  | CallDecIndent :: rest => lines_from (Nat.pred indent) rest
  | _ :: rest => lines_from indent rest
  end.

Definition lines (calls : list LogCall) : list (nat * string) :=
  lines_from 0 calls.


(** ** The printer *)

Section ASTPrinter.

Context {L : Type} `{Logger L}.

Definition quote : string := String (ascii_of_nat 34) EmptyString.

Definition Print (ast : AST) (astName info : string) (log_ : L) : L :=
  let msg := astName ++ " (" ++ ToString (pos ast) ++ ")" in
  let msg := if String.eqb info "" then msg
             else msg ++ " " ++ quote ++ info ++ quote in
  Logger_Info msg log_.

(** [SCOPED_INDENT; body]: the indentation is raised for the rest of
    the visit function and lowered when it returns. *)
Definition SCOPED_INDENT (body : L -> L) (log_ : L) : L :=
  Logger_DecIndent (body (Logger_IncIndent log_)).

(** [Visit(ptr)] does nothing on a null pointer. *)
Definition Visit {A} (visit : A -> L -> L) (ptr : option A) (log_ : L) : L :=
  match ptr with
  | Some ast => visit ast log_
  | None => log_
  end.

(** [for (auto& x : xs) Visit(x);] *)
Definition VisitEach {A} (visit : A -> L -> L) (xs : list A) (log_ : L) : L :=
  fold_left (fun l x => visit x l) xs log_.

Definition then_ (f g : L -> L) : L -> L := fun l => g (f l).
Infix ">>" := then_ (at level 60, right associativity).

Fixpoint VisitExpr (ast : Expr) : L -> L :=
  match ast with
  | ListExpr h firstExpr nextExpr =>
      Print h "ListExpr" "" >>
      SCOPED_INDENT (VisitExpr firstExpr >> VisitExpr nextExpr)
  | LiteralExpr h literal => Print h "LiteralExpr" literal
  | TypeNameExpr h typeName => Print h "TypeNameExpr" typeName
  | TernaryExpr h condition ifExpr elseExpr =>
      Print h "TernaryExpr" "" >>
      SCOPED_INDENT
        (VisitExpr condition >> VisitExpr ifExpr >> VisitExpr elseExpr)
  | BinaryExpr h lhsExpr op rhsExpr =>
      Print h "BinaryExpr" op >>
      SCOPED_INDENT (VisitExpr lhsExpr >> VisitExpr rhsExpr)
  | UnaryExpr h op expr =>
      Print h "UnaryExpr" op >> SCOPED_INDENT (VisitExpr expr)
  | PostUnaryExpr h expr op =>
      Print h "PostUnaryExpr" op >> SCOPED_INDENT (VisitExpr expr)
  | FunctionCallExpr h call =>
      Print h "FunctionCallExpr" "" >> SCOPED_INDENT (VisitFunctionCall call)
  | BracketExpr h expr =>
      Print h "BracketExpr" "" >> SCOPED_INDENT (VisitExpr expr)
  | CastExpr h typeExpr expr =>
      Print h "CastExpr" "" >> SCOPED_INDENT (VisitExpr typeExpr)
  | VarAccessExpr h varIdent assignOp assignExpr =>
      Print h "VarAccessExpr" "" >>
      SCOPED_INDENT (VisitVarIdent varIdent >> Visit VisitExpr assignExpr)
  | InitializerExpr h exprs =>
      Print h "InitializerExpr" "" >>
      SCOPED_INDENT (VisitEach VisitExpr exprs)
  end
with VisitVarIdent (ast : VarIdent) : L -> L :=
  match ast with
  | MkVarIdent h ident arrayIndices next =>
      Print h "VarIdent" ident >>
      SCOPED_INDENT
        (VisitEach VisitExpr arrayIndices >> Visit VisitVarIdent next)
  end
with VisitFunctionCall (ast : FunctionCall) : L -> L :=
  match ast with
  | MkFunctionCall h name arguments =>
      Print h "FunctionCall" "" >>
      SCOPED_INDENT (VisitVarIdent name >> VisitEach VisitExpr arguments)
  end.

Definition VisitPackOffset (ast : PackOffset) : L -> L :=
  let info := po_registerName ast in
  let info := if negb (String.eqb (po_vectorComponent ast) "")
              then info ++ " (" ++ po_vectorComponent ast ++ ")"
              else info in
  Print (po_h ast) "PackOffset" info.

Definition VisitVarSemantic (ast : VarSemantic) : L -> L :=
  let info := vs_semantic ast in
  let info := if negb (String.eqb (vs_registerName ast) "")
              then info ++ " (" ++ vs_registerName ast ++ ")"
              else info in
  Print (vs_h ast) "VarSemantic" info >>
  SCOPED_INDENT (Visit VisitPackOffset (vs_packOffset ast)).

Definition VisitVarDecl (ast : VarDecl) : L -> L :=
  Print (vd_h ast) "VarDecl" (vd_name ast) >>
  SCOPED_INDENT
    (VisitEach VisitExpr (vd_arrayDims ast) >>
     VisitEach VisitVarSemantic (vd_semantics ast) >>
     Visit VisitExpr (vd_initializer ast)).

Definition VisitBufferDeclIdent (ast : BufferDeclIdent) : L -> L :=
  Print (bdi_h ast) "BufferDeclIdent" (bdi_ident ast).

Definition VisitVarDeclStmnt (ast : VarDeclStmnt) : L -> L :=
  match ast with
  | MkVarDeclStmnt h _ _ _ _ varDecls =>
      Print h "VarDeclStmnt" "" >>
      SCOPED_INDENT (VisitEach VisitVarDecl varDecls)
  end.

Definition VisitStructure (ast : Structure) : L -> L :=
  match ast with
  | MkStructure h _ members =>
      Print h "Structure" "" >>
      SCOPED_INDENT (VisitEach VisitVarDeclStmnt members)
  end.

Definition VisitVarType (ast : VarType) : L -> L :=
  match ast with
  | MkVarType h baseType structType _ =>
      Print h "VarType" baseType >>
      SCOPED_INDENT (Visit VisitStructure structType)
  end.

Fixpoint VisitStmnt (ast : Stmnt) : L -> L :=
  match ast with
  | NullStmnt h => Print h "NullStmnt" ""
  | DirectiveStmnt h line_ => Print h "DirectiveStmnt" line_
  | CodeBlockStmnt h codeBlock =>
      Print h "CodeBlockStmnt" "" >> SCOPED_INDENT (VisitCodeBlock codeBlock)
  | ForLoopStmnt h _ initSmnt condition iteration bodyStmnt =>
      Print h "ForLoopStmnt" "" >>
      SCOPED_INDENT
        (VisitStmnt initSmnt >> Visit VisitExpr condition >>
         Visit VisitExpr iteration >> VisitStmnt bodyStmnt)
  | WhileLoopStmnt h _ condition bodyStmnt =>
      Print h "WhileLoopStmnt" "" >>
      SCOPED_INDENT (VisitExpr condition >> VisitStmnt bodyStmnt)
  | DoWhileLoopStmnt h _ bodyStmnt condition =>
      Print h "DoWhileLoopStmnt" "" >>
      SCOPED_INDENT (VisitStmnt bodyStmnt >> VisitExpr condition)
  | IfStmnt h _ condition bodyStmnt elseStmnt =>
      Print h "IfStmnt" "" >>
      SCOPED_INDENT
        (VisitExpr condition >> VisitStmnt bodyStmnt >>
         Visit VisitElseStmnt elseStmnt)
  | SwitchStmnt h _ selector cases =>
      Print h "SwitchStmnt" "" >>
      SCOPED_INDENT (VisitExpr selector >> VisitEach VisitSwitchCase cases)
  | StmntVarDecl s => VisitVarDeclStmnt s
  | AssignStmnt h _ _ expr =>
      Print h "AssignStmnt" "" >> SCOPED_INDENT (VisitExpr expr)
  | ExprStmnt h expr =>
      Print h "ExprStmnt" "" >> SCOPED_INDENT (VisitExpr expr)
  | FunctionCallStmnt h call =>
      Print h "FunctionCallStmnt" "" >> SCOPED_INDENT (VisitFunctionCall call)
  | ReturnStmnt h expr =>
      Print h "ReturnStmnt" "" >> SCOPED_INDENT (Visit VisitExpr expr)
  | StructDeclStmnt h structure =>
      Print h "StructDeclStmnt" "" >> SCOPED_INDENT (VisitStructure structure)
  | CtrlTransferStmnt h instruction =>
      Print h "CtrlTransferStmnt" instruction
  end
with VisitCodeBlock (ast : CodeBlock) : L -> L :=
  match ast with
  | MkCodeBlock h stmnts =>
      Print h "CodeBlock" "" >> SCOPED_INDENT (VisitEach VisitStmnt stmnts)
  end
with VisitElseStmnt (ast : ElseStmnt) : L -> L :=
  match ast with
  | MkElseStmnt h bodyStmnt =>
      Print h "ElseStmnt" "" >> SCOPED_INDENT (VisitStmnt bodyStmnt)
  end
with VisitSwitchCase (ast : SwitchCase) : L -> L :=
  match ast with
  | MkSwitchCase h _ stmnts =>
      Print h "SwitchCase" "" >> SCOPED_INDENT (VisitEach VisitStmnt stmnts)
  end.

Definition VisitGlobalDecl (ast : GlobalDecl) : L -> L :=
  match ast with
  | FunctionDecl h attribs _ name _ _ codeBlock =>
      Print h "FunctionDecl" name >>
      SCOPED_INDENT
        (VisitEach VisitFunctionCall attribs >> Visit VisitCodeBlock codeBlock)
  | UniformBufferDecl h bufferType name _ members =>
      Print h "UniformBufferDecl" (name ++ " (" ++ bufferType ++ ")") >>
      SCOPED_INDENT (VisitEach VisitVarDeclStmnt members)
  | TextureDecl h _ _ names =>
      Print h "TextureDecl" "" >>
      SCOPED_INDENT (VisitEach VisitBufferDeclIdent names)
  | SamplerDecl h _ names =>
      Print h "SamplerDecl" "" >>
      SCOPED_INDENT (VisitEach VisitBufferDeclIdent names)
  | StructDecl h structure =>
      Print h "StructDecl" "" >> SCOPED_INDENT (VisitStructure structure)
  | DirectiveDecl h line_ => Print h "DirectiveDecl" line_
  end.

Definition VisitProgram (ast : Program) : L -> L :=
  Print (prog_h ast) "Program" "" >>
  SCOPED_INDENT (VisitEach VisitGlobalDecl (globalDecls ast)).

Definition DumpAST (program : Program) (log : L) : L :=
  VisitProgram program log.

End ASTPrinter.

(** ** The nodes of a tree *)

(** A node of any class.  A [VarDeclStmnt] in statement position is one
    node, presented as [NodeVarDeclStmnt]. *)
Inductive Node : Type :=
| NodeProgram (n : Program)
| NodeGlobalDecl (n : GlobalDecl)
| NodeStmnt (n : Stmnt)
| NodeCodeBlock (n : CodeBlock)
| NodeElseStmnt (n : ElseStmnt)
| NodeSwitchCase (n : SwitchCase)
| NodeVarDeclStmnt (n : VarDeclStmnt)
| NodeVarType (n : VarType)
| NodeStructure (n : Structure)
| NodeVarDecl (n : VarDecl)
| NodeVarSemantic (n : VarSemantic)
| NodePackOffset (n : PackOffset)
| NodeBufferDeclIdent (n : BufferDeclIdent)
| NodeExpr (n : Expr)
| NodeVarIdent (n : VarIdent)
| NodeFunctionCall (n : FunctionCall).

Definition of_option {A} (f : A -> list Node) (o : option A) : list Node :=
  match o with
  | Some a => f a
  | None => []
  end.

(** Every node reachable through owning pointers, parents first. *)
Fixpoint nodes_Expr (e : Expr) : list Node :=
  NodeExpr e ::
  match e with
  | ListExpr _ a b => nodes_Expr a ++ nodes_Expr b
  | LiteralExpr _ _ | TypeNameExpr _ _ => []
  | TernaryExpr _ c a b => nodes_Expr c ++ nodes_Expr a ++ nodes_Expr b
  | BinaryExpr _ a _ b => nodes_Expr a ++ nodes_Expr b
  | UnaryExpr _ _ a | PostUnaryExpr _ a _ | BracketExpr _ a => nodes_Expr a
  | FunctionCallExpr _ c => nodes_FunctionCall c
  | CastExpr _ t a => nodes_Expr t ++ nodes_Expr a
  | VarAccessExpr _ v _ a => nodes_VarIdent v ++ of_option nodes_Expr a
  | InitializerExpr _ es => flat_map nodes_Expr es
  end%list
with nodes_VarIdent (v : VarIdent) : list Node :=
  NodeVarIdent v ::
  match v with
  | MkVarIdent _ _ idx nxt =>
      flat_map nodes_Expr idx ++ of_option nodes_VarIdent nxt
  end%list
with nodes_FunctionCall (c : FunctionCall) : list Node :=
  NodeFunctionCall c ::
  match c with
  | MkFunctionCall _ n args => nodes_VarIdent n ++ flat_map nodes_Expr args
  end%list.

Definition nodes_VarSemantic (s : VarSemantic) : list Node :=
  NodeVarSemantic s ::
  of_option (fun po => [NodePackOffset po]) (vs_packOffset s).

Definition nodes_VarDecl (d : VarDecl) : list Node :=
  (NodeVarDecl d ::
   flat_map nodes_Expr (vd_arrayDims d) ++
   flat_map nodes_VarSemantic (vd_semantics d) ++
   of_option nodes_Expr (vd_initializer d))%list.

Fixpoint nodes_VarDeclStmnt (s : VarDeclStmnt) : list Node :=
  NodeVarDeclStmnt s ::
  match s with
  | MkVarDeclStmnt _ _ _ _ t ds =>
      nodes_VarType t ++ flat_map nodes_VarDecl ds
  end%list
with nodes_VarType (t : VarType) : list Node :=
  NodeVarType t ::
  match t with
  | MkVarType _ _ st _ => of_option nodes_Structure st
  end
with nodes_Structure (s : Structure) : list Node :=
  NodeStructure s ::
  match s with
  | MkStructure _ _ ms => flat_map nodes_VarDeclStmnt ms
  end.

Fixpoint nodes_Stmnt (s : Stmnt) : list Node :=
  match s with
  | StmntVarDecl v => nodes_VarDeclStmnt v
  | _ =>
    NodeStmnt s ::
    match s with
    | NullStmnt _ | DirectiveStmnt _ _ | CtrlTransferStmnt _ _
    | StmntVarDecl _ => []
    | CodeBlockStmnt _ b => nodes_CodeBlock b
    | ForLoopStmnt _ at_ i c it b =>
        flat_map nodes_FunctionCall at_ ++ nodes_Stmnt i ++
        of_option nodes_Expr c ++ of_option nodes_Expr it ++ nodes_Stmnt b
    | WhileLoopStmnt _ at_ c b =>
        flat_map nodes_FunctionCall at_ ++ nodes_Expr c ++ nodes_Stmnt b
    | DoWhileLoopStmnt _ at_ b c =>
        flat_map nodes_FunctionCall at_ ++ nodes_Stmnt b ++ nodes_Expr c
    | IfStmnt _ at_ c b e =>
        flat_map nodes_FunctionCall at_ ++ nodes_Expr c ++ nodes_Stmnt b ++
        of_option nodes_ElseStmnt e
    | SwitchStmnt _ at_ sel cs =>
        flat_map nodes_FunctionCall at_ ++ nodes_Expr sel ++
        flat_map nodes_SwitchCase cs
    | AssignStmnt _ v _ e => nodes_VarIdent v ++ nodes_Expr e
    | ExprStmnt _ e => nodes_Expr e
    | FunctionCallStmnt _ c => nodes_FunctionCall c
    | ReturnStmnt _ e => of_option nodes_Expr e
    | StructDeclStmnt _ st => nodes_Structure st
    end
  end%list
with nodes_CodeBlock (b : CodeBlock) : list Node :=
  NodeCodeBlock b ::
  match b with
  | MkCodeBlock _ ss => flat_map nodes_Stmnt ss
  end
with nodes_ElseStmnt (e : ElseStmnt) : list Node :=
  NodeElseStmnt e ::
  match e with
  | MkElseStmnt _ b => nodes_Stmnt b
  end
with nodes_SwitchCase (c : SwitchCase) : list Node :=
  NodeSwitchCase c ::
  match c with
  | MkSwitchCase _ e ss => of_option nodes_Expr e ++ flat_map nodes_Stmnt ss
  end%list.

Definition nodes_GlobalDecl (d : GlobalDecl) : list Node :=
  NodeGlobalDecl d ::
  match d with
  | FunctionDecl _ at_ rt _ ps _ b =>
      flat_map nodes_FunctionCall at_ ++ nodes_VarType rt ++
      flat_map nodes_VarDeclStmnt ps ++ of_option nodes_CodeBlock b
  | UniformBufferDecl _ _ _ _ ms => flat_map nodes_VarDeclStmnt ms
  | TextureDecl _ _ _ ns | SamplerDecl _ _ ns =>
      map NodeBufferDeclIdent ns
  | StructDecl _ st => nodes_Structure st
  | DirectiveDecl _ _ => []
  end%list.

Definition nodes_Program (p : Program) : list Node :=
  NodeProgram p :: flat_map nodes_GlobalDecl (globalDecls p).

(** *** The invariants of the specification, as checks on a tree *)

Definition Ref_eqb (a b : Ref) : bool :=
  match a, b with
  | Some x, Some y => Nat.eqb x y
  | None, None => true
  | _, _ => false
  end.

Definition VarDeclStmnt_get (s : VarDeclStmnt) : Ref :=
  match s with MkVarDeclStmnt h _ _ _ _ _ => Some (addr h) end.

Definition VarDeclStmnt_varDecls (s : VarDeclStmnt) : list VarDecl :=
  match s with MkVarDeclStmnt _ _ _ _ _ ds => ds end.

Definition VarDeclStmnt_inputModifier (s : VarDeclStmnt) : string :=
  match s with MkVarDeclStmnt _ im _ _ _ _ => im end.

Definition VarDeclStmnt_varType (s : VarDeclStmnt) : VarType :=
  match s with MkVarDeclStmnt _ _ _ _ t _ => t end.

Definition VarType_structType (t : VarType) : option Structure :=
  match t with MkVarType _ _ st _ => st end.

Definition VarType_symbolRef (t : VarType) : Ref :=
  match t with MkVarType _ _ _ r => r end.

Definition Structure_name (s : Structure) : string :=
  match s with MkStructure _ n _ => n end.

Definition FunctionCall_name (c : FunctionCall) : VarIdent :=
  match c with MkFunctionCall _ n _ => n end.

(** (P2) every child [v] of a [VarDeclStmnt s] has
    [v.declStmntRef == s]. *)
Definition declStmntRef_ok (n : Node) : bool :=
  match n with
  | NodeVarDeclStmnt s =>
      forallb (fun v => Ref_eqb (declStmntRef v) (VarDeclStmnt_get s))
              (VarDeclStmnt_varDecls s)
  | _ => true
  end.

(** (P3) every [VarType] with a [structType] has
    [symbolRef == structType]. *)
Definition symbolRef_ok (n : Node) : bool :=
  match n with
  | NodeVarType t =>
      match VarType_structType t with
      | Some st => Ref_eqb (VarType_symbolRef t) (Structure_get st)
      | None => true
      end
  | _ => true
  end.

(** ** Sample inputs *)

(** Token streams as the scanner would deliver them, all on line 1. *)
Definition tok (type : Tokens.t) (spell : string) (col : N) : Token :=
  MkToken type spell (MkSourcePos 1 col).

(** A parser on a token stream, after the first [AcceptIt()]. *)
Definition parser_on (tokens : list Token) : HLSLParser :=
  first_token (MkScanner tokens (MkSourcePos 1 1)).

Definition value_of {A} (default : A) (r : Result A) : A :=
  match r with
  | Ok a _ => a
  | _ => default
  end.

Definition state_of {A} (default : HLSLParser) (r : Result A) : HLSLParser :=
  match r with
  | Ok _ p => p
  | _ => default
  end.

(** [void f(in float x);] *)
Definition src_prototype : list Token :=
  [ tok Tokens.Void "void" 1; tok Tokens.Ident "f" 6;
    tok Tokens.LBracket "(" 7; tok Tokens.InputModifier "in" 8;
    tok Tokens.ScalarType "float" 11; tok Tokens.Ident "x" 17;
    tok Tokens.RBracket ")" 18; tok Tokens.Semicolon ";" 19 ].

(** [struct S { float a; } v;] *)
Definition src_struct_variable : list Token :=
  [ tok Tokens.Struct "struct" 1; tok Tokens.Ident "S" 8;
    tok Tokens.LCurly "{" 10; tok Tokens.ScalarType "float" 12;
    tok Tokens.Ident "a" 18; tok Tokens.Semicolon ";" 19;
    tok Tokens.RCurly "}" 21; tok Tokens.Ident "v" 23;
    tok Tokens.Semicolon ";" 24 ].

(** [cbuffer B { struct S { float a; } v; };] *)
Definition src_cbuffer_struct : list Token :=
  [ tok Tokens.UniformBuffer "cbuffer" 1; tok Tokens.Ident "B" 9;
    tok Tokens.LCurly "{" 11;
    tok Tokens.Struct "struct" 13; tok Tokens.Ident "S" 20;
    tok Tokens.LCurly "{" 22; tok Tokens.ScalarType "float" 24;
    tok Tokens.Ident "a" 30; tok Tokens.Semicolon ";" 31;
    tok Tokens.RCurly "}" 33; tok Tokens.Ident "v" 35;
    tok Tokens.Semicolon ";" 36;
    tok Tokens.RCurly "}" 38; tok Tokens.Semicolon ";" 39 ].

(** [struct { float a; } v;] *)
Definition src_anonymous_struct : list Token :=
  [ tok Tokens.Struct "struct" 1;
    tok Tokens.LCurly "{" 8; tok Tokens.ScalarType "float" 10;
    tok Tokens.Ident "a" 16; tok Tokens.Semicolon ";" 17;
    tok Tokens.RCurly "}" 19; tok Tokens.Ident "v" 21;
    tok Tokens.Semicolon ";" 22 ].

(** [float f(float x) { return (float)x; }] *)
Definition src_cast_function : list Token :=
  [ tok Tokens.ScalarType "float" 1; tok Tokens.Ident "f" 7;
    tok Tokens.LBracket "(" 8; tok Tokens.ScalarType "float" 9;
    tok Tokens.Ident "x" 15; tok Tokens.RBracket ")" 16;
    tok Tokens.LCurly "{" 18; tok Tokens.Return "return" 20;
    tok Tokens.LBracket "(" 27; tok Tokens.ScalarType "float" 28;
    tok Tokens.RBracket ")" 33; tok Tokens.Ident "x" 34;
    tok Tokens.Semicolon ";" 35; tok Tokens.RCurly "}" 37 ].

(** ** Vocabulary of the statements *)

(** The node [Make] returns on parser [p], and the parser it leaves. *)
Definition made (p : HLSLParser) : AST := MkAST (heap_ p) (pos_ (scanner_ p)).

Definition after_Make (p : HLSLParser) : HLSLParser :=
  MkParser (scanner_ p) (tkn_ p) (S (heap_ p)).

(** The parser [AcceptIt] leaves. *)
Definition after_AcceptIt (p : HLSLParser) : HLSLParser :=
  MkParser (snd (Next (scanner_ p))) (fst (Next (scanner_ p))) (heap_ p).

(** The type forms of the cast rule, in words: a [TypeNameExpr], or a
    [VarAccessExpr] whose [assignExpr] is null. *)
Definition type_form (E : Expr) : Prop :=
  (exists h typeName, E = TypeNameExpr h typeName)
  \/ (exists h varIdent assignOp, E = VarAccessExpr h varIdent assignOp None).

Definition is_VarDeclStmnt (s : Stmnt) : Prop :=
  exists v, s = StmntVarDecl v.

(** ** A larger budget only adds results *)

(** [below r r']: [r] is [r'], unless the budget ran out before. *)
Definition below {A} (r r' : Result A) : Prop := r = OutOfFuel \/ r = r'.

Definition refines {A} (f g : M A) : Prop := forall p, below (f p) (g p).

Record Recursion_le (s s' : Recursion) : Prop := MkRecursion_le {
  le_ParseExpr : forall allowComma initExpr,
    refines (call_ParseExpr s allowComma initExpr)
            (call_ParseExpr s' allowComma initExpr);
  le_ParsePrimaryExpr :
    refines (call_ParsePrimaryExpr s) (call_ParsePrimaryExpr s');
  le_ParseVarIdent : refines (call_ParseVarIdent s) (call_ParseVarIdent s');
  le_ParseStmnt : refines (call_ParseStmnt s) (call_ParseStmnt s');
  le_ParseVarDeclStmnt :
    refines (call_ParseVarDeclStmnt s) (call_ParseVarDeclStmnt s');
  le_loop_ParseProgram : forall acc,
    refines (loop_ParseProgram s acc) (loop_ParseProgram s' acc);
  le_loop_ParseParameter : forall acc,
    refines (loop_ParseParameter s acc) (loop_ParseParameter s' acc);
  le_loop_ParseSwitchCase : forall acc,
    refines (loop_ParseSwitchCase s acc) (loop_ParseSwitchCase s' acc);
  le_loop_ParseAttribute : forall acc,
    refines (loop_ParseAttribute s acc) (loop_ParseAttribute s' acc);
  le_loop_ParseVarDeclStmnt : forall acc,
    refines (loop_ParseVarDeclStmnt s acc) (loop_ParseVarDeclStmnt s' acc);
  le_loop_ParseVarDeclList : forall acc,
    refines (loop_ParseVarDeclList s acc) (loop_ParseVarDeclList s' acc);
  le_loop_ParseVarDeclStmntList : forall acc,
    refines (loop_ParseVarDeclStmntList s acc)
            (loop_ParseVarDeclStmntList s' acc);
  le_loop_ParseParameterList : forall acc,
    refines (loop_ParseParameterList s acc) (loop_ParseParameterList s' acc);
  le_loop_ParseStmntList : forall acc,
    refines (loop_ParseStmntList s acc) (loop_ParseStmntList s' acc);
  le_loop_ParseExprList : forall term allowLastComma acc,
    refines (loop_ParseExprList s term allowLastComma acc)
            (loop_ParseExprList s' term allowLastComma acc);
  le_loop_ParseArrayDimensionList : forall acc,
    refines (loop_ParseArrayDimensionList s acc)
            (loop_ParseArrayDimensionList s' acc);
  le_loop_ParseVarSemanticList : forall acc,
    refines (loop_ParseVarSemanticList s acc)
            (loop_ParseVarSemanticList s' acc);
  le_loop_ParseAttributeList : forall acc,
    refines (loop_ParseAttributeList s acc) (loop_ParseAttributeList s' acc);
  le_loop_ParseSwitchCaseList : forall acc,
    refines (loop_ParseSwitchCaseList s acc) (loop_ParseSwitchCaseList s' acc);
  le_loop_ParseBufferDeclIdentList : forall acc,
    refines (loop_ParseBufferDeclIdentList s acc)
            (loop_ParseBufferDeclIdentList s' acc)
}.

(** The current token continues no expression: it is no postfix or
    binary operator, no [?], and no comma where a comma list is
    allowed. *)
Definition ends_expression (allowComma : bool) (p : HLSLParser) : Prop :=
  Is Tokens.UnaryOp p = false /\ Is Tokens.BinaryOp p = false
  /\ Is Tokens.TernaryOp p = false
  /\ (allowComma && Is Tokens.Comma p = false).

(** The parser that has accepted the operator at the current token
    into a node made for it. *)
Definition after_operator (p : HLSLParser) : HLSLParser :=
  after_AcceptIt (after_Make p).

(** A token run is a primary on its own: the primary production reads
    it to the end of the stream and returns [e]. *)
Definition primary_alone (n : nat) (tokens : list Token) (e : Expr) : Prop :=
  exists p', ParsePrimaryExpr (HLSL n) (parser_on tokens) = Ok e p'
             /\ Is Tokens.EndOfStream p' = true.

(** [( x ) - 1 + 2], in its five parts *)
Definition src_bracket_x : list Token :=
  [ tok Tokens.LBracket "(" 1; tok Tokens.Ident "x" 2;
    tok Tokens.RBracket ")" 3 ].
Definition src_minus : Token := tok Tokens.BinaryOp "-" 5.
Definition src_one : list Token := [ tok Tokens.IntLiteral "1" 7 ].
Definition src_plus : Token := tok Tokens.BinaryOp "+" 9.
Definition src_two : list Token := [ tok Tokens.IntLiteral "2" 11 ].

Definition src_bracket_minus : list Token :=
  (src_bracket_x ++ src_minus :: src_one ++ src_plus :: src_two)%list.

(** A primary expression starts at the current token. *)
Definition primary_follows (p : HLSLParser) : Prop :=
  exists m e q, ParsePrimaryExpr (HLSL m) p = Ok e q.

(** [a * b + c ;] *)
Definition src_product_sum : list Token :=
  [ tok Tokens.Ident "a" 1; tok Tokens.BinaryOp "*" 3;
    tok Tokens.Ident "b" 5; tok Tokens.BinaryOp "+" 7;
    tok Tokens.Ident "c" 9; tok Tokens.Semicolon ";" 10 ].

(** [( float ) float3 ( 1 ) ;] *)
Definition src_cast_of_constructor : list Token :=
  [ tok Tokens.LBracket "(" 1; tok Tokens.ScalarType "float" 2;
    tok Tokens.RBracket ")" 7; tok Tokens.VectorType "float3" 8;
    tok Tokens.LBracket "(" 14; tok Tokens.IntLiteral "1" 15;
    tok Tokens.RBracket ")" 16; tok Tokens.Semicolon ";" 17 ].

(** [( float ) x ;] *)
Definition src_cast : list Token :=
  [ tok Tokens.LBracket "(" 1; tok Tokens.ScalarType "float" 2;
    tok Tokens.RBracket ")" 7; tok Tokens.Ident "x" 8;
    tok Tokens.Semicolon ";" 9 ].

(** [foo ( 1 , 2 ) ;] *)
Definition src_call : list Token :=
  [ tok Tokens.Ident "foo" 1; tok Tokens.LBracket "(" 4;
    tok Tokens.IntLiteral "1" 5; tok Tokens.Comma "," 6;
    tok Tokens.IntLiteral "2" 7; tok Tokens.RBracket ")" 8;
    tok Tokens.Semicolon ";" 9 ].

(** The parser whose current token is the first of [tokens], after a
    token at position [last], with [heap] as the next free address. *)
Definition parser_at (tokens : list Token) (last : SourcePos) (heap : nat)
  : HLSLParser :=
  let (t, sc) := Next (MkScanner tokens last) in MkParser sc t heap.

(** The position of the last of [tokens], or [last] if there is none. *)
Definition last_Pos (last : SourcePos) (tokens : list Token) : SourcePos :=
  fold_left (fun _ t => Pos t) tokens last.

Definition is_modifier (t : Token) : bool :=
  match Type_ t with
  | Tokens.InputModifier | Tokens.TypeModifier | Tokens.StorageModifier => true
  | _ => false
  end.

(** What one modifier token does to the three modifier fields. *)
Definition absorb (mods : string * list string * list string) (t : Token)
  : string * list string * list string :=
  let '(inputModifier, typeModifiers, storageModifiers) := mods in
  match Type_ t with
  | Tokens.InputModifier => (Spell t, typeModifiers, storageModifiers)
  | Tokens.TypeModifier =>
      (inputModifier, push_back typeModifiers (Spell t), storageModifiers)
  | Tokens.StorageModifier =>
      (inputModifier, typeModifiers, push_back storageModifiers (Spell t))
  | _ => mods
  end.

(** The [attribs] field of the statement classes that have one. *)
Definition Stmnt_attribs (s : Stmnt) : option (list FunctionCall) :=
  match s with
  | ForLoopStmnt _ a _ _ _ _ | WhileLoopStmnt _ a _ _
  | DoWhileLoopStmnt _ a _ _ | IfStmnt _ a _ _ _ | SwitchStmnt _ a _ _ =>
      Some a
  | _ => None
  end.

(** The tokens that open a statement with an [attribs] field. *)
Definition takes_attribs (t : Tokens.t) : bool :=
  match t with
  | Tokens.For | Tokens.While | Tokens.Do | Tokens.If | Tokens.Switch => true
  | _ => false
  end.

(** The statement with [attribs] in its [attribs] field, if its class
    has one. *)
Definition set_attribs (attribs : list FunctionCall) (s : Stmnt) : Stmnt :=
  match s with
  | ForLoopStmnt h _ i c it b => ForLoopStmnt h attribs i c it b
  | WhileLoopStmnt h _ c b => WhileLoopStmnt h attribs c b
  | DoWhileLoopStmnt h _ b c => DoWhileLoopStmnt h attribs b c
  | IfStmnt h _ c b e => IfStmnt h attribs c b e
  | SwitchStmnt h _ sel cs => SwitchStmnt h attribs sel cs
  | _ => s
  end.

(** The same run, with [attribs] on the statement it returns. *)
Definition attach (attribs : list FunctionCall) (r : Result Stmnt)
  : Result Stmnt :=
  match r with
  | Ok s q => Ok (set_attribs attribs s) q
  | Throw what => Throw what
  | OutOfFuel => OutOfFuel
  end.

(** [in out float x )] *)
Definition src_in_out : list Token :=
  [ tok Tokens.InputModifier "in" 1; tok Tokens.InputModifier "out" 4 ].
Definition src_float_x : list Token :=
  [ tok Tokens.ScalarType "float" 8; tok Tokens.Ident "x" 14;
    tok Tokens.RBracket ")" 15 ].

(** [[unroll] { }] *)
Definition src_attributed_block : list Token :=
  [ tok Tokens.LParen "[" 1; tok Tokens.Ident "unroll" 2;
    tok Tokens.RParen "]" 8; tok Tokens.LCurly "{" 10;
    tok Tokens.RCurly "}" 12 ].

(** [[unroll] while ( x ) ;] *)
Definition src_attributed_while : list Token :=
  [ tok Tokens.LParen "[" 1; tok Tokens.Ident "unroll" 2;
    tok Tokens.RParen "]" 8; tok Tokens.While "while" 10;
    tok Tokens.LBracket "(" 16; tok Tokens.Ident "x" 17;
    tok Tokens.RBracket ")" 18; tok Tokens.Semicolon ";" 20 ].

(** ** Input left, and budgets that suffice *)

(** The tokens still to be accepted: those the scanner has not
    delivered, and the current one unless it is [EndOfStream]. *)
Definition size (p : HLSLParser) : nat :=
  length (source_ (scanner_ p))
  + (if Tokens.eqb (HLSLParser_Type p) Tokens.EndOfStream then 0 else 1).

(** A production that returns has not gone back in the input ([weak]),
    or has accepted at least one token ([strict]). *)
Definition weak {A} (f : M A) : Prop :=
  forall p a q, f p = Ok a q -> size q <= size p.

Definition strict {A} (f : M A) : Prop :=
  forall p a q, f p = Ok a q -> size q < size p.

(** [runs n r f]: [f] does not run out of budget on a parser with
    [2 * size + r] at most [n]. *)
Definition runs (n r : nat) {A} (f : M A) : Prop :=
  forall p, 2 * size p + r <= n -> f p <> OutOfFuel.

Record sizes_ok (s : Recursion) : Prop := MkSizes_ok {
  sz_ParseExpr : forall allowComma, strict (call_ParseExpr s allowComma None);
  sz_ParsePrimaryExpr : strict (call_ParsePrimaryExpr s);
  sz_ParseVarIdent : strict (call_ParseVarIdent s);
  sz_ParseStmnt : strict (call_ParseStmnt s);
  sz_ParseVarDeclStmnt : strict (call_ParseVarDeclStmnt s);
  sz_loop_ParseProgram : forall acc, weak (loop_ParseProgram s acc);
  sz_loop_ParseParameter : forall acc, weak (loop_ParseParameter s acc);
  sz_loop_ParseSwitchCase : forall acc, weak (loop_ParseSwitchCase s acc);
  sz_loop_ParseAttribute : forall acc, weak (loop_ParseAttribute s acc);
  sz_loop_ParseVarDeclStmnt : forall acc, weak (loop_ParseVarDeclStmnt s acc);
  sz_loop_ParseVarDeclList : forall acc, weak (loop_ParseVarDeclList s acc);
  sz_loop_ParseVarDeclStmntList : forall acc,
    weak (loop_ParseVarDeclStmntList s acc);
  sz_loop_ParseParameterList : forall acc,
    weak (loop_ParseParameterList s acc);
  sz_loop_ParseStmntList : forall acc, weak (loop_ParseStmntList s acc);
  sz_loop_ParseExprList : forall term allowLastComma acc,
    weak (loop_ParseExprList s term allowLastComma acc);
  sz_loop_ParseArrayDimensionList : forall acc,
    weak (loop_ParseArrayDimensionList s acc);
  sz_loop_ParseVarSemanticList : forall acc,
    weak (loop_ParseVarSemanticList s acc);
  sz_loop_ParseAttributeList : forall acc,
    weak (loop_ParseAttributeList s acc);
  sz_loop_ParseSwitchCaseList : forall acc,
    weak (loop_ParseSwitchCaseList s acc);
  sz_loop_ParseBufferDeclIdentList : forall acc,
    weak (loop_ParseBufferDeclIdentList s acc)
}.

(** The recursive calls of [s] run when called with one unit to spare;
    a loop that calls a production before it accepts a token needs one
    unit more. *)
Record runs_ok (n : nat) (s : Recursion) : Prop := MkRuns_ok {
  rn_ParseExpr : forall allowComma initExpr,
    runs n 1 (call_ParseExpr s allowComma initExpr);
  rn_ParsePrimaryExpr : runs n 1 (call_ParsePrimaryExpr s);
  rn_ParseVarIdent : runs n 1 (call_ParseVarIdent s);
  rn_ParseStmnt : runs n 1 (call_ParseStmnt s);
  rn_ParseVarDeclStmnt : runs n 1 (call_ParseVarDeclStmnt s);
  rn_loop_ParseProgram : forall acc, runs n 1 (loop_ParseProgram s acc);
  rn_loop_ParseParameter : forall acc, runs n 1 (loop_ParseParameter s acc);
  rn_loop_ParseSwitchCase : forall acc, runs n 2 (loop_ParseSwitchCase s acc);
  rn_loop_ParseAttribute : forall acc, runs n 1 (loop_ParseAttribute s acc);
  rn_loop_ParseVarDeclStmnt : forall acc,
    runs n 1 (loop_ParseVarDeclStmnt s acc);
  rn_loop_ParseVarDeclList : forall acc,
    runs n 1 (loop_ParseVarDeclList s acc);
  rn_loop_ParseVarDeclStmntList : forall acc,
    runs n 2 (loop_ParseVarDeclStmntList s acc);
  rn_loop_ParseParameterList : forall acc,
    runs n 1 (loop_ParseParameterList s acc);
  rn_loop_ParseStmntList : forall acc, runs n 2 (loop_ParseStmntList s acc);
  rn_loop_ParseExprList : forall term allowLastComma acc,
    runs n 2 (loop_ParseExprList s term allowLastComma acc);
  rn_loop_ParseArrayDimensionList : forall acc,
    runs n 1 (loop_ParseArrayDimensionList s acc);
  rn_loop_ParseVarSemanticList : forall acc,
    runs n 1 (loop_ParseVarSemanticList s acc);
  rn_loop_ParseAttributeList : forall acc,
    runs n 1 (loop_ParseAttributeList s acc);
  rn_loop_ParseSwitchCaseList : forall acc,
    runs n 1 (loop_ParseSwitchCaseList s acc);
  rn_loop_ParseBufferDeclIdentList : forall acc,
    runs n 1 (loop_ParseBufferDeclIdentList s acc)
}.

(** ** The entry point *)

Section ParseSource.

Context {L : Type} `{Logger L}.

(** Modelled from the spec: [HLSLScanner::ScanSource] is not among the
    sources.  Scanning a source either fails or leaves a scanner ready
    to deliver its tokens; what the scanner writes to its own copy of
    the logger is not part of [ParseSource]. *)
Variable SourceCode : Type.
Variable ScanSource : SourceCode -> option HLSLScanner.

(** What [ParseSource] hands back: the program pointer, null or the
    root. *)
Definition ProgramPtr : Type := option Program.

(** [ParseSource] returns the pointer together with the logger behind
    [log_], itself possibly null, as the call leaves it.  The
    productions run on a budget of twice the input, which always
    suffices ([ParseProgram_terminates] below): the last case is never
    taken. *)
Definition ParseSource (log_ : option L) (source : SourceCode)
  : ProgramPtr * option L :=
  match ScanSource source with
  | None => (None, log_)                            (* return false *)
  | Some sc =>
      let p := first_token sc in
      match ParseProgram (HLSL (2 * size p)) p with
      | Ok ast _ => (Some ast, log_)
      | Throw what => (None, option_map (Logger_Error what) log_)
      | OutOfFuel => (None, log_)
      end
  end.

End ParseSource.

(** ** Vocabulary of the further properties *)

(** A run that returned or threw, within its budget. *)
Definition terminated {A} (r : Result A) : Prop :=
  match r with
  | Ok _ _ | Throw _ => True
  | OutOfFuel => False
  end.

Definition is_ListExpr (e : Expr) : bool :=
  match e with
  | ListExpr _ _ _ => true
  | _ => false
  end.

(** What [ErrorUnexpected()] throws on parser [p], and what
    [ErrorUnexpected(hint)] throws. *)
Definition unexpected (p : HLSLParser) : string :=
  "syntax error (" ++ ToString (pos_ (scanner_ p)) ++ ") : unexpected token '"
  ++ Spell (tkn_ p) ++ "'".

Definition unexpected_hint (p : HLSLParser) (hint : string) : string :=
  "syntax error (" ++ ToString (pos_ (scanner_ p)) ++ ") : unexpected token '"
  ++ Spell (tkn_ p) ++ "' (" ++ hint ++ ")".

(** [float x ;] *)
Definition src_global_variable : list Token :=
  [ tok Tokens.ScalarType "float" 1; tok Tokens.Ident "x" 7;
    tok Tokens.Semicolon ";" 8 ].

(** [void] *)
Definition src_void : list Token := [ tok Tokens.Void "void" 1 ].

(** [a . b ;] *)
Definition src_member : list Token :=
  [ tok Tokens.Ident "a" 1; tok Tokens.Dot "." 2; tok Tokens.Ident "b" 3;
    tok Tokens.Semicolon ";" 4 ].

(** [1 , }] and [1 , )] *)
Definition src_comma_curly : list Token :=
  [ tok Tokens.IntLiteral "1" 1; tok Tokens.Comma "," 2;
    tok Tokens.RCurly "}" 4 ].
Definition src_comma_bracket : list Token :=
  [ tok Tokens.IntLiteral "1" 1; tok Tokens.Comma "," 2;
    tok Tokens.RBracket ")" 4 ].

(** [( 1 , 2 )] *)
Definition src_arguments : list Token :=
  [ tok Tokens.LBracket "(" 1; tok Tokens.IntLiteral "1" 2;
    tok Tokens.Comma "," 3; tok Tokens.IntLiteral "2" 5;
    tok Tokens.RBracket ")" 6 ].

(** [if ( a ) if ( b ) ; else ;] *)
Definition src_if_if_else : list Token :=
  [ tok Tokens.If "if" 1; tok Tokens.LBracket "(" 4; tok Tokens.Ident "a" 5;
    tok Tokens.RBracket ")" 6;
    tok Tokens.If "if" 8; tok Tokens.LBracket "(" 11; tok Tokens.Ident "b" 12;
    tok Tokens.RBracket ")" 13; tok Tokens.Semicolon ";" 15;
    tok Tokens.Else "else" 17; tok Tokens.Semicolon ";" 22 ].

(** [- a ++ ;] *)
Definition src_minus_a_increment : list Token :=
  [ tok Tokens.BinaryOp "-" 1; tok Tokens.Ident "a" 3;
    tok Tokens.UnaryOp "++" 5; tok Tokens.Semicolon ";" 7 ].

(** [a + b , c ;] *)
Definition src_sum_comma : list Token :=
  [ tok Tokens.Ident "a" 1; tok Tokens.BinaryOp "+" 3;
    tok Tokens.Ident "b" 5; tok Tokens.Comma "," 6;
    tok Tokens.Ident "c" 8; tok Tokens.Semicolon ";" 9 ].

(** ** Diagnostics *)

(** What [HLSLParser::Error] throws: the position of the scanner, then
    one of the messages of the parser. *)
Definition diagnostic (what : string) : Prop :=
  exists pos msg,
    what = "syntax error (" ++ ToString pos ++ ") : " ++ msg
    /\ (msg = "'void' type not allowed in this context"
        \/ exists rest, msg = "unexpected token " ++ rest).

Definition throws_diagnostics {A} (f : M A) : Prop :=
  forall p what, f p = Throw what -> diagnostic what.

Record diagnostics_ok (s : Recursion) : Prop := MkDiagnostics_ok {
  dg_ParseExpr : forall allowComma initExpr,
    throws_diagnostics (call_ParseExpr s allowComma initExpr);
  dg_ParsePrimaryExpr : throws_diagnostics (call_ParsePrimaryExpr s);
  dg_ParseVarIdent : throws_diagnostics (call_ParseVarIdent s);
  dg_ParseStmnt : throws_diagnostics (call_ParseStmnt s);
  dg_ParseVarDeclStmnt : throws_diagnostics (call_ParseVarDeclStmnt s);
  dg_loop_ParseProgram : forall acc,
    throws_diagnostics (loop_ParseProgram s acc);
  dg_loop_ParseParameter : forall acc,
    throws_diagnostics (loop_ParseParameter s acc);
  dg_loop_ParseSwitchCase : forall acc,
    throws_diagnostics (loop_ParseSwitchCase s acc);
  dg_loop_ParseAttribute : forall acc,
    throws_diagnostics (loop_ParseAttribute s acc);
  dg_loop_ParseVarDeclStmnt : forall acc,
    throws_diagnostics (loop_ParseVarDeclStmnt s acc);
  dg_loop_ParseVarDeclList : forall acc,
    throws_diagnostics (loop_ParseVarDeclList s acc);
  dg_loop_ParseVarDeclStmntList : forall acc,
    throws_diagnostics (loop_ParseVarDeclStmntList s acc);
  dg_loop_ParseParameterList : forall acc,
    throws_diagnostics (loop_ParseParameterList s acc);
  dg_loop_ParseStmntList : forall acc,
    throws_diagnostics (loop_ParseStmntList s acc);
  dg_loop_ParseExprList : forall term allowLastComma acc,
    throws_diagnostics (loop_ParseExprList s term allowLastComma acc);
  dg_loop_ParseArrayDimensionList : forall acc,
    throws_diagnostics (loop_ParseArrayDimensionList s acc);
  dg_loop_ParseVarSemanticList : forall acc,
    throws_diagnostics (loop_ParseVarSemanticList s acc);
  dg_loop_ParseAttributeList : forall acc,
    throws_diagnostics (loop_ParseAttributeList s acc);
  dg_loop_ParseSwitchCaseList : forall acc,
    throws_diagnostics (loop_ParseSwitchCaseList s acc);
  dg_loop_ParseBufferDeclIdentList : forall acc,
    throws_diagnostics (loop_ParseBufferDeclIdentList s acc)
}.

(** ** What a sink receives from the printer *)

(** One recorded call, made again on a sink. *)
Definition replay_call {L} `{Logger L} (c : LogCall) (log : L) : L :=
  match c with
  | CallInfo m => Logger_Info m log
  | CallWarning m => Logger_Warning m log
  | CallError m => Logger_Error m log
  | CallIncIndent => Logger_IncIndent log
  | CallDecIndent => Logger_DecIndent log
  end.

Definition replay {L} `{Logger L} (calls : list LogCall) (log : L) : L :=
  fold_left (fun l c => replay_call c l) calls log.

(** The indentation [calls] end on, counted from the level they must
    not go below: [depth] levels above it at the start; none if a
    [DecIndent] comes with nothing left to lower. *)
Fixpoint nesting (depth : nat) (calls : list LogCall) : option nat :=
  match calls with
  | [] => Some depth
  | CallIncIndent :: rest => nesting (S depth) rest
  | CallDecIndent :: rest =>
      match depth with
      | O => None
      | S d => nesting d rest
      end
  | _ :: rest => nesting depth rest
  end.

(** The class names the visit functions of [ASTPrinter.cpp] pass to
    [Print]. *)
Definition AST_names : list string :=
  [ "Program"; "CodeBlock"; "BufferDeclIdent"; "FunctionCall"; "Structure";
    "SwitchCase"; "FunctionDecl"; "UniformBufferDecl"; "TextureDecl";
    "SamplerDecl"; "StructDecl"; "DirectiveDecl"; "NullStmnt";
    "DirectiveStmnt"; "CodeBlockStmnt"; "ForLoopStmnt"; "WhileLoopStmnt";
    "DoWhileLoopStmnt"; "IfStmnt"; "ElseStmnt"; "SwitchStmnt";
    "VarDeclStmnt"; "AssignStmnt"; "ExprStmnt"; "FunctionCallStmnt";
    "ReturnStmnt"; "StructDeclStmnt"; "CtrlTransferStmnt"; "ListExpr";
    "LiteralExpr"; "TypeNameExpr"; "TernaryExpr"; "BinaryExpr"; "UnaryExpr";
    "PostUnaryExpr"; "FunctionCallExpr"; "BracketExpr"; "CastExpr";
    "VarAccessExpr"; "InitializerExpr"; "PackOffset"; "VarSemantic";
    "VarType"; "VarIdent"; "VarDecl" ].

(** A line as [Print] builds it: a class name and the position between
    brackets, then the info between quotes unless it is empty. *)
Definition line_shape (message : string) : Prop :=
  exists (astName : string) (pos : SourcePos),
    In astName AST_names
    /\ (message = astName ++ " (" ++ ToString pos ++ ")"
        \/ exists info,
            info <> ""
            /\ message = (astName ++ " (" ++ ToString pos ++ ")")
                         ++ " " ++ quote ++ info ++ quote).

(** The calls of the printer: lines of that shape and changes of the
    indentation. *)
Definition call_ok (c : LogCall) : Prop :=
  match c with
  | CallInfo m => line_shape m
  | CallIncIndent | CallDecIndent => True
  | CallWarning _ | CallError _ => False
  end.

Definition is_report (c : LogCall) : bool :=
  match c with
  | CallWarning _ | CallError _ => true
  | _ => false
  end.

(** Calls of the printer that pair their changes of the indentation and
    hold [N] lines at most. *)
Definition trace_ok (N : nat) (calls : list LogCall) : Prop :=
  Forall call_ok calls
  /\ (forall d, nesting d calls = Some d)
  /\ length (lines calls) <= N.

(** A visit function makes such calls, the same on a recording sink
    ([recorded]) and on any other ([any]). *)
Definition prints {L} `{Logger L} (N : nat)
  (recorded : list LogCall -> list LogCall) (any : L -> L) : Prop :=
  exists calls,
    (forall l, recorded l = (l ++ calls)%list)
    /\ (forall l, any l = replay calls l)
    /\ trace_ok N calls.

(** * Properties *)

(** ** Token kinds *)

Lemma Tokens_eqb_eq (a b : Tokens.t) : Tokens.eqb a b = true <-> a = b.
Proof.
  split.
  - destruct a, b; simpl; intro E; try reflexivity; discriminate E.
  - intros ->. destruct b; reflexivity.
Qed.

Lemma Is_true_iff (type : Tokens.t) (p : HLSLParser) :
  Is type p = true <-> HLSLParser_Type p = type.
Proof. unfold Is. apply Tokens_eqb_eq. Qed.

Lemma Is_false_iff (type : Tokens.t) (p : HLSLParser) :
  Is type p = false <-> HLSLParser_Type p <> type.
Proof.
  rewrite <- Is_true_iff. destruct (Is type p); split; congruence.
Qed.

(** ** Stepping through a production *)

Lemma bind_Ok {A B} (c : M A) (k : A -> M B) p a p1 :
  c p = Ok a p1 -> bind c k p = k a p1.
Proof. unfold bind. intros ->. reflexivity. Qed.

Lemma bind_Throw {A B} (c : M A) (k : A -> M B) p w :
  c p = Throw w -> bind c k p = Throw w.
Proof. unfold bind. intros ->. reflexivity. Qed.

Lemma bind_Ok_inv {A B} (c : M A) (k : A -> M B) p b p' :
  bind c k p = Ok b p' -> exists a p1, c p = Ok a p1 /\ k a p1 = Ok b p'.
Proof.
  unfold bind. destruct (c p) as [a p1| |]; try discriminate.
  intros E. exists a, p1. split; [reflexivity|exact E].
Qed.

Lemma IfM_true {A} (c : HLSLParser -> bool) (a b : M A) p :
  c p = true -> IfM c a b p = a p.
Proof. unfold IfM. intros ->. reflexivity. Qed.

Lemma IfM_false {A} (c : HLSLParser -> bool) (a b : M A) p :
  c p = false -> IfM c a b p = b p.
Proof. unfold IfM. intros ->. reflexivity. Qed.

Lemma Make_eq p : Make p = Ok (made p) (after_Make p).
Proof. reflexivity. Qed.

Lemma AcceptIt_eq p : AcceptIt p = Ok (tkn_ p) (after_AcceptIt p).
Proof.
  unfold AcceptIt, after_AcceptIt. destruct (Next (scanner_ p)). reflexivity.
Qed.

Lemma Accept_true type p :
  Is type p = true -> Accept type p = Ok (tkn_ p) (after_AcceptIt p).
Proof.
  intros E. unfold Accept. rewrite IfM_false by (unfold negb_; rewrite E; reflexivity).
  apply AcceptIt_eq.
Qed.

Lemma Accept_false type p :
  Is type p = false ->
  Accept type p = Throw ("syntax error (" ++ ToString (pos_ (scanner_ p))
                         ++ ") : unexpected token '" ++ Spell (tkn_ p) ++ "'").
Proof.
  intros E. unfold Accept. rewrite IfM_true by (unfold negb_; rewrite E; reflexivity).
  reflexivity.
Qed.

Lemma Accept_Ok_inv type p t p' :
  Accept type p = Ok t p' ->
  Is type p = true /\ t = tkn_ p /\ p' = after_AcceptIt p.
Proof.
  destruct (Is type p) eqn:E.
  - rewrite Accept_true by exact E. intros [= <- <-]. auto.
  - rewrite Accept_false by exact E. discriminate.
Qed.

Lemma Is_after_Make type p : Is type (after_Make p) = Is type p.
Proof. reflexivity. Qed.

Lemma type_form_iff (E : Expr) : is_type_form E = true <-> type_form E.
Proof.
  unfold type_form. split.
  - destruct E; simpl; try discriminate.
    + intros _. left. eauto.
    + destruct assignExpr; [discriminate|]. intros _. right. eauto.
  - intros [(h & t & ->)|(h & v & o & ->)]; reflexivity.
Qed.

(** ** Invariants of the tree: where the parser leaves a back-pointer null *)

(** C1 (the code departs from the claim): the [VarDecl] of a function
    parameter, and the [VarDecl] of a variable declared with a struct
    type in statement position, are children of a [VarDeclStmnt] and
    keep a null [declStmntRef]; the tree of [void f(in float x);] fails
    the check (P2). *)
Theorem declStmntRef_null_under_VarDeclStmnt :
  (exists prog p' s v,
      ParseProgram (HLSL 3) (parser_on src_prototype) = Ok prog p'
      /\ In (NodeVarDeclStmnt s) (nodes_Program prog)
      /\ In v (VarDeclStmnt_varDecls s)
      /\ declStmntRef v = None
      /\ forallb declStmntRef_ok (nodes_Program prog) = false)
  /\ (exists s p' v,
      ParseStmnt (HLSL 5) (parser_on src_struct_variable)
        = Ok (StmntVarDecl s) p'
      /\ In v (VarDeclStmnt_varDecls s)
      /\ declStmntRef v = None).
Proof.
  split.
  - do 4 eexists. split; [vm_compute; reflexivity|].
    split; [simpl; right; right; right; left; reflexivity|].
    split; [simpl; left; reflexivity|].
    split; reflexivity.
  - do 3 eexists. split; [vm_compute; reflexivity|].
    split; [simpl; left; reflexivity|reflexivity].
Qed.

(** C2 (the code departs from the claim): a [VarType] built for a
    struct-typed variable declaration, in statement position or as a
    member of a buffer, owns its [structType] and keeps a null
    [symbolRef]; both trees fail the check (P3). *)
Theorem symbolRef_null_with_structType :
  (exists s p' st,
      ParseStmnt (HLSL 5) (parser_on src_struct_variable)
        = Ok (StmntVarDecl s) p'
      /\ VarType_structType (VarDeclStmnt_varType s) = Some st
      /\ VarType_symbolRef (VarDeclStmnt_varType s) = None
      /\ forallb symbolRef_ok (nodes_VarDeclStmnt s) = false)
  /\ (exists prog p' t st,
      ParseProgram (HLSL 6) (parser_on src_cbuffer_struct) = Ok prog p'
      /\ In (NodeVarType t) (nodes_Program prog)
      /\ VarType_structType t = Some st
      /\ VarType_symbolRef t = None
      /\ forallb symbolRef_ok (nodes_Program prog) = false).
Proof.
  split.
  - do 3 eexists. split; [vm_compute; reflexivity|].
    repeat split.
  - do 4 eexists. split; [vm_compute; reflexivity|].
    split; [simpl; right; right; right; left; reflexivity|].
    repeat split.
Qed.

(** C3 (the code departs from the claim): [ParseStructure] demands an
    identifier after [struct]; on [struct { float a; } v;] the statement
    parser throws at the opening brace, whatever the recursion budget. *)
Theorem anonymous_struct_rejected (self : Recursion) :
  ParseStmnt self (parser_on src_anonymous_struct)
  = Throw "syntax error (1:8) : unexpected token '{'".
Proof. reflexivity. Qed.

(** ** The printer *)

(** C9 (the code departs from the claim): for
    [float f(float x) { return (float)x; }] the tree has twelve nodes
    and the printer emits six lines; the return type, the parameter and
    the operand of the cast are never visited. *)
Theorem printer_skips_nodes :
  exists prog p',
    ParseProgram (HLSL 6) (parser_on src_cast_function) = Ok prog p'
    /\ length (nodes_Program prog) = 12
    /\ lines (DumpAST prog []) =
       [ (0, "Program (1:1)");
         (1, "FunctionDecl (1:1) " ++ quote ++ "f" ++ quote);
         (2, "CodeBlock (1:18)");
         (3, "ReturnStmnt (1:20)");
         (4, "CastExpr (1:34)");
         (5, "TypeNameExpr (1:33) " ++ quote ++ "float" ++ quote) ].
Proof.
  do 2 eexists. split; [vm_compute; reflexivity|].
  split; vm_compute; reflexivity.
Qed.

(** ** Cast or bracket *)

Lemma ParseBracketOrCastExpr_after (self : Recursion) p l p1 E p2 r p3 :
  Accept Tokens.LBracket p = Ok l p1 ->
  call_ParseExpr self true None p1 = Ok E p2 ->
  Accept Tokens.RBracket p2 = Ok r p3 ->
  ParseBracketOrCastExpr self p =
    if IsPrimaryExpr p3 && is_type_form E
    then match call_ParsePrimaryExpr self (after_Make p3) with
         | Ok e p4 => Ok (CastExpr (made p3) E e) p4
         | Throw w => Throw w
         | OutOfFuel => OutOfFuel
         end
    else Ok (BracketExpr (made p3) E) (after_Make p3).
Proof.
  intros H1 H2 H3. unfold ParseBracketOrCastExpr.
  rewrite (bind_Ok _ _ _ H1), (bind_Ok _ _ _ H2), (bind_Ok _ _ _ H3).
  unfold IfM. destruct (IsPrimaryExpr p3 && is_type_form E).
  - unfold bind at 1. rewrite Make_eq. unfold bind.
    destruct (call_ParsePrimaryExpr self (after_Make p3)); reflexivity.
  - reflexivity.
Qed.

(** The rule of [ParseBracketOrCastExpr]: after [( E )] the parser builds a [CastExpr] with [typeExpr = E]
    exactly when [IsPrimaryExpr()] holds at the current token and [E]
    is a type form; otherwise it returns a [BracketExpr] around [E]. *)
Theorem cast_iff_primary_follows_type_form
  (n : nat) (p p1 p2 p3 : HLSLParser) (l r : Token) (E : Expr) :
  Accept Tokens.LBracket p = Ok l p1 ->
  ParseExpr (HLSL n) true None p1 = Ok E p2 ->
  Accept Tokens.RBracket p2 = Ok r p3 ->
  let cast := IsPrimaryExpr p3 = true /\ type_form E in
  (* whatever is returned is the cast or the bracket the rule picks *)
  (forall res p',
      ParseBracketOrCastExpr (HLSL (S n)) p = Ok res p' ->
      (cast /\ exists h e, res = CastExpr h E e)
      \/ (~ cast /\ exists h, res = BracketExpr h E))
  (* the cast is returned as soon as its operand parses *)
  /\ (cast ->
      forall e p4,
        ParsePrimaryExpr (HLSL n) (after_Make p3) = Ok e p4 ->
        ParseBracketOrCastExpr (HLSL (S n)) p
        = Ok (CastExpr (made p3) E e) p4)
  (* the bracket is always returned *)
  /\ (~ cast ->
      ParseBracketOrCastExpr (HLSL (S n)) p
      = Ok (BracketExpr (made p3) E) (after_Make p3)).
Proof.
  intros H1 H2 H3 cast.
  pose proof (ParseBracketOrCastExpr_after (HLSL (S n)) p H1 H2 H3) as Eq.
  change (call_ParsePrimaryExpr (HLSL (S n)))
    with (ParsePrimaryExpr (HLSL n)) in Eq.
  assert (D : IsPrimaryExpr p3 && is_type_form E = true <-> cast).
  { unfold cast. rewrite andb_true_iff, type_form_iff. reflexivity. }
  destruct (IsPrimaryExpr p3 && is_type_form E) eqn:C.
  - assert (Hc : cast) by (apply D; reflexivity).
    split; [|split].
    + intros res p' R. left. split; [exact Hc|].
      rewrite Eq in R.
      destruct (ParsePrimaryExpr (HLSL n) (after_Make p3)) as [e p4| |];
        try discriminate.
      injection R as <- <-. eauto.
    + intros _ e p4 P. rewrite Eq, P. reflexivity.
    + intros N. contradiction.
  - assert (Hn : ~ cast) by (intros Hc; apply D in Hc; discriminate).
    split; [|split].
    + intros res p' R. right. split; [exact Hn|].
      rewrite Eq in R. injection R as <- <-. eauto.
    + intros Hc. contradiction.
    + intros _. exact Eq.
Qed.

(** In [(float) float3(1)] a primary expression, the constructor call,
    starts right after [(float)], and [float] is a type name, yet what
    is returned is a [BracketExpr] and no cast: [IsPrimaryExpr()] does
    not hold at a data-type keyword. *)
Lemma cast_rule_fails_before_data_type :
  exists l p1 E p2 r p3 res p',
    Accept Tokens.LBracket (parser_on src_cast_of_constructor) = Ok l p1
    /\ ParseExpr (HLSL 2) true None p1 = Ok E p2
    /\ Accept Tokens.RBracket p2 = Ok r p3
    /\ ParseBracketOrCastExpr (HLSL 3) (parser_on src_cast_of_constructor)
       = Ok res p'
    /\ primary_follows p3
    /\ type_form E
    /\ (exists h, res = BracketExpr h E)
    /\ ~ (exists h e, res = CastExpr h E e).
Proof.
  do 8 eexists.
  split; [vm_compute; reflexivity|].
  split; [vm_compute; reflexivity|].
  split; [vm_compute; reflexivity|].
  split; [vm_compute; reflexivity|].
  split; [exists 3; do 2 eexists; vm_compute; reflexivity|].
  split; [left; do 2 eexists; reflexivity|].
  split; [eexists; reflexivity|].
  intros (h & e & Eq). discriminate Eq.
Qed.

(** [IsPrimaryExpr()] at the two tokens it leaves out. *)
Lemma IsPrimaryExpr_at_data_type p :
  IsDataType p = true \/ Is Tokens.LCurly p = true -> IsPrimaryExpr p = false.
Proof.
  unfold IsPrimaryExpr, IsLiteral, IsDataType, IsSpell, Is.
  destruct (HLSLParser_Type p); simpl; intros [E|E];
    try reflexivity; discriminate E.
Qed.

(** C5 (the code departs from the claim): behind [( E )] a data-type
    keyword or an opening brace never makes a cast, whatever [E] is,
    although a primary expression starts there: [IsPrimaryExpr()] lacks
    the two cases of [ParsePrimaryExpr].  The cast [(float) float3(1);]
    is a syntax error at [float3], while [(float) x;] is parsed as a
    cast. *)
Theorem cast_is_missed_before_data_type :
  (forall n p p1 p2 p3 l r E,
      Accept Tokens.LBracket p = Ok l p1 ->
      ParseExpr (HLSL n) true None p1 = Ok E p2 ->
      Accept Tokens.RBracket p2 = Ok r p3 ->
      IsDataType p3 = true \/ Is Tokens.LCurly p3 = true ->
      ParseBracketOrCastExpr (HLSL (S n)) p
      = Ok (BracketExpr (made p3) E) (after_Make p3))
  /\ (exists l p1 E p2 r p3,
        Accept Tokens.LBracket (parser_on src_cast_of_constructor) = Ok l p1
        /\ ParseExpr (HLSL 2) true None p1 = Ok E p2
        /\ Accept Tokens.RBracket p2 = Ok r p3
        /\ type_form E
        /\ IsDataType p3 = true
        /\ primary_follows p3)
  /\ ParseStmnt (HLSL 4) (parser_on src_cast_of_constructor)
     = Throw "syntax error (1:8) : unexpected token 'float3'"
  /\ (exists h hc t e q,
        ParseStmnt (HLSL 4) (parser_on src_cast)
        = Ok (ExprStmnt h (CastExpr hc t e)) q).
Proof.
  split; [|split; [|split]].
  - intros n p p1 p2 p3 l r E H1 H2 H3 D.
    rewrite (ParseBracketOrCastExpr_after (HLSL (S n)) p H1 H2 H3).
    rewrite (@IsPrimaryExpr_at_data_type p3 D). reflexivity.
  - do 6 eexists.
    split; [vm_compute; reflexivity|].
    split; [vm_compute; reflexivity|].
    split; [vm_compute; reflexivity|].
    split; [left; do 2 eexists; reflexivity|].
    split; [reflexivity|].
    exists 3. do 2 eexists. vm_compute. reflexivity.
  - vm_compute. reflexivity.
  - do 5 eexists. vm_compute. reflexivity.
Qed.

(** ** Identifier-led statements *)

Ltac bind_inv H :=
  let a := fresh "a" in
  let q := fresh "q" in
  let Ha := fresh "Ha" in
  apply bind_Ok_inv in H; destruct H as (a & q & Ha & H).

Lemma ParseStmnt_Ident (self : Recursion) p :
  Is Tokens.Ident p = true ->
  ParseStmnt self p = ParseVarDeclOrAssignOrFunctionCallStmnt self p.
Proof.
  intros I. apply Is_true_iff in I.
  unfold ParseStmnt.
  rewrite (@bind_Ok _ _ _ _ p [] p).
  - rewrite I. reflexivity.
  - apply IfM_false. apply Is_false_iff. rewrite I. discriminate.
Qed.

Lemma function_call_stmnt_after_VarIdent (self : Recursion) p varIdent p1 :
  ParseVarIdent self p = Ok varIdent p1 ->
  Is Tokens.LBracket p1 = true ->
  ParseVarDeclOrAssignOrFunctionCallStmnt self p =
    match ParseArgumentList self (after_Make (after_Make p1)) with
    | Ok arguments p2 =>
        match Semi p2 with
        | Ok _ p3 =>
            Ok (FunctionCallStmnt (made p1)
                  (MkFunctionCall (made (after_Make p1)) varIdent arguments))
               p3
        | Throw w => Throw w
        | OutOfFuel => OutOfFuel
        end
    | Throw w => Throw w
    | OutOfFuel => OutOfFuel
    end.
Proof.
  intros V B. unfold ParseVarDeclOrAssignOrFunctionCallStmnt.
  rewrite (bind_Ok _ _ _ V), (IfM_true _ _ _ _ B).
  unfold ParseFunctionCall, bind. rewrite !Make_eq. unfold ret.
  destruct (ParseArgumentList self (after_Make (after_Make p1))); reflexivity.
Qed.

(** C4: a statement that begins with an identifier whose [VarIdent] is
    followed by [(] is returned as a [FunctionCallStmnt] whose
    [call.name] is that [VarIdent], and as nothing else: it is returned
    as soon as the argument list and the semicolon parse, and no
    [VarDeclStmnt] is ever returned for it. *)
Theorem ident_then_bracket_is_function_call
  (n : nat) (p p1 : HLSLParser) (varIdent : VarIdent) :
  Is Tokens.Ident p = true ->
  ParseVarIdent (HLSL n) p = Ok varIdent p1 ->
  Is Tokens.LBracket p1 = true ->
  (forall stmnt p',
      ParseStmnt (HLSL n) p = Ok stmnt p' ->
      (exists h call,
          stmnt = FunctionCallStmnt h call /\ FunctionCall_name call = varIdent)
      /\ ~ is_VarDeclStmnt stmnt)
  /\ (forall arguments p2 semi p3,
      ParseArgumentList (HLSL n) (after_Make (after_Make p1))
        = Ok arguments p2 ->
      Semi p2 = Ok semi p3 ->
      ParseStmnt (HLSL n) p
      = Ok (FunctionCallStmnt (made p1)
              (MkFunctionCall (made (after_Make p1)) varIdent arguments)) p3).
Proof.
  intros I V B.
  rewrite (ParseStmnt_Ident _ _ I).
  rewrite (function_call_stmnt_after_VarIdent _ _ V B).
  split.
  - intros stmnt p' R.
    destruct (ParseArgumentList (HLSL n) (after_Make (after_Make p1)))
      as [arguments p2| |]; try discriminate.
    destruct (Semi p2) as [semi p3| |]; try discriminate.
    injection R as <- <-. split.
    + eexists _, _. split; reflexivity.
    + intros [v Ev]. discriminate.
  - intros arguments p2 semi p3 A S. rewrite A, S. reflexivity.
Qed.

(** ** Monotonicity in the recursion budget *)

Lemma below_refl {A} (r : Result A) : below r r.
Proof. right. reflexivity. Qed.

Lemma refines_refl {A} (f : M A) : refines f f.
Proof. intros p. apply below_refl. Qed.

Lemma refines_bind {A B} (f g : M A) (k k' : A -> M B) :
  refines f g -> (forall a, refines (k a) (k' a)) ->
  refines (bind f k) (bind g k').
Proof.
  intros F K p. unfold bind. destruct (F p) as [E|E]; rewrite E.
  - left. reflexivity.
  - destruct (g p) as [a q| |]; [apply K|apply below_refl|apply below_refl].
Qed.

Lemma refines_IfM {A} (c : HLSLParser -> bool) (a a' b b' : M A) :
  refines a a' -> refines b b' -> refines (IfM c a b) (IfM c a' b').
Proof.
  intros Ha Hb p. unfold IfM. destruct (c p); [apply Ha|apply Hb].
Qed.

Lemma refines_exhausted {A} (g : M A) : refines (fun _ => OutOfFuel) g.
Proof. intros p. left. reflexivity. Qed.

Lemma refines_Ok {A} (f g : M A) p a p' :
  refines f g -> f p = Ok a p' -> g p = Ok a p'.
Proof. intros R E. destruct (R p) as [O|O]; congruence. Qed.

Lemma refines_Throw {A} (f g : M A) p w :
  refines f g -> f p = Throw w -> g p = Throw w.
Proof. intros R E. destruct (R p) as [O|O]; congruence. Qed.

Create HintDb mono.

(** One step of a monotonicity proof: peel the production. *)
Ltac mono_step H :=
  first
    [ match goal with
      | |- refines ?f ?g => constr_eq f g; apply refines_refl
      | |- below ?x ?y => constr_eq x y; apply below_refl
      end
    | apply refines_bind; [|intro]
    | apply refines_IfM
    | apply (le_ParseExpr H)
    | apply (le_ParsePrimaryExpr H)
    | apply (le_ParseVarIdent H)
    | apply (le_ParseStmnt H)
    | apply (le_ParseVarDeclStmnt H)
    | apply (le_loop_ParseProgram H)
    | apply (le_loop_ParseParameter H)
    | apply (le_loop_ParseSwitchCase H)
    | apply (le_loop_ParseAttribute H)
    | apply (le_loop_ParseVarDeclStmnt H)
    | apply (le_loop_ParseVarDeclList H)
    | apply (le_loop_ParseVarDeclStmntList H)
    | apply (le_loop_ParseParameterList H)
    | apply (le_loop_ParseStmntList H)
    | apply (le_loop_ParseExprList H)
    | apply (le_loop_ParseArrayDimensionList H)
    | apply (le_loop_ParseVarSemanticList H)
    | apply (le_loop_ParseAttributeList H)
    | apply (le_loop_ParseSwitchCaseList H)
    | apply (le_loop_ParseBufferDeclIdentList H)
    | solve [auto with mono]
    | match goal with
      | |- refines (match ?x with _ => _ end) _ => destruct x
      | |- refines (fun p => match HLSLParser_Type p with _ => _ end) _ =>
          let p := fresh "p" in
          intro p; destruct (HLSLParser_Type p)
      | |- below (?f ?p) (?g ?p) =>
          revert p; change (refines f g)
      end ].

Ltac mono H := repeat mono_step H.

Lemma ParseVarSemanticList_loop_mono (s s' : Recursion) acc :
  Recursion_le s s' -> refines (ParseVarSemanticList_loop s acc) (ParseVarSemanticList_loop s' acc).
Proof. intros H. unfold ParseVarSemanticList_loop. mono H. Qed.
#[local] Hint Resolve ParseVarSemanticList_loop_mono : mono.

Lemma ParseVarSemanticList_mono (s s' : Recursion) :
  Recursion_le s s' -> refines (ParseVarSemanticList s) (ParseVarSemanticList s').
Proof. intros H. unfold ParseVarSemanticList. mono H. Qed.
#[local] Hint Resolve ParseVarSemanticList_mono : mono.

Lemma ParseBufferDeclIdentList_loop_mono (s s' : Recursion) acc :
  Recursion_le s s' -> refines (ParseBufferDeclIdentList_loop s acc) (ParseBufferDeclIdentList_loop s' acc).
Proof. intros H. unfold ParseBufferDeclIdentList_loop. mono H. Qed.
#[local] Hint Resolve ParseBufferDeclIdentList_loop_mono : mono.

Lemma ParseBufferDeclIdentList_mono (s s' : Recursion) :
  Recursion_le s s' -> refines (ParseBufferDeclIdentList s) (ParseBufferDeclIdentList s').
Proof. intros H. unfold ParseBufferDeclIdentList. mono H. Qed.
#[local] Hint Resolve ParseBufferDeclIdentList_mono : mono.

Lemma ParseArrayDimension_mono (s s' : Recursion) :
  Recursion_le s s' -> refines (ParseArrayDimension s) (ParseArrayDimension s').
Proof. intros H. unfold ParseArrayDimension. mono H. Qed.
#[local] Hint Resolve ParseArrayDimension_mono : mono.

Lemma ParseArrayDimensionList_loop_mono (s s' : Recursion) acc :
  Recursion_le s s' -> refines (ParseArrayDimensionList_loop s acc) (ParseArrayDimensionList_loop s' acc).
Proof. intros H. unfold ParseArrayDimensionList_loop. mono H. Qed.
#[local] Hint Resolve ParseArrayDimensionList_loop_mono : mono.

Lemma ParseArrayDimensionList_mono (s s' : Recursion) :
  Recursion_le s s' -> refines (ParseArrayDimensionList s) (ParseArrayDimensionList s').
Proof. intros H. unfold ParseArrayDimensionList. mono H. Qed.
#[local] Hint Resolve ParseArrayDimensionList_mono : mono.

Lemma ParseVarIdent_mono (s s' : Recursion) :
  Recursion_le s s' -> refines (ParseVarIdent s) (ParseVarIdent s').
Proof. intros H. unfold ParseVarIdent. mono H. Qed.
#[local] Hint Resolve ParseVarIdent_mono : mono.

Lemma ParseExprList_loop_mono (s s' : Recursion) term allowLastComma acc :
  Recursion_le s s' -> refines (ParseExprList_loop s term allowLastComma acc) (ParseExprList_loop s' term allowLastComma acc).
Proof. intros H. unfold ParseExprList_loop. mono H. Qed.
#[local] Hint Resolve ParseExprList_loop_mono : mono.

Lemma ParseExprList_mono (s s' : Recursion) term allowLastComma :
  Recursion_le s s' -> refines (ParseExprList s term allowLastComma) (ParseExprList s' term allowLastComma).
Proof. intros H. unfold ParseExprList. mono H. Qed.
#[local] Hint Resolve ParseExprList_mono : mono.

Lemma ParseArgumentList_mono (s s' : Recursion) :
  Recursion_le s s' -> refines (ParseArgumentList s) (ParseArgumentList s').
Proof. intros H. unfold ParseArgumentList. mono H. Qed.
#[local] Hint Resolve ParseArgumentList_mono : mono.

Lemma ParseInitializerList_mono (s s' : Recursion) :
  Recursion_le s s' -> refines (ParseInitializerList s) (ParseInitializerList s').
Proof. intros H. unfold ParseInitializerList. mono H. Qed.
#[local] Hint Resolve ParseInitializerList_mono : mono.

Lemma ParseFunctionCall_mono (s s' : Recursion) varIdent :
  Recursion_le s s' -> refines (ParseFunctionCall s varIdent) (ParseFunctionCall s' varIdent).
Proof. intros H. unfold ParseFunctionCall. mono H. Qed.
#[local] Hint Resolve ParseFunctionCall_mono : mono.

Lemma ParseFunctionCallExpr_mono (s s' : Recursion) varIdent :
  Recursion_le s s' -> refines (ParseFunctionCallExpr s varIdent) (ParseFunctionCallExpr s' varIdent).
Proof. intros H. unfold ParseFunctionCallExpr. mono H. Qed.
#[local] Hint Resolve ParseFunctionCallExpr_mono : mono.

Lemma ParseVarAccessExpr_mono (s s' : Recursion) varIdent :
  Recursion_le s s' -> refines (ParseVarAccessExpr s varIdent) (ParseVarAccessExpr s' varIdent).
Proof. intros H. unfold ParseVarAccessExpr. mono H. Qed.
#[local] Hint Resolve ParseVarAccessExpr_mono : mono.

Lemma ParseVarAccessOrFunctionCallExpr_mono (s s' : Recursion) :
  Recursion_le s s' -> refines (ParseVarAccessOrFunctionCallExpr s) (ParseVarAccessOrFunctionCallExpr s').
Proof. intros H. unfold ParseVarAccessOrFunctionCallExpr. mono H. Qed.
#[local] Hint Resolve ParseVarAccessOrFunctionCallExpr_mono : mono.

Lemma ParseInitializerExpr_mono (s s' : Recursion) :
  Recursion_le s s' -> refines (ParseInitializerExpr s) (ParseInitializerExpr s').
Proof. intros H. unfold ParseInitializerExpr. mono H. Qed.
#[local] Hint Resolve ParseInitializerExpr_mono : mono.

Lemma ParseTypeNameOrFunctionCallExpr_mono (s s' : Recursion) :
  Recursion_le s s' -> refines (ParseTypeNameOrFunctionCallExpr s) (ParseTypeNameOrFunctionCallExpr s').
Proof. intros H. unfold ParseTypeNameOrFunctionCallExpr. mono H. Qed.
#[local] Hint Resolve ParseTypeNameOrFunctionCallExpr_mono : mono.

Lemma ParseUnaryExpr_mono (s s' : Recursion) :
  Recursion_le s s' -> refines (ParseUnaryExpr s) (ParseUnaryExpr s').
Proof. intros H. unfold ParseUnaryExpr. mono H. Qed.
#[local] Hint Resolve ParseUnaryExpr_mono : mono.

Lemma ParseBracketOrCastExpr_mono (s s' : Recursion) :
  Recursion_le s s' -> refines (ParseBracketOrCastExpr s) (ParseBracketOrCastExpr s').
Proof. intros H. unfold ParseBracketOrCastExpr. mono H. Qed.
#[local] Hint Resolve ParseBracketOrCastExpr_mono : mono.

Lemma ParsePrimaryExpr_mono (s s' : Recursion) :
  Recursion_le s s' -> refines (ParsePrimaryExpr s) (ParsePrimaryExpr s').
Proof. intros H. unfold ParsePrimaryExpr. mono H. Qed.
#[local] Hint Resolve ParsePrimaryExpr_mono : mono.

Lemma ParseExpr_mono (s s' : Recursion) allowComma initExpr :
  Recursion_le s s' -> refines (ParseExpr s allowComma initExpr) (ParseExpr s' allowComma initExpr).
Proof. intros H. unfold ParseExpr. mono H. Qed.
#[local] Hint Resolve ParseExpr_mono : mono.

Lemma ParseAttribute_loop_mono (s s' : Recursion) acc :
  Recursion_le s s' -> refines (ParseAttribute_loop s acc) (ParseAttribute_loop s' acc).
Proof. intros H. unfold ParseAttribute_loop. mono H. Qed.
#[local] Hint Resolve ParseAttribute_loop_mono : mono.

Lemma ParseAttribute_mono (s s' : Recursion) :
  Recursion_le s s' -> refines (ParseAttribute s) (ParseAttribute s').
Proof. intros H. unfold ParseAttribute. mono H. Qed.
#[local] Hint Resolve ParseAttribute_mono : mono.

Lemma ParseAttributeList_loop_mono (s s' : Recursion) acc :
  Recursion_le s s' -> refines (ParseAttributeList_loop s acc) (ParseAttributeList_loop s' acc).
Proof. intros H. unfold ParseAttributeList_loop. mono H. Qed.
#[local] Hint Resolve ParseAttributeList_loop_mono : mono.

Lemma ParseAttributeList_mono (s s' : Recursion) :
  Recursion_le s s' -> refines (ParseAttributeList s) (ParseAttributeList s').
Proof. intros H. unfold ParseAttributeList. mono H. Qed.
#[local] Hint Resolve ParseAttributeList_mono : mono.

Lemma ParseInitializer_mono (s s' : Recursion) :
  Recursion_le s s' -> refines (ParseInitializer s) (ParseInitializer s').
Proof. intros H. unfold ParseInitializer. mono H. Qed.
#[local] Hint Resolve ParseInitializer_mono : mono.

Lemma ParseVarDecl_mono (s s' : Recursion) :
  Recursion_le s s' -> refines (ParseVarDecl s) (ParseVarDecl s').
Proof. intros H. unfold ParseVarDecl. mono H. Qed.
#[local] Hint Resolve ParseVarDecl_mono : mono.

Lemma ParseVarDeclList_loop_mono (s s' : Recursion) acc :
  Recursion_le s s' -> refines (ParseVarDeclList_loop s acc) (ParseVarDeclList_loop s' acc).
Proof. intros H. unfold ParseVarDeclList_loop. mono H. Qed.
#[local] Hint Resolve ParseVarDeclList_loop_mono : mono.

Lemma ParseVarDeclList_mono (s s' : Recursion) :
  Recursion_le s s' -> refines (ParseVarDeclList s) (ParseVarDeclList s').
Proof. intros H. unfold ParseVarDeclList. mono H. Qed.
#[local] Hint Resolve ParseVarDeclList_mono : mono.

Lemma ParseVarDeclStmntList_loop_mono (s s' : Recursion) acc :
  Recursion_le s s' -> refines (ParseVarDeclStmntList_loop s acc) (ParseVarDeclStmntList_loop s' acc).
Proof. intros H. unfold ParseVarDeclStmntList_loop. mono H. Qed.
#[local] Hint Resolve ParseVarDeclStmntList_loop_mono : mono.

Lemma ParseVarDeclStmntList_mono (s s' : Recursion) :
  Recursion_le s s' -> refines (ParseVarDeclStmntList s) (ParseVarDeclStmntList s').
Proof. intros H. unfold ParseVarDeclStmntList. mono H. Qed.
#[local] Hint Resolve ParseVarDeclStmntList_mono : mono.

Lemma ParseStructure_mono (s s' : Recursion) :
  Recursion_le s s' -> refines (ParseStructure s) (ParseStructure s').
Proof. intros H. unfold ParseStructure. mono H. Qed.
#[local] Hint Resolve ParseStructure_mono : mono.

Lemma ParseVarType_mono (s s' : Recursion) parseVoidType :
  Recursion_le s s' -> refines (ParseVarType s parseVoidType) (ParseVarType s' parseVoidType).
Proof. intros H. unfold ParseVarType. mono H. Qed.
#[local] Hint Resolve ParseVarType_mono : mono.

Lemma ParseVarDeclStmnt_loop_mono (s s' : Recursion) acc :
  Recursion_le s s' -> refines (ParseVarDeclStmnt_loop s acc) (ParseVarDeclStmnt_loop s' acc).
Proof. intros H. unfold ParseVarDeclStmnt_loop. mono H. Qed.
#[local] Hint Resolve ParseVarDeclStmnt_loop_mono : mono.

Lemma ParseVarDeclStmnt_mono (s s' : Recursion) :
  Recursion_le s s' -> refines (ParseVarDeclStmnt s) (ParseVarDeclStmnt s').
Proof. intros H. unfold ParseVarDeclStmnt. mono H. Qed.
#[local] Hint Resolve ParseVarDeclStmnt_mono : mono.

Lemma ParseParameter_loop_mono (s s' : Recursion) acc :
  Recursion_le s s' -> refines (ParseParameter_loop s acc) (ParseParameter_loop s' acc).
Proof. intros H. unfold ParseParameter_loop. mono H. Qed.
#[local] Hint Resolve ParseParameter_loop_mono : mono.

Lemma ParseParameter_mono (s s' : Recursion) :
  Recursion_le s s' -> refines (ParseParameter s) (ParseParameter s').
Proof. intros H. unfold ParseParameter. mono H. Qed.
#[local] Hint Resolve ParseParameter_mono : mono.

Lemma ParseParameterList_loop_mono (s s' : Recursion) acc :
  Recursion_le s s' -> refines (ParseParameterList_loop s acc) (ParseParameterList_loop s' acc).
Proof. intros H. unfold ParseParameterList_loop. mono H. Qed.
#[local] Hint Resolve ParseParameterList_loop_mono : mono.

Lemma ParseParameterList_mono (s s' : Recursion) :
  Recursion_le s s' -> refines (ParseParameterList s) (ParseParameterList s').
Proof. intros H. unfold ParseParameterList. mono H. Qed.
#[local] Hint Resolve ParseParameterList_mono : mono.

Lemma ParseStmntList_loop_mono (s s' : Recursion) acc :
  Recursion_le s s' -> refines (ParseStmntList_loop s acc) (ParseStmntList_loop s' acc).
Proof. intros H. unfold ParseStmntList_loop. mono H. Qed.
#[local] Hint Resolve ParseStmntList_loop_mono : mono.

Lemma ParseStmntList_mono (s s' : Recursion) :
  Recursion_le s s' -> refines (ParseStmntList s) (ParseStmntList s').
Proof. intros H. unfold ParseStmntList. mono H. Qed.
#[local] Hint Resolve ParseStmntList_mono : mono.

Lemma ParseCodeBlock_mono (s s' : Recursion) :
  Recursion_le s s' -> refines (ParseCodeBlock s) (ParseCodeBlock s').
Proof. intros H. unfold ParseCodeBlock. mono H. Qed.
#[local] Hint Resolve ParseCodeBlock_mono : mono.

Lemma ParseSwitchCase_loop_mono (s s' : Recursion) acc :
  Recursion_le s s' -> refines (ParseSwitchCase_loop s acc) (ParseSwitchCase_loop s' acc).
Proof. intros H. unfold ParseSwitchCase_loop. mono H. Qed.
#[local] Hint Resolve ParseSwitchCase_loop_mono : mono.

Lemma ParseSwitchCase_mono (s s' : Recursion) :
  Recursion_le s s' -> refines (ParseSwitchCase s) (ParseSwitchCase s').
Proof. intros H. unfold ParseSwitchCase. mono H. Qed.
#[local] Hint Resolve ParseSwitchCase_mono : mono.

Lemma ParseSwitchCaseList_loop_mono (s s' : Recursion) acc :
  Recursion_le s s' -> refines (ParseSwitchCaseList_loop s acc) (ParseSwitchCaseList_loop s' acc).
Proof. intros H. unfold ParseSwitchCaseList_loop. mono H. Qed.
#[local] Hint Resolve ParseSwitchCaseList_loop_mono : mono.

Lemma ParseSwitchCaseList_mono (s s' : Recursion) :
  Recursion_le s s' -> refines (ParseSwitchCaseList s) (ParseSwitchCaseList s').
Proof. intros H. unfold ParseSwitchCaseList. mono H. Qed.
#[local] Hint Resolve ParseSwitchCaseList_mono : mono.

Lemma ParseCodeBlockStmnt_mono (s s' : Recursion) :
  Recursion_le s s' -> refines (ParseCodeBlockStmnt s) (ParseCodeBlockStmnt s').
Proof. intros H. unfold ParseCodeBlockStmnt. mono H. Qed.
#[local] Hint Resolve ParseCodeBlockStmnt_mono : mono.

Lemma ParseForLoopStmnt_mono (s s' : Recursion) attribs :
  Recursion_le s s' -> refines (ParseForLoopStmnt s attribs) (ParseForLoopStmnt s' attribs).
Proof. intros H. unfold ParseForLoopStmnt. mono H. Qed.
#[local] Hint Resolve ParseForLoopStmnt_mono : mono.

Lemma ParseWhileLoopStmnt_mono (s s' : Recursion) attribs :
  Recursion_le s s' -> refines (ParseWhileLoopStmnt s attribs) (ParseWhileLoopStmnt s' attribs).
Proof. intros H. unfold ParseWhileLoopStmnt. mono H. Qed.
#[local] Hint Resolve ParseWhileLoopStmnt_mono : mono.

Lemma ParseDoWhileLoopStmnt_mono (s s' : Recursion) attribs :
  Recursion_le s s' -> refines (ParseDoWhileLoopStmnt s attribs) (ParseDoWhileLoopStmnt s' attribs).
Proof. intros H. unfold ParseDoWhileLoopStmnt. mono H. Qed.
#[local] Hint Resolve ParseDoWhileLoopStmnt_mono : mono.

Lemma ParseElseStmnt_mono (s s' : Recursion) :
  Recursion_le s s' -> refines (ParseElseStmnt s) (ParseElseStmnt s').
Proof. intros H. unfold ParseElseStmnt. mono H. Qed.
#[local] Hint Resolve ParseElseStmnt_mono : mono.

Lemma ParseIfStmnt_mono (s s' : Recursion) attribs :
  Recursion_le s s' -> refines (ParseIfStmnt s attribs) (ParseIfStmnt s' attribs).
Proof. intros H. unfold ParseIfStmnt. mono H. Qed.
#[local] Hint Resolve ParseIfStmnt_mono : mono.

Lemma ParseSwitchStmnt_mono (s s' : Recursion) attribs :
  Recursion_le s s' -> refines (ParseSwitchStmnt s attribs) (ParseSwitchStmnt s' attribs).
Proof. intros H. unfold ParseSwitchStmnt. mono H. Qed.
#[local] Hint Resolve ParseSwitchStmnt_mono : mono.

Lemma ParseReturnStmnt_mono (s s' : Recursion) :
  Recursion_le s s' -> refines (ParseReturnStmnt s) (ParseReturnStmnt s').
Proof. intros H. unfold ParseReturnStmnt. mono H. Qed.
#[local] Hint Resolve ParseReturnStmnt_mono : mono.

Lemma ParseExprStmnt_mono (s s' : Recursion) varIdent :
  Recursion_le s s' -> refines (ParseExprStmnt s varIdent) (ParseExprStmnt s' varIdent).
Proof. intros H. unfold ParseExprStmnt. mono H. Qed.
#[local] Hint Resolve ParseExprStmnt_mono : mono.

Lemma ParseStructDeclOrVarDeclStmnt_mono (s s' : Recursion) :
  Recursion_le s s' -> refines (ParseStructDeclOrVarDeclStmnt s) (ParseStructDeclOrVarDeclStmnt s').
Proof. intros H. unfold ParseStructDeclOrVarDeclStmnt. mono H. Qed.
#[local] Hint Resolve ParseStructDeclOrVarDeclStmnt_mono : mono.

Lemma ParseVarDeclOrAssignOrFunctionCallStmnt_mono (s s' : Recursion) :
  Recursion_le s s' -> refines (ParseVarDeclOrAssignOrFunctionCallStmnt s) (ParseVarDeclOrAssignOrFunctionCallStmnt s').
Proof. intros H. unfold ParseVarDeclOrAssignOrFunctionCallStmnt. mono H. Qed.
#[local] Hint Resolve ParseVarDeclOrAssignOrFunctionCallStmnt_mono : mono.

Lemma ParseStmnt_mono (s s' : Recursion) :
  Recursion_le s s' -> refines (ParseStmnt s) (ParseStmnt s').
Proof. intros H. unfold ParseStmnt. mono H. Qed.
#[local] Hint Resolve ParseStmnt_mono : mono.

Lemma ParseFunctionDecl_mono (s s' : Recursion) :
  Recursion_le s s' -> refines (ParseFunctionDecl s) (ParseFunctionDecl s').
Proof. intros H. unfold ParseFunctionDecl. mono H. Qed.
#[local] Hint Resolve ParseFunctionDecl_mono : mono.

Lemma ParseUniformBufferDecl_mono (s s' : Recursion) :
  Recursion_le s s' -> refines (ParseUniformBufferDecl s) (ParseUniformBufferDecl s').
Proof. intros H. unfold ParseUniformBufferDecl. mono H. Qed.
#[local] Hint Resolve ParseUniformBufferDecl_mono : mono.

Lemma ParseTextureDecl_mono (s s' : Recursion) :
  Recursion_le s s' -> refines (ParseTextureDecl s) (ParseTextureDecl s').
Proof. intros H. unfold ParseTextureDecl. mono H. Qed.
#[local] Hint Resolve ParseTextureDecl_mono : mono.

Lemma ParseSamplerDecl_mono (s s' : Recursion) :
  Recursion_le s s' -> refines (ParseSamplerDecl s) (ParseSamplerDecl s').
Proof. intros H. unfold ParseSamplerDecl. mono H. Qed.
#[local] Hint Resolve ParseSamplerDecl_mono : mono.

Lemma ParseStructDecl_mono (s s' : Recursion) :
  Recursion_le s s' -> refines (ParseStructDecl s) (ParseStructDecl s').
Proof. intros H. unfold ParseStructDecl. mono H. Qed.
#[local] Hint Resolve ParseStructDecl_mono : mono.

Lemma ParseGlobalDecl_mono (s s' : Recursion) :
  Recursion_le s s' -> refines (ParseGlobalDecl s) (ParseGlobalDecl s').
Proof. intros H. unfold ParseGlobalDecl. mono H. Qed.
#[local] Hint Resolve ParseGlobalDecl_mono : mono.

Lemma ParseProgram_loop_mono (s s' : Recursion) acc :
  Recursion_le s s' -> refines (ParseProgram_loop s acc) (ParseProgram_loop s' acc).
Proof. intros H. unfold ParseProgram_loop. mono H. Qed.
#[local] Hint Resolve ParseProgram_loop_mono : mono.

Lemma ParseProgram_mono (s s' : Recursion) :
  Recursion_le s s' -> refines (ParseProgram s) (ParseProgram s').
Proof. intros H. unfold ParseProgram. mono H. Qed.
#[local] Hint Resolve ParseProgram_mono : mono.

Lemma HLSL_step (n : nat) : Recursion_le (HLSL n) (HLSL (S n)).
Proof.
  induction n as [|n IH].
  - constructor; intros; apply refines_exhausted.
  - constructor; intros; cbn [HLSL call_ParseExpr call_ParsePrimaryExpr
      call_ParseVarIdent call_ParseStmnt call_ParseVarDeclStmnt
      loop_ParseProgram loop_ParseParameter loop_ParseSwitchCase
      loop_ParseAttribute loop_ParseVarDeclStmnt loop_ParseVarDeclList
      loop_ParseVarDeclStmntList loop_ParseParameterList loop_ParseStmntList
      loop_ParseExprList loop_ParseArrayDimensionList
      loop_ParseVarSemanticList loop_ParseAttributeList
      loop_ParseSwitchCaseList loop_ParseBufferDeclIdentList];
      auto with mono.
Qed.

Lemma Recursion_le_refl (s : Recursion) : Recursion_le s s.
Proof. constructor; intros; apply refines_refl. Qed.

Lemma refines_trans {A} (f g h : M A) :
  refines f g -> refines g h -> refines f h.
Proof.
  intros F G p. destruct (F p) as [E|E]; [left; exact E|].
  rewrite E. apply G.
Qed.

Lemma Recursion_le_trans (a b c : Recursion) :
  Recursion_le a b -> Recursion_le b c -> Recursion_le a c.
Proof.
  intros [] []. constructor; intros; eapply refines_trans; eauto.
Qed.

Lemma HLSL_le (n m : nat) : n <= m -> Recursion_le (HLSL n) (HLSL m).
Proof.
  induction 1 as [|m L IH].
  - apply Recursion_le_refl.
  - eapply Recursion_le_trans; [exact IH|apply HLSL_step].
Qed.

(** What a production returns with some budget it returns with every
    larger one. *)
Lemma more_fuel {A} (f : Recursion -> M A) (n m : nat) p a p' :
  (forall s s', Recursion_le s s' -> refines (f s) (f s')) ->
  n <= m -> f (HLSL n) p = Ok a p' -> f (HLSL m) p = Ok a p'.
Proof.
  intros F L E. eapply refines_Ok; [|exact E]. apply F, HLSL_le, L.
Qed.

(** ** Binary operators *)

Lemma ParseExpr_binary (self : Recursion) allowComma p a p1 :
  ParsePrimaryExpr self p = Ok a p1 ->
  Is Tokens.BinaryOp p1 = true ->
  ParseExpr self allowComma None p =
    match call_ParseExpr self allowComma None (after_operator p1) with
    | Ok rhsExpr q => Ok (BinaryExpr (made p1) a (Spell (tkn_ p1)) rhsExpr) q
    | Throw w => Throw w
    | OutOfFuel => OutOfFuel
    end.
Proof.
  intros P B. unfold ParseExpr. rewrite (bind_Ok _ _ _ P).
  assert (U : Is Tokens.UnaryOp p1 = false).
  { apply Is_false_iff. apply Is_true_iff in B. rewrite B. discriminate. }
  rewrite (@bind_Ok _ _ _ _ p1 a p1) by (apply IfM_false; exact U).
  rewrite (IfM_true _ _ _ _ B).
  unfold bind. rewrite Make_eq, AcceptIt_eq. unfold after_operator.
  destruct (call_ParseExpr self allowComma None
              (after_AcceptIt (after_Make p1))); reflexivity.
Qed.

Lemma ParseExpr_primary (self : Recursion) allowComma p c p5 :
  ParsePrimaryExpr self p = Ok c p5 ->
  ends_expression allowComma p5 ->
  ParseExpr self allowComma None p = Ok c p5.
Proof.
  intros P (U & B & T & C). unfold ParseExpr. rewrite (bind_Ok _ _ _ P).
  rewrite (@bind_Ok _ _ _ _ p5 c p5) by (apply IfM_false; exact U).
  rewrite (IfM_false _ _ _ _ B), (IfM_false _ _ _ _ T).
  rewrite IfM_false by exact C. reflexivity.
Qed.

(** C7, as the code has it: when the primary production reads [a], then
    [b], then [c], stopping at the binary operator [op1], at the binary
    operator [op2] and at a token that ends the expression, [ParseExpr]
    returns [BinaryExpr{op1, a, BinaryExpr{op2, b, c}}], whatever the
    two operators are. *)
Theorem binary_operators_nest_to_the_right
  (n : nat) (allowComma : bool) (p p1 p3 p5 : HLSLParser) (a b c : Expr) :
  ParsePrimaryExpr (HLSL n) p = Ok a p1 ->
  Is Tokens.BinaryOp p1 = true ->
  ParsePrimaryExpr (HLSL n) (after_operator p1) = Ok b p3 ->
  Is Tokens.BinaryOp p3 = true ->
  ParsePrimaryExpr (HLSL n) (after_operator p3) = Ok c p5 ->
  ends_expression allowComma p5 ->
  ParseExpr (HLSL (2 + n)) allowComma None p
  = Ok (BinaryExpr (made p1) a (Spell (tkn_ p1))
          (BinaryExpr (made p3) b (Spell (tkn_ p3)) c)) p5.
Proof.
  intros A B1 B B2 C E.
  apply (more_fuel ParsePrimaryExpr (m := 2 + n)) in A;
    [|auto with mono|lia].
  apply (more_fuel ParsePrimaryExpr (m := 1 + n)) in B;
    [|auto with mono|lia].
  rewrite (ParseExpr_binary _ allowComma _ A B1).
  change (call_ParseExpr (HLSL (2 + n))) with (ParseExpr (HLSL (1 + n))).
  rewrite (ParseExpr_binary _ allowComma _ B B2).
  change (call_ParseExpr (HLSL (1 + n))) with (ParseExpr (HLSL n)).
  rewrite (ParseExpr_primary _ _ C E). reflexivity.
Qed.

(** One budget's result is every budget's result. *)
Lemma fuel_deterministic {A} (f : Recursion -> M A) (n m : nat) p a q b q' :
  (forall s s', Recursion_le s s' -> refines (f s) (f s')) ->
  f (HLSL n) p = Ok a q -> f (HLSL m) p = Ok b q' -> a = b /\ q = q'.
Proof.
  intros F Ea Eb.
  apply (more_fuel f (m := Nat.max n m) _ F (Nat.le_max_l n m)) in Ea.
  apply (more_fuel f (m := Nat.max n m) _ F (Nat.le_max_r n m)) in Eb.
  rewrite Ea in Eb. injection Eb as <- <-. split; reflexivity.
Qed.

(** C7, as stated, fails: [(x)], [1] and [2] are primaries on their own
    and [-], [+] are binary operators, yet [ParseExpr] on
    [(x) - 1 + 2] returns no [BinaryExpr] with [-] at the root and a
    [BinaryExpr] with [+] as its right operand, whatever the budget: it
    returns the sum of a cast and [2], because the cast rule takes [-]
    for the start of the operand of a cast to [x]. *)
Lemma right_nesting_fails_on_bracket_minus :
  exists a b c,
    primary_alone 2 src_bracket_x a
    /\ primary_alone 2 src_one b
    /\ primary_alone 2 src_two c
    /\ Type_ src_minus = Tokens.BinaryOp
    /\ Type_ src_plus = Tokens.BinaryOp
    /\ (exists h hc t e r p',
          ParseExpr (HLSL 3) false None (parser_on src_bracket_minus)
          = Ok (BinaryExpr h (CastExpr hc t e) "+" r) p')
    /\ ~ (exists m h1 a' h2 b' c' p',
            ParseExpr (HLSL m) false None
              (parser_on
                 (src_bracket_x ++ src_minus :: src_one ++ src_plus :: src_two)
                 %list)
            = Ok (BinaryExpr h1 a' (Spell src_minus)
                    (BinaryExpr h2 b' (Spell src_plus) c')) p').
Proof.
  do 3 eexists.
  split; [eexists; split; vm_compute; reflexivity|].
  split; [eexists; split; vm_compute; reflexivity|].
  split; [eexists; split; vm_compute; reflexivity|].
  split; [reflexivity|]. split; [reflexivity|].
  assert (E : exists h hc t e r q,
             ParseExpr (HLSL 3) false None (parser_on src_bracket_minus)
             = Ok (BinaryExpr h (CastExpr hc t e) "+" r) q).
  { do 6 eexists. vm_compute. reflexivity. }
  split; [exact E|].
  intros (m & h1 & a' & h2 & b' & c' & p' & R).
  destruct E as (h & hc & t & e & r & q & E).
  change (src_bracket_x ++ src_minus :: src_one ++ src_plus :: src_two)%list
    with src_bracket_minus in R.
  assert (F : forall s s', Recursion_le s s' ->
              refines (ParseExpr s false None) (ParseExpr s' false None))
    by auto with mono.
  destruct (fuel_deterministic (fun s => ParseExpr s false None) _ _ _
              F R E) as [Eq _].
  discriminate Eq.
Qed.

(** ** Input modifiers of a parameter *)

Lemma after_AcceptIt_parser_at t ts last heap :
  after_AcceptIt (parser_at (t :: ts) last heap) = parser_at ts (Pos t) heap.
Proof. unfold after_AcceptIt, parser_at. simpl. destruct ts; reflexivity. Qed.

Lemma tkn_parser_at t ts last heap : tkn_ (parser_at (t :: ts) last heap) = t.
Proof. reflexivity. Qed.

Lemma ParseParameter_loop_modifier (self : Recursion) acc t ts last heap :
  is_modifier t = true ->
  ParseParameter_loop self acc (parser_at (t :: ts) last heap)
  = loop_ParseParameter self (absorb acc t) (parser_at ts (Pos t) heap).
Proof.
  intros Mt. destruct acc as [[im tm] sm].
  unfold ParseParameter_loop, absorb, IfM, Is, HLSLParser_Type.
  rewrite tkn_parser_at. unfold is_modifier in Mt.
  destruct (Type_ t) eqn:T; try discriminate Mt; simpl;
    unfold bind; rewrite AcceptIt_eq, after_AcceptIt_parser_at;
    reflexivity.
Qed.

Lemma ParseParameter_loop_stop (self : Recursion) acc p :
  is_modifier (tkn_ p) = false -> ParseParameter_loop self acc p = Ok acc p.
Proof.
  intros Mt. destruct acc as [[im tm] sm].
  unfold ParseParameter_loop, IfM, Is, HLSLParser_Type.
  unfold is_modifier in Mt. destruct (Type_ (tkn_ p)); try discriminate Mt;
    reflexivity.
Qed.

Lemma ParseParameter_loop_run (mods rest : list Token) :
  forall (n : nat) acc last heap,
    Forall (fun t => is_modifier t = true) mods ->
    is_modifier (tkn_ (parser_at rest (last_Pos last mods) heap)) = false ->
    length mods <= n ->
    ParseParameter_loop (HLSL n) acc (parser_at (mods ++ rest) last heap)
    = Ok (fold_left absorb mods acc)
         (parser_at rest (last_Pos last mods) heap).
Proof.
  induction mods as [|t ts IH]; intros n acc last heap F E L.
  - apply ParseParameter_loop_stop. exact E.
  - inversion F as [|? ? Mt Fts]; subst.
    destruct n as [|n]; [simpl in L; lia|].
    simpl app. rewrite ParseParameter_loop_modifier by exact Mt.
    change (loop_ParseParameter (HLSL (S n)))
      with (ParseParameter_loop (HLSL n)).
    apply IH; [exact Fts|exact E|simpl in L; lia].
Qed.

Lemma absorb_no_input (after : list Token) :
  forall acc,
    Forall (fun t => Type_ t <> Tokens.InputModifier) after ->
    fst (fst (fold_left absorb after acc)) = fst (fst acc).
Proof.
  induction after as [|t ts IH]; intros acc F; [reflexivity|].
  inversion F as [|? ? Nt Fts]; subst. simpl. rewrite IH by exact Fts.
  destruct acc as [[im tm] sm]. unfold absorb.
  destruct (Type_ t); try reflexivity. contradiction.
Qed.

Lemma absorb_last_input (before after : list Token) (m : Token) acc :
  Type_ m = Tokens.InputModifier ->
  Forall (fun t => Type_ t <> Tokens.InputModifier) after ->
  fst (fst (fold_left absorb (before ++ m :: after) acc)) = Spell m.
Proof.
  intros Tm F. rewrite fold_left_app. simpl.
  rewrite absorb_no_input by exact F.
  destruct (fold_left absorb before acc) as [[im tm] sm].
  unfold absorb. rewrite Tm. reflexivity.
Qed.

(** C8: a parameter with any run of modifiers is accepted as soon as
    its type and declarator parse, and its [inputModifier] is the
    spelling of the last input modifier of the run, however many input
    modifiers come before it. *)
Theorem last_input_modifier_wins
  (n : nat) (before after rest : list Token) (m : Token)
  (last : SourcePos) (heap : nat)
  (varType : VarType) (varDecl : VarDecl) (q1 q2 : HLSLParser) :
  let mods := (before ++ m :: after)%list in
  let q := parser_at rest (last_Pos last mods) (S heap) in
  Forall (fun t => is_modifier t = true) mods ->
  Type_ m = Tokens.InputModifier ->
  Forall (fun t => Type_ t <> Tokens.InputModifier) after ->
  is_modifier (tkn_ q) = false ->
  length mods <= n ->
  ParseVarType (HLSL n) false q = Ok varType q1 ->
  ParseVarDecl (HLSL n) q1 = Ok varDecl q2 ->
  exists stmnt,
    ParseParameter (HLSL n) (parser_at (mods ++ rest) last heap) = Ok stmnt q2
    /\ VarDeclStmnt_inputModifier stmnt = Spell m
    /\ VarDeclStmnt_varType stmnt = varType
    /\ VarDeclStmnt_varDecls stmnt = [varDecl].
Proof.
  intros mods q F Tm Fa E L T D.
  unfold ParseParameter. unfold bind at 1. rewrite Make_eq.
  assert (A : after_Make (parser_at (mods ++ rest) last heap)
              = parser_at (mods ++ rest) last (S heap)).
  { unfold after_Make, parser_at.
    destruct (Next (MkScanner (mods ++ rest) last)). reflexivity. }
  rewrite A.
  rewrite (bind_Ok _ _ _
             (@ParseParameter_loop_run mods rest n ("", [], []) last (S heap)
                F E L)).
  pose proof (@absorb_last_input before after m ("", [], []) Tm Fa) as I.
  fold mods in I.
  destruct (fold_left absorb mods ("", [], [])) as [[im tm] sm].
  simpl in I. subst im.
  fold q. rewrite (bind_Ok _ _ _ T), (bind_Ok _ _ _ D).
  eexists. split; [reflexivity|]. repeat split.
Qed.

(** ** Attributes before a statement *)

(** Walk a successful run of a production down to its [ret]. *)
Ltac run_inv H :=
  repeat
    (cbv beta in H;
     match type of H with
     | bind _ _ _ = Ok _ _ =>
         let a := fresh "a" in
         let q := fresh "q" in
         let Ha := fresh "Ha" in
         apply bind_Ok_inv in H; destruct H as (a & q & Ha & H)
     | IfM ?c ?a ?b ?p = Ok _ _ =>
         let C := fresh "C" in
         destruct (c p) eqn:C;
         [ rewrite (IfM_true c a b p C) in H
         | rewrite (IfM_false c a b p C) in H ]
     | ret _ _ = Ok _ _ => unfold ret in H; injection H as <- <-
     | ErrorUnexpectedHint _ _ = Ok _ _ => discriminate H
     | ErrorUnexpected _ = Ok _ _ => discriminate H
     | (match ?x with _ => _ end) _ = Ok _ _ => destruct x
     end).

Lemma ParseAttributeList_loop_stops (n : nat) :
  forall acc p attribs p1,
    ParseAttributeList_loop (HLSL n) acc p = Ok attribs p1 ->
    Is Tokens.LParen p1 = false.
Proof.
  induction n as [|n IH]; intros acc p attribs p1 R;
    unfold ParseAttributeList_loop, IfM in R;
    destruct (Is Tokens.LParen p) eqn:C.
  - bind_inv R. discriminate R.
  - injection R as _ <-. exact C.
  - bind_inv R. apply IH in R. exact R.
  - injection R as _ <-. exact C.
Qed.

Lemma ParseStmnt_after_attributes (n : nat) p attribs p1 :
  ParseAttributeList (HLSL n) p = Ok attribs p1 ->
  ParseStmnt (HLSL n) p =
    match HLSLParser_Type p1 with
    | Tokens.For => ParseForLoopStmnt (HLSL n) attribs p1
    | Tokens.While => ParseWhileLoopStmnt (HLSL n) attribs p1
    | Tokens.Do => ParseDoWhileLoopStmnt (HLSL n) attribs p1
    | Tokens.If => ParseIfStmnt (HLSL n) attribs p1
    | Tokens.Switch => ParseSwitchStmnt (HLSL n) attribs p1
    | _ => ParseStmnt (HLSL n) p1
    end.
Proof.
  intros A.
  assert (N : Is Tokens.LParen p1 = false)
    by (eapply ParseAttributeList_loop_stops; exact A).
  assert (S1 : forall q, Is Tokens.LParen q = false ->
                 ParseStmnt (HLSL n) q =
                 match HLSLParser_Type q with
                 | Tokens.Semicolon => ParseNullStmnt q
                 | Tokens.Directive => ParseDirectiveStmnt q
                 | Tokens.LCurly => ParseCodeBlockStmnt (HLSL n) q
                 | Tokens.Return => ParseReturnStmnt (HLSL n) q
                 | Tokens.Ident =>
                     ParseVarDeclOrAssignOrFunctionCallStmnt (HLSL n) q
                 | Tokens.For => ParseForLoopStmnt (HLSL n) [] q
                 | Tokens.While => ParseWhileLoopStmnt (HLSL n) [] q
                 | Tokens.Do => ParseDoWhileLoopStmnt (HLSL n) [] q
                 | Tokens.If => ParseIfStmnt (HLSL n) [] q
                 | Tokens.Switch => ParseSwitchStmnt (HLSL n) [] q
                 | Tokens.CtrlTransfer => ParseCtrlTransferStmnt q
                 | Tokens.Struct => ParseStructDeclOrVarDeclStmnt (HLSL n) q
                 | Tokens.TypeModifier
                 | Tokens.StorageModifier =>
                     (s <- ParseVarDeclStmnt (HLSL n) ;; ret (StmntVarDecl s)) q
                 | _ =>
                     IfM IsDataType
                       (s <- ParseVarDeclStmnt (HLSL n) ;; ret (StmntVarDecl s))
                       (ParseExprStmnt (HLSL n) None) q
                 end).
  { intros q Nq. unfold ParseStmnt.
    rewrite (@bind_Ok _ _ _ _ q [] q) by (apply IfM_false; exact Nq).
    reflexivity. }
  destruct (Is Tokens.LParen p) eqn:C.
  - unfold ParseStmnt at 1.
    rewrite (@bind_Ok _ _ _ _ p attribs p1)
      by (rewrite IfM_true by exact C; exact A).
    rewrite (S1 p1 N). destruct (HLSLParser_Type p1); reflexivity.
  - assert (E : attribs = [] /\ p1 = p).
    { unfold ParseAttributeList, ParseAttributeList_loop in A.
      rewrite IfM_false in A by exact C. injection A as <- <-. auto. }
    destruct E as [-> ->].
    rewrite (S1 p N). destruct (HLSLParser_Type p); reflexivity.
Qed.

Lemma ParseVarDeclOrAssignOrFunctionCallStmnt_attribs (self : Recursion) p s p' :
  ParseVarDeclOrAssignOrFunctionCallStmnt self p = Ok s p' ->
  Stmnt_attribs s = None.
Proof.
  intros R. unfold ParseVarDeclOrAssignOrFunctionCallStmnt in R.
  run_inv R; try reflexivity.
  unfold ParseExprStmnt in R. run_inv R. reflexivity.
Qed.

Lemma ParseStructDeclOrVarDeclStmnt_attribs (self : Recursion) p s p' :
  ParseStructDeclOrVarDeclStmnt self p = Ok s p' -> Stmnt_attribs s = None.
Proof.
  intros R. unfold ParseStructDeclOrVarDeclStmnt in R.
  run_inv R; reflexivity.
Qed.

Lemma ParseExprStmnt_attribs (self : Recursion) v p s p' :
  ParseExprStmnt self v p = Ok s p' -> Stmnt_attribs s = None.
Proof. intros R. unfold ParseExprStmnt in R. run_inv R. reflexivity. Qed.

Lemma attach_bind {A} (attribs : list FunctionCall) (c : M A)
  (k k' : A -> M Stmnt) :
  (forall a p, k a p = attach attribs (k' a p)) ->
  forall p, bind c k p = attach attribs (bind c k' p).
Proof.
  intros K p. unfold bind. destruct (c p); [apply K|reflexivity..].
Qed.

Lemma attach_IfM (attribs : list FunctionCall) (c : HLSLParser -> bool)
  (a a' b b' : M Stmnt) :
  (forall p, a p = attach attribs (a' p)) ->
  (forall p, b p = attach attribs (b' p)) ->
  forall p, IfM c a b p = attach attribs (IfM c a' b' p).
Proof. intros Ha Hb p. unfold IfM. destruct (c p); [apply Ha|apply Hb]. Qed.

(** The five productions that take the attributes do with them what
    they do without, and put them on the statement they return. *)
Ltac attached :=
  repeat first
    [ apply attach_bind; intros ?
    | apply attach_IfM ];
  intros; reflexivity.

Lemma ParseForLoopStmnt_attach (self : Recursion) attribs :
  forall p, ParseForLoopStmnt self attribs p
            = attach attribs (ParseForLoopStmnt self [] p).
Proof. unfold ParseForLoopStmnt. attached. Qed.

Lemma ParseWhileLoopStmnt_attach (self : Recursion) attribs :
  forall p, ParseWhileLoopStmnt self attribs p
            = attach attribs (ParseWhileLoopStmnt self [] p).
Proof. unfold ParseWhileLoopStmnt. attached. Qed.

Lemma ParseDoWhileLoopStmnt_attach (self : Recursion) attribs :
  forall p, ParseDoWhileLoopStmnt self attribs p
            = attach attribs (ParseDoWhileLoopStmnt self [] p).
Proof. unfold ParseDoWhileLoopStmnt. attached. Qed.

Lemma ParseIfStmnt_attach (self : Recursion) attribs :
  forall p, ParseIfStmnt self attribs p
            = attach attribs (ParseIfStmnt self [] p).
Proof. unfold ParseIfStmnt. attached. Qed.

Lemma ParseSwitchStmnt_attach (self : Recursion) attribs :
  forall p, ParseSwitchStmnt self attribs p
            = attach attribs (ParseSwitchStmnt self [] p).
Proof. unfold ParseSwitchStmnt. attached. Qed.

Lemma set_attribs_plain attribs s :
  Stmnt_attribs s = None -> set_attribs attribs s = s.
Proof. destruct s; simpl; intros E; try reflexivity; discriminate E. Qed.

Lemma set_attribs_kept attribs s a :
  Stmnt_attribs s = Some a -> Stmnt_attribs (set_attribs attribs s) = Some attribs.
Proof. destruct s; simpl; intros E; try reflexivity; discriminate E. Qed.

(** Without attributes in front, the statement comes from the
    production its first token selects. *)
Lemma ParseStmnt_plain (n : nat) p1 :
  Is Tokens.LParen p1 = false ->
  (takes_attribs (HLSLParser_Type p1) = true ->
   forall stmnt p', ParseStmnt (HLSL n) p1 = Ok stmnt p' ->
                    Stmnt_attribs stmnt = Some [])
  /\ (takes_attribs (HLSLParser_Type p1) = false ->
      forall stmnt p', ParseStmnt (HLSL n) p1 = Ok stmnt p' ->
                       Stmnt_attribs stmnt = None).
Proof.
  intros N. split; intros K stmnt p' R; unfold ParseStmnt in R;
    rewrite (@bind_Ok _ _ _ _ p1 [] p1) in R by (apply IfM_false; exact N).
  - destruct (HLSLParser_Type p1); try discriminate K.
    + unfold ParseIfStmnt in R. run_inv R; reflexivity.
    + unfold ParseSwitchStmnt in R. run_inv R; reflexivity.
    + unfold ParseForLoopStmnt in R. run_inv R; reflexivity.
    + unfold ParseWhileLoopStmnt in R. run_inv R; reflexivity.
    + unfold ParseDoWhileLoopStmnt in R. run_inv R; reflexivity.
  - destruct (HLSLParser_Type p1) eqn:T; try discriminate K;
      try (match type of R with
           | IfM IsDataType _ _ _ = _ =>
               unfold IfM in R; destruct (IsDataType p1)
           end);
      try (apply ParseVarDeclOrAssignOrFunctionCallStmnt_attribs in R;
           exact R);
      try (apply ParseStructDeclOrVarDeclStmnt_attribs in R; exact R);
      try (apply ParseExprStmnt_attribs in R; exact R);
      try (bind_inv R; injection R as <- <-; reflexivity).
    + unfold ParseReturnStmnt in R. run_inv R; reflexivity.
    + unfold ParseCtrlTransferStmnt in R. run_inv R; reflexivity.
    + unfold ParseCodeBlockStmnt in R. run_inv R; reflexivity.
    + unfold ParseNullStmnt in R. run_inv R; reflexivity.
    + unfold ParseDirectiveStmnt in R. run_inv R; reflexivity.
Qed.

Lemma ParseStmnt_attach (n : nat) p attribs p1 :
  ParseAttributeList (HLSL n) p = Ok attribs p1 ->
  ParseStmnt (HLSL n) p = attach attribs (ParseStmnt (HLSL n) p1).
Proof.
  intros A.
  assert (N : Is Tokens.LParen p1 = false)
    by (eapply ParseAttributeList_loop_stops; exact A).
  assert (A1 : ParseAttributeList (HLSL n) p1 = Ok [] p1).
  { unfold ParseAttributeList, ParseAttributeList_loop.
    rewrite IfM_false by exact N. reflexivity. }
  rewrite (ParseStmnt_after_attributes n p A).
  destruct (takes_attribs (HLSLParser_Type p1)) eqn:K.
  - rewrite (ParseStmnt_after_attributes n p1 A1).
    destruct (HLSLParser_Type p1); try discriminate K.
    + apply ParseIfStmnt_attach.
    + apply ParseSwitchStmnt_attach.
    + apply ParseForLoopStmnt_attach.
    + apply ParseWhileLoopStmnt_attach.
    + apply ParseDoWhileLoopStmnt_attach.
  - assert (Eq : match HLSLParser_Type p1 with
                 | Tokens.For => ParseForLoopStmnt (HLSL n) attribs p1
                 | Tokens.While => ParseWhileLoopStmnt (HLSL n) attribs p1
                 | Tokens.Do => ParseDoWhileLoopStmnt (HLSL n) attribs p1
                 | Tokens.If => ParseIfStmnt (HLSL n) attribs p1
                 | Tokens.Switch => ParseSwitchStmnt (HLSL n) attribs p1
                 | _ => ParseStmnt (HLSL n) p1
                 end = ParseStmnt (HLSL n) p1)
      by (destruct (HLSLParser_Type p1); try reflexivity; discriminate K).
    rewrite Eq.
    destruct (ParseStmnt (HLSL n) p1) as [s q| |] eqn:R; try reflexivity.
    simpl. rewrite set_attribs_plain; [reflexivity|].
    eapply (proj2 (@ParseStmnt_plain n p1 N) K). exact R.
Qed.

(** C10: the attributes parsed before a statement end up in the
    [attribs] field of a for, while, do-while, if or switch statement:
    [ParseStmnt] does what it does on the input behind the attributes
    and returns that statement with the list on it.  Before any other
    statement they are dropped: the statement returned is the one
    parsed from the input behind them, and it has no [attribs]
    field. *)
Theorem attributes_kept_only_by_loops_if_switch
  (n : nat) (p p1 : HLSLParser) (attribs : list FunctionCall) :
  ParseAttributeList (HLSL n) p = Ok attribs p1 ->
  (* the statement behind the attributes, with the list on it *)
  ParseStmnt (HLSL n) p = attach attribs (ParseStmnt (HLSL n) p1)
  (* a loop, an if or a switch that parses is returned with the list *)
  /\ (takes_attribs (HLSLParser_Type p1) = true ->
      (forall stmnt p',
          ParseStmnt (HLSL n) p1 = Ok stmnt p' ->
          ParseStmnt (HLSL n) p = Ok (set_attribs attribs stmnt) p'
          /\ Stmnt_attribs (set_attribs attribs stmnt) = Some attribs)
      /\ (forall stmnt p',
            ParseStmnt (HLSL n) p = Ok stmnt p' ->
            Stmnt_attribs stmnt = Some attribs))
  (* any other statement is returned as if the list were not there *)
  /\ (takes_attribs (HLSLParser_Type p1) = false ->
      ParseStmnt (HLSL n) p = ParseStmnt (HLSL n) p1
      /\ forall stmnt p',
          ParseStmnt (HLSL n) p = Ok stmnt p' ->
          Stmnt_attribs stmnt = None).
Proof.
  intros A.
  pose proof (ParseStmnt_attach n p A) as E.
  assert (N : Is Tokens.LParen p1 = false)
    by (eapply ParseAttributeList_loop_stops; exact A).
  destruct (@ParseStmnt_plain n p1 N) as [Kept Plain].
  split; [exact E|]. split; intros K.
  - split.
    + intros stmnt p' R. rewrite E, R. split; [reflexivity|].
      eapply set_attribs_kept. eapply Kept; eassumption.
    + intros stmnt p' R. rewrite E in R.
      destruct (ParseStmnt (HLSL n) p1) as [s q| |] eqn:R1;
        try discriminate R.
      simpl in R. injection R as <- <-.
      eapply set_attribs_kept. eapply Kept; [exact K|reflexivity].
  - assert (Eq : ParseStmnt (HLSL n) p = ParseStmnt (HLSL n) p1).
    { rewrite E. destruct (ParseStmnt (HLSL n) p1) as [s q| |] eqn:R;
        try reflexivity.
      simpl. rewrite set_attribs_plain; [reflexivity|].
      eapply Plain; [exact K|reflexivity]. }
    split; [exact Eq|].
    intros stmnt p' R. rewrite Eq in R. eapply Plain; eassumption.
Qed.

(** ** Every production moves forward in the input *)

Lemma size_after_Make p : size (after_Make p) = size p.
Proof. reflexivity. Qed.

Lemma size_after_AcceptIt p : size (after_AcceptIt p) <= size p.
Proof.
  destruct p as [[src last] tkn heap].
  unfold size, after_AcceptIt, HLSLParser_Type, Next. simpl.
  destruct src as [|t rest]; simpl.
  - lia.
  - destruct (Tokens.eqb (Type_ t) Tokens.EndOfStream);
      destruct (Tokens.eqb (Type_ tkn) Tokens.EndOfStream); lia.
Qed.

Lemma size_after_AcceptIt_lt p :
  HLSLParser_Type p <> Tokens.EndOfStream -> size (after_AcceptIt p) < size p.
Proof.
  intros N. unfold size at 2.
  replace (Tokens.eqb (HLSLParser_Type p) Tokens.EndOfStream) with false.
  2:{ symmetry. destruct (Tokens.eqb _ _) eqn:E; [|reflexivity].
      apply Tokens_eqb_eq in E. contradiction. }
  destruct p as [[src last] tkn heap].
  unfold size, after_AcceptIt, HLSLParser_Type, Next. simpl.
  destruct src as [|t rest]; simpl.
  - lia.
  - destruct (Tokens.eqb (Type_ t) Tokens.EndOfStream); lia.
Qed.

Lemma weak_ret {A} (a : A) : weak (ret a).
Proof. intros p b q [= _ <-]. lia. Qed.

Lemma weak_Make : weak Make.
Proof. intros p a q. rewrite Make_eq. intros [= _ <-]. reflexivity. Qed.

Lemma weak_AcceptIt : weak AcceptIt.
Proof.
  intros p a q. rewrite AcceptIt_eq. intros [= _ <-].
  apply size_after_AcceptIt.
Qed.

Lemma strict_Accept (type : Tokens.t) :
  type <> Tokens.EndOfStream -> strict (Accept type).
Proof.
  intros N p a q R. apply Accept_Ok_inv in R. destruct R as (I & _ & ->).
  apply size_after_AcceptIt_lt. apply Is_true_iff in I. congruence.
Qed.

Lemma strict_AcceptSpell (type : Tokens.t) (spell : string) :
  type <> Tokens.EndOfStream -> strict (AcceptSpell type spell).
Proof.
  intros N p a q R. unfold AcceptSpell, IfM, negb_ in R.
  destruct (Is type p) eqn:I; simpl in R; [|discriminate R].
  destruct (negb (String.eqb (Spell (tkn_ p)) spell)); [discriminate R|].
  rewrite AcceptIt_eq in R. injection R as _ <-.
  apply size_after_AcceptIt_lt. apply Is_true_iff in I. congruence.
Qed.

Lemma strict_Semi : strict Semi.
Proof. apply strict_Accept. discriminate. Qed.

Lemma strict_Error {A} (msg : string) : strict (@Error A msg).
Proof. intros p a q R. discriminate R. Qed.

Lemma strict_ErrorUnexpected {A} : strict (@ErrorUnexpected A).
Proof. intros p a q R. discriminate R. Qed.

Lemma strict_ErrorUnexpectedHint {A} (hint : string) :
  strict (@ErrorUnexpectedHint A hint).
Proof. intros p a q R. discriminate R. Qed.

Lemma strict_weak {A} (f : M A) : strict f -> weak f.
Proof. intros S p a q R. apply S in R. lia. Qed.

Lemma strict_bind_l {A B} (c : M A) (k : A -> M B) :
  strict c -> (forall a, weak (k a)) -> strict (bind c k).
Proof.
  intros C K p b q R. bind_inv R. apply C in Ha. apply K in R. lia.
Qed.

Lemma strict_bind_r {A B} (c : M A) (k : A -> M B) :
  weak c -> (forall a, strict (k a)) -> strict (bind c k).
Proof.
  intros C K p b q R. bind_inv R. apply C in Ha. apply K in R. lia.
Qed.

Lemma weak_bind {A B} (c : M A) (k : A -> M B) :
  weak c -> (forall a, weak (k a)) -> weak (bind c k).
Proof.
  intros C K p b q R. bind_inv R. apply C in Ha. apply K in R. lia.
Qed.

Lemma strict_IfM {A} (c : HLSLParser -> bool) (a b : M A) :
  strict a -> strict b -> strict (IfM c a b).
Proof.
  intros Ha Hb p x q. unfold IfM. destruct (c p); [apply Ha|apply Hb].
Qed.

Lemma weak_IfM {A} (c : HLSLParser -> bool) (a b : M A) :
  weak a -> weak b -> weak (IfM c a b).
Proof.
  intros Ha Hb p x q. unfold IfM. destruct (c p); [apply Ha|apply Hb].
Qed.

(** [AcceptIt] behind a test of the current token accepts a token. *)
Lemma strict_guarded_AcceptIt {A} (c : HLSLParser -> bool)
  (k : Token -> M A) (b : M A) :
  (forall p, c p = true -> HLSLParser_Type p <> Tokens.EndOfStream) ->
  (forall t, weak (k t)) -> strict b ->
  strict (IfM c (bind AcceptIt k) b).
Proof.
  intros G K Hb p x q. unfold IfM. destruct (c p) eqn:C; [|apply Hb].
  intros R. bind_inv R. rewrite AcceptIt_eq in Ha. injection Ha as _ <-.
  apply K in R. pose proof (@size_after_AcceptIt_lt p (G p C)). lia.
Qed.

Lemma strict_guarded_Make_AcceptIt {A} (c : HLSLParser -> bool)
  (k : AST -> Token -> M A) (b : M A) :
  (forall p, c p = true -> HLSLParser_Type p <> Tokens.EndOfStream) ->
  (forall ast t, weak (k ast t)) -> strict b ->
  strict (IfM c (bind Make (fun ast => bind AcceptIt (k ast))) b).
Proof.
  intros G K Hb p x q. unfold IfM. destruct (c p) eqn:C; [|apply Hb].
  intros R. bind_inv R. rewrite Make_eq in Ha. injection Ha as _ <-.
  bind_inv R. rewrite AcceptIt_eq in Ha. injection Ha as _ <-.
  apply K in R.
  pose proof (@size_after_AcceptIt_lt (after_Make p) (G p C)).
  rewrite size_after_Make in *. lia.
Qed.

Lemma strict_else_AcceptIt {A} (c : HLSLParser -> bool)
  (k : Token -> M A) (a : M A) :
  (forall p, c p = false -> HLSLParser_Type p <> Tokens.EndOfStream) ->
  strict a -> (forall t, weak (k t)) ->
  strict (IfM c a (bind AcceptIt k)).
Proof.
  intros G Ha K p x q. unfold IfM. destruct (c p) eqn:C; [apply Ha|].
  intros R. bind_inv R. rewrite AcceptIt_eq in Ha0. injection Ha0 as _ <-.
  apply K in R. pose proof (@size_after_AcceptIt_lt p (G p C)). lia.
Qed.

Lemma strict_else_Make_AcceptIt {A} (c : HLSLParser -> bool)
  (k : AST -> Token -> M A) (a : M A) :
  (forall p, c p = false -> HLSLParser_Type p <> Tokens.EndOfStream) ->
  strict a -> (forall ast t, weak (k ast t)) ->
  strict (IfM c a (bind Make (fun ast => bind AcceptIt (k ast)))).
Proof.
  intros G Ha K p x q. unfold IfM. destruct (c p) eqn:C; [apply Ha|].
  intros R. bind_inv R. rewrite Make_eq in Ha0. injection Ha0 as _ <-.
  bind_inv R. rewrite AcceptIt_eq in Ha0. injection Ha0 as _ <-.
  apply K in R.
  pose proof (@size_after_AcceptIt_lt (after_Make p) (G p C)).
  rewrite size_after_Make in *. lia.
Qed.

Lemma strict_at {A} (f : M A) p a q :
  strict f -> f p = Ok a q -> size q < size p.
Proof. intros S. apply S. Qed.

Lemma weak_at {A} (f : M A) p a q :
  weak f -> f p = Ok a q -> size q <= size p.
Proof. intros S. apply S. Qed.

Create HintDb sizes.

(** A test of the current token that fails at the end of the stream. *)
Ltac at_token :=
  let p := fresh "p" in
  let G := fresh "G" in
  let E := fresh "E" in
  intros p G E;
  unfold Is, IsSpell, IsDataType, IsLiteral, orb_, negb_, andb_, Is in G;
  rewrite E in G; simpl in G;
  rewrite ?andb_false_r, ?orb_false_r in G; simpl in G;
  discriminate G.

Ltac sz_leaf H :=
  first
    [ apply weak_ret | apply weak_Make | apply weak_AcceptIt
    | apply strict_Semi
    | apply strict_Accept; discriminate
    | apply strict_AcceptSpell; discriminate
    | apply strict_Error | apply strict_ErrorUnexpected
    | apply strict_ErrorUnexpectedHint
    | apply (sz_ParseExpr H)
    | apply (sz_ParsePrimaryExpr H)
    | apply (sz_ParseVarIdent H)
    | apply (sz_ParseStmnt H)
    | apply (sz_ParseVarDeclStmnt H)
    | apply (sz_loop_ParseProgram H)
    | apply (sz_loop_ParseParameter H)
    | apply (sz_loop_ParseSwitchCase H)
    | apply (sz_loop_ParseAttribute H)
    | apply (sz_loop_ParseVarDeclStmnt H)
    | apply (sz_loop_ParseVarDeclList H)
    | apply (sz_loop_ParseVarDeclStmntList H)
    | apply (sz_loop_ParseParameterList H)
    | apply (sz_loop_ParseStmntList H)
    | apply (sz_loop_ParseExprList H)
    | apply (sz_loop_ParseArrayDimensionList H)
    | apply (sz_loop_ParseVarSemanticList H)
    | apply (sz_loop_ParseAttributeList H)
    | apply (sz_loop_ParseSwitchCaseList H)
    | apply (sz_loop_ParseBufferDeclIdentList H)
    | solve [auto with sizes] ].

(** Decide [strict] or [weak] for a production, along its shape. *)
Ltac sz H :=
  cbv zeta beta;
  lazymatch goal with
  | |- strict (bind _ _) =>
      first
        [ apply strict_bind_l; [solve [sz H] | intro; solve [sz H]]
        | apply strict_bind_r; [solve [sz H] | intro; solve [sz H]] ]
  | |- weak (bind _ _) => apply weak_bind; [sz H | intro; sz H]
  | |- strict (IfM _ _ _) =>
      first
        [ apply strict_guarded_AcceptIt;
          [at_token | intro; solve [sz H] | solve [sz H]]
        | apply strict_guarded_Make_AcceptIt;
          [at_token | intros; solve [sz H] | solve [sz H]]
        | apply strict_else_AcceptIt;
          [at_token | solve [sz H] | intro; solve [sz H]]
        | apply strict_else_Make_AcceptIt;
          [at_token | solve [sz H] | intros; solve [sz H]]
        | apply strict_IfM; sz H ]
  | |- weak (IfM _ _ _) => apply weak_IfM; sz H
  | |- strict (fun p => match HLSLParser_Type p with _ => _ end) =>
      let p := fresh "p" in
      let a := fresh "a" in
      let q := fresh "q" in
      intros p a q; destruct (HLSLParser_Type p);
      match goal with
      | |- ?f p = Ok a q -> _ => apply (@strict_at _ f); sz H
      end
  | |- _ (match ?x with _ => _ end) => destruct x; sz H
  | |- strict _ => sz_leaf H
  | |- weak _ => first [sz_leaf H | apply strict_weak; sz_leaf H]
  end.

Lemma ParseRegister_strict parseColon : strict (ParseRegister parseColon).
Proof. unfold ParseRegister. sz tt. Qed.
#[local] Hint Resolve ParseRegister_strict : sizes.

Lemma ParseSemantic_strict : strict ParseSemantic.
Proof. unfold ParseSemantic. sz tt. Qed.
#[local] Hint Resolve ParseSemantic_strict : sizes.

Lemma ParseBufferDeclIdent_strict : strict ParseBufferDeclIdent.
Proof. unfold ParseBufferDeclIdent. sz tt. Qed.
#[local] Hint Resolve ParseBufferDeclIdent_strict : sizes.

Lemma ParsePackOffset_strict parseColon : strict (ParsePackOffset parseColon).
Proof. unfold ParsePackOffset. sz tt. Qed.
#[local] Hint Resolve ParsePackOffset_strict : sizes.

Lemma ParseVarSemantic_strict : strict ParseVarSemantic.
Proof. unfold ParseVarSemantic. sz tt. Qed.
#[local] Hint Resolve ParseVarSemantic_strict : sizes.

Lemma ParseVarSemanticList_loop_weak (s : Recursion) acc :
  sizes_ok s -> weak (ParseVarSemanticList_loop s acc).
Proof. intros H. unfold ParseVarSemanticList_loop. sz H. Qed.
#[local] Hint Resolve ParseVarSemanticList_loop_weak : sizes.

Lemma ParseVarSemanticList_weak (s : Recursion) :
  sizes_ok s -> weak (ParseVarSemanticList s).
Proof. intros H. unfold ParseVarSemanticList. sz H. Qed.
#[local] Hint Resolve ParseVarSemanticList_weak : sizes.

Lemma ParseBufferDeclIdentList_loop_weak (s : Recursion) acc :
  sizes_ok s -> weak (ParseBufferDeclIdentList_loop s acc).
Proof. intros H. unfold ParseBufferDeclIdentList_loop. sz H. Qed.
#[local] Hint Resolve ParseBufferDeclIdentList_loop_weak : sizes.

Lemma ParseBufferDeclIdentList_strict (s : Recursion) :
  sizes_ok s -> strict (ParseBufferDeclIdentList s).
Proof. intros H. unfold ParseBufferDeclIdentList. sz H. Qed.
#[local] Hint Resolve ParseBufferDeclIdentList_strict : sizes.

Lemma ParseArrayDimension_strict (s : Recursion) :
  sizes_ok s -> strict (ParseArrayDimension s).
Proof. intros H. unfold ParseArrayDimension. sz H. Qed.
#[local] Hint Resolve ParseArrayDimension_strict : sizes.

Lemma ParseArrayDimensionList_loop_weak (s : Recursion) acc :
  sizes_ok s -> weak (ParseArrayDimensionList_loop s acc).
Proof. intros H. unfold ParseArrayDimensionList_loop. sz H. Qed.
#[local] Hint Resolve ParseArrayDimensionList_loop_weak : sizes.

Lemma ParseArrayDimensionList_weak (s : Recursion) :
  sizes_ok s -> weak (ParseArrayDimensionList s).
Proof. intros H. unfold ParseArrayDimensionList. sz H. Qed.
#[local] Hint Resolve ParseArrayDimensionList_weak : sizes.

Lemma ParseVarIdent_strict (s : Recursion) :
  sizes_ok s -> strict (ParseVarIdent s).
Proof. intros H. unfold ParseVarIdent. sz H. Qed.
#[local] Hint Resolve ParseVarIdent_strict : sizes.

Lemma ParseExprList_loop_strict (s : Recursion) term allowLastComma acc :
  sizes_ok s -> strict (ParseExprList_loop s term allowLastComma acc).
Proof. intros H. unfold ParseExprList_loop. sz H. Qed.
#[local] Hint Resolve ParseExprList_loop_strict : sizes.

Lemma ParseExprList_weak (s : Recursion) term allowLastComma :
  sizes_ok s -> weak (ParseExprList s term allowLastComma).
Proof. intros H. unfold ParseExprList. sz H. Qed.
#[local] Hint Resolve ParseExprList_weak : sizes.

Lemma ParseArgumentList_strict (s : Recursion) :
  sizes_ok s -> strict (ParseArgumentList s).
Proof. intros H. unfold ParseArgumentList. sz H. Qed.
#[local] Hint Resolve ParseArgumentList_strict : sizes.

Lemma ParseInitializerList_strict (s : Recursion) :
  sizes_ok s -> strict (ParseInitializerList s).
Proof. intros H. unfold ParseInitializerList. sz H. Qed.
#[local] Hint Resolve ParseInitializerList_strict : sizes.

Lemma ParseFunctionCall_strict (s : Recursion) varIdent :
  sizes_ok s -> strict (ParseFunctionCall s varIdent).
Proof. intros H. unfold ParseFunctionCall. sz H. Qed.
#[local] Hint Resolve ParseFunctionCall_strict : sizes.

Lemma ParseFunctionCallExpr_strict (s : Recursion) varIdent :
  sizes_ok s -> strict (ParseFunctionCallExpr s varIdent).
Proof. intros H. unfold ParseFunctionCallExpr. sz H. Qed.
#[local] Hint Resolve ParseFunctionCallExpr_strict : sizes.

Lemma ParseVarAccessExpr_weak (s : Recursion) varIdent :
  sizes_ok s -> weak (ParseVarAccessExpr s varIdent).
Proof. intros H. unfold ParseVarAccessExpr. sz H. Qed.
#[local] Hint Resolve ParseVarAccessExpr_weak : sizes.

Lemma ParseVarAccessOrFunctionCallExpr_strict (s : Recursion) :
  sizes_ok s -> strict (ParseVarAccessOrFunctionCallExpr s).
Proof. intros H. unfold ParseVarAccessOrFunctionCallExpr. sz H. Qed.
#[local] Hint Resolve ParseVarAccessOrFunctionCallExpr_strict : sizes.

Lemma ParseInitializerExpr_strict (s : Recursion) :
  sizes_ok s -> strict (ParseInitializerExpr s).
Proof. intros H. unfold ParseInitializerExpr. sz H. Qed.
#[local] Hint Resolve ParseInitializerExpr_strict : sizes.

Lemma ParseLiteralExpr_strict : strict ParseLiteralExpr.
Proof. unfold ParseLiteralExpr. sz tt. Qed.
#[local] Hint Resolve ParseLiteralExpr_strict : sizes.

Lemma ParseTypeNameOrFunctionCallExpr_strict (s : Recursion) :
  sizes_ok s -> strict (ParseTypeNameOrFunctionCallExpr s).
Proof. intros H. unfold ParseTypeNameOrFunctionCallExpr. sz H. Qed.
#[local] Hint Resolve ParseTypeNameOrFunctionCallExpr_strict : sizes.

Lemma ParseUnaryExpr_strict (s : Recursion) :
  sizes_ok s -> strict (ParseUnaryExpr s).
Proof. intros H. unfold ParseUnaryExpr. sz H. Qed.
#[local] Hint Resolve ParseUnaryExpr_strict : sizes.

Lemma ParseBracketOrCastExpr_strict (s : Recursion) :
  sizes_ok s -> strict (ParseBracketOrCastExpr s).
Proof. intros H. unfold ParseBracketOrCastExpr. sz H. Qed.
#[local] Hint Resolve ParseBracketOrCastExpr_strict : sizes.

Lemma ParsePrimaryExpr_strict (s : Recursion) :
  sizes_ok s -> strict (ParsePrimaryExpr s).
Proof. intros H. unfold ParsePrimaryExpr. sz H. Qed.
#[local] Hint Resolve ParsePrimaryExpr_strict : sizes.

Lemma ParseExpr_strict (s : Recursion) allowComma :
  sizes_ok s -> strict (ParseExpr s allowComma None).
Proof. intros H. unfold ParseExpr. sz H. Qed.
#[local] Hint Resolve ParseExpr_strict : sizes.

Lemma ParseExpr_weak (s : Recursion) allowComma initExpr :
  sizes_ok s -> weak (ParseExpr s allowComma initExpr).
Proof. intros H. unfold ParseExpr. sz H. Qed.
#[local] Hint Resolve ParseExpr_weak : sizes.

Lemma ParseAttribute_loop_strict (s : Recursion) acc :
  sizes_ok s -> strict (ParseAttribute_loop s acc).
Proof. intros H. unfold ParseAttribute_loop. sz H. Qed.
#[local] Hint Resolve ParseAttribute_loop_strict : sizes.

Lemma ParseAttribute_strict (s : Recursion) :
  sizes_ok s -> strict (ParseAttribute s).
Proof. intros H. unfold ParseAttribute. sz H. Qed.
#[local] Hint Resolve ParseAttribute_strict : sizes.

Lemma ParseAttributeList_loop_weak (s : Recursion) acc :
  sizes_ok s -> weak (ParseAttributeList_loop s acc).
Proof. intros H. unfold ParseAttributeList_loop. sz H. Qed.
#[local] Hint Resolve ParseAttributeList_loop_weak : sizes.

Lemma ParseAttributeList_weak (s : Recursion) :
  sizes_ok s -> weak (ParseAttributeList s).
Proof. intros H. unfold ParseAttributeList. sz H. Qed.
#[local] Hint Resolve ParseAttributeList_weak : sizes.

Lemma ParseInitializer_strict (s : Recursion) :
  sizes_ok s -> strict (ParseInitializer s).
Proof. intros H. unfold ParseInitializer. sz H. Qed.
#[local] Hint Resolve ParseInitializer_strict : sizes.

Lemma ParseVarDecl_strict (s : Recursion) :
  sizes_ok s -> strict (ParseVarDecl s).
Proof. intros H. unfold ParseVarDecl. sz H. Qed.
#[local] Hint Resolve ParseVarDecl_strict : sizes.

Lemma ParseVarDeclList_loop_strict (s : Recursion) acc :
  sizes_ok s -> strict (ParseVarDeclList_loop s acc).
Proof. intros H. unfold ParseVarDeclList_loop. sz H. Qed.
#[local] Hint Resolve ParseVarDeclList_loop_strict : sizes.

Lemma ParseVarDeclList_strict (s : Recursion) :
  sizes_ok s -> strict (ParseVarDeclList s).
Proof. intros H. unfold ParseVarDeclList. sz H. Qed.
#[local] Hint Resolve ParseVarDeclList_strict : sizes.

Lemma ParseVarDeclStmntList_loop_weak (s : Recursion) acc :
  sizes_ok s -> weak (ParseVarDeclStmntList_loop s acc).
Proof. intros H. unfold ParseVarDeclStmntList_loop. sz H. Qed.
#[local] Hint Resolve ParseVarDeclStmntList_loop_weak : sizes.

Lemma ParseVarDeclStmntList_strict (s : Recursion) :
  sizes_ok s -> strict (ParseVarDeclStmntList s).
Proof. intros H. unfold ParseVarDeclStmntList. sz H. Qed.
#[local] Hint Resolve ParseVarDeclStmntList_strict : sizes.

Lemma ParseStructure_strict (s : Recursion) :
  sizes_ok s -> strict (ParseStructure s).
Proof. intros H. unfold ParseStructure. sz H. Qed.
#[local] Hint Resolve ParseStructure_strict : sizes.

Lemma ParseVarType_weak (s : Recursion) parseVoidType :
  sizes_ok s -> weak (ParseVarType s parseVoidType).
Proof. intros H. unfold ParseVarType. sz H. Qed.
#[local] Hint Resolve ParseVarType_weak : sizes.

Lemma ParseVarDeclStmnt_loop_weak (s : Recursion) acc :
  sizes_ok s -> weak (ParseVarDeclStmnt_loop s acc).
Proof. intros H. unfold ParseVarDeclStmnt_loop. sz H. Qed.
#[local] Hint Resolve ParseVarDeclStmnt_loop_weak : sizes.

Lemma ParseVarDeclStmnt_strict (s : Recursion) :
  sizes_ok s -> strict (ParseVarDeclStmnt s).
Proof. intros H. unfold ParseVarDeclStmnt. sz H. Qed.
#[local] Hint Resolve ParseVarDeclStmnt_strict : sizes.

Lemma ParseParameter_loop_weak (s : Recursion) acc :
  sizes_ok s -> weak (ParseParameter_loop s acc).
Proof. intros H. unfold ParseParameter_loop. sz H. Qed.
#[local] Hint Resolve ParseParameter_loop_weak : sizes.

Lemma ParseParameter_strict (s : Recursion) :
  sizes_ok s -> strict (ParseParameter s).
Proof. intros H. unfold ParseParameter. sz H. Qed.
#[local] Hint Resolve ParseParameter_strict : sizes.

Lemma ParseParameterList_loop_strict (s : Recursion) acc :
  sizes_ok s -> strict (ParseParameterList_loop s acc).
Proof. intros H. unfold ParseParameterList_loop. sz H. Qed.
#[local] Hint Resolve ParseParameterList_loop_strict : sizes.

Lemma ParseParameterList_strict (s : Recursion) :
  sizes_ok s -> strict (ParseParameterList s).
Proof. intros H. unfold ParseParameterList. sz H. Qed.
#[local] Hint Resolve ParseParameterList_strict : sizes.

Lemma ParseStmntList_loop_weak (s : Recursion) acc :
  sizes_ok s -> weak (ParseStmntList_loop s acc).
Proof. intros H. unfold ParseStmntList_loop. sz H. Qed.
#[local] Hint Resolve ParseStmntList_loop_weak : sizes.

Lemma ParseStmntList_weak (s : Recursion) :
  sizes_ok s -> weak (ParseStmntList s).
Proof. intros H. unfold ParseStmntList. sz H. Qed.
#[local] Hint Resolve ParseStmntList_weak : sizes.

Lemma ParseCodeBlock_strict (s : Recursion) :
  sizes_ok s -> strict (ParseCodeBlock s).
Proof. intros H. unfold ParseCodeBlock. sz H. Qed.
#[local] Hint Resolve ParseCodeBlock_strict : sizes.

Lemma ParseSwitchCase_loop_weak (s : Recursion) acc :
  sizes_ok s -> weak (ParseSwitchCase_loop s acc).
Proof. intros H. unfold ParseSwitchCase_loop. sz H. Qed.
#[local] Hint Resolve ParseSwitchCase_loop_weak : sizes.

Lemma ParseSwitchCase_strict (s : Recursion) :
  sizes_ok s -> strict (ParseSwitchCase s).
Proof. intros H. unfold ParseSwitchCase. sz H. Qed.
#[local] Hint Resolve ParseSwitchCase_strict : sizes.

Lemma ParseSwitchCaseList_loop_weak (s : Recursion) acc :
  sizes_ok s -> weak (ParseSwitchCaseList_loop s acc).
Proof. intros H. unfold ParseSwitchCaseList_loop. sz H. Qed.
#[local] Hint Resolve ParseSwitchCaseList_loop_weak : sizes.

Lemma ParseSwitchCaseList_weak (s : Recursion) :
  sizes_ok s -> weak (ParseSwitchCaseList s).
Proof. intros H. unfold ParseSwitchCaseList. sz H. Qed.
#[local] Hint Resolve ParseSwitchCaseList_weak : sizes.

Lemma ParseNullStmnt_strict : strict ParseNullStmnt.
Proof. unfold ParseNullStmnt. sz tt. Qed.
#[local] Hint Resolve ParseNullStmnt_strict : sizes.

Lemma ParseDirectiveStmnt_strict : strict ParseDirectiveStmnt.
Proof. unfold ParseDirectiveStmnt. sz tt. Qed.
#[local] Hint Resolve ParseDirectiveStmnt_strict : sizes.

Lemma ParseCodeBlockStmnt_strict (s : Recursion) :
  sizes_ok s -> strict (ParseCodeBlockStmnt s).
Proof. intros H. unfold ParseCodeBlockStmnt. sz H. Qed.
#[local] Hint Resolve ParseCodeBlockStmnt_strict : sizes.

Lemma ParseForLoopStmnt_strict (s : Recursion) attribs :
  sizes_ok s -> strict (ParseForLoopStmnt s attribs).
Proof. intros H. unfold ParseForLoopStmnt. sz H. Qed.
#[local] Hint Resolve ParseForLoopStmnt_strict : sizes.

Lemma ParseWhileLoopStmnt_strict (s : Recursion) attribs :
  sizes_ok s -> strict (ParseWhileLoopStmnt s attribs).
Proof. intros H. unfold ParseWhileLoopStmnt. sz H. Qed.
#[local] Hint Resolve ParseWhileLoopStmnt_strict : sizes.

Lemma ParseDoWhileLoopStmnt_strict (s : Recursion) attribs :
  sizes_ok s -> strict (ParseDoWhileLoopStmnt s attribs).
Proof. intros H. unfold ParseDoWhileLoopStmnt. sz H. Qed.
#[local] Hint Resolve ParseDoWhileLoopStmnt_strict : sizes.

Lemma ParseElseStmnt_strict (s : Recursion) :
  sizes_ok s -> strict (ParseElseStmnt s).
Proof. intros H. unfold ParseElseStmnt. sz H. Qed.
#[local] Hint Resolve ParseElseStmnt_strict : sizes.

Lemma ParseIfStmnt_strict (s : Recursion) attribs :
  sizes_ok s -> strict (ParseIfStmnt s attribs).
Proof. intros H. unfold ParseIfStmnt. sz H. Qed.
#[local] Hint Resolve ParseIfStmnt_strict : sizes.

Lemma ParseSwitchStmnt_strict (s : Recursion) attribs :
  sizes_ok s -> strict (ParseSwitchStmnt s attribs).
Proof. intros H. unfold ParseSwitchStmnt. sz H. Qed.
#[local] Hint Resolve ParseSwitchStmnt_strict : sizes.

Lemma ParseCtrlTransferStmnt_strict : strict ParseCtrlTransferStmnt.
Proof. unfold ParseCtrlTransferStmnt. sz tt. Qed.
#[local] Hint Resolve ParseCtrlTransferStmnt_strict : sizes.

Lemma ParseReturnStmnt_strict (s : Recursion) :
  sizes_ok s -> strict (ParseReturnStmnt s).
Proof. intros H. unfold ParseReturnStmnt. sz H. Qed.
#[local] Hint Resolve ParseReturnStmnt_strict : sizes.

Lemma ParseExprStmnt_strict (s : Recursion) varIdent :
  sizes_ok s -> strict (ParseExprStmnt s varIdent).
Proof. intros H. unfold ParseExprStmnt. sz H. Qed.
#[local] Hint Resolve ParseExprStmnt_strict : sizes.

Lemma ParseStructDeclOrVarDeclStmnt_strict (s : Recursion) :
  sizes_ok s -> strict (ParseStructDeclOrVarDeclStmnt s).
Proof. intros H. unfold ParseStructDeclOrVarDeclStmnt. sz H. Qed.
#[local] Hint Resolve ParseStructDeclOrVarDeclStmnt_strict : sizes.

Lemma ParseVarDeclOrAssignOrFunctionCallStmnt_strict (s : Recursion) :
  sizes_ok s -> strict (ParseVarDeclOrAssignOrFunctionCallStmnt s).
Proof. intros H. unfold ParseVarDeclOrAssignOrFunctionCallStmnt. sz H. Qed.
#[local] Hint Resolve ParseVarDeclOrAssignOrFunctionCallStmnt_strict : sizes.

Lemma ParseStmnt_strict (s : Recursion) :
  sizes_ok s -> strict (ParseStmnt s).
Proof. intros H. unfold ParseStmnt. sz H. Qed.
#[local] Hint Resolve ParseStmnt_strict : sizes.

Lemma ParseFunctionDecl_strict (s : Recursion) :
  sizes_ok s -> strict (ParseFunctionDecl s).
Proof. intros H. unfold ParseFunctionDecl. sz H. Qed.
#[local] Hint Resolve ParseFunctionDecl_strict : sizes.

Lemma ParseUniformBufferDecl_strict (s : Recursion) :
  sizes_ok s -> strict (ParseUniformBufferDecl s).
Proof. intros H. unfold ParseUniformBufferDecl. sz H. Qed.
#[local] Hint Resolve ParseUniformBufferDecl_strict : sizes.

Lemma ParseTextureDecl_strict (s : Recursion) :
  sizes_ok s -> strict (ParseTextureDecl s).
Proof. intros H. unfold ParseTextureDecl. sz H. Qed.
#[local] Hint Resolve ParseTextureDecl_strict : sizes.

Lemma ParseSamplerDecl_strict (s : Recursion) :
  sizes_ok s -> strict (ParseSamplerDecl s).
Proof. intros H. unfold ParseSamplerDecl. sz H. Qed.
#[local] Hint Resolve ParseSamplerDecl_strict : sizes.

Lemma ParseStructDecl_strict (s : Recursion) :
  sizes_ok s -> strict (ParseStructDecl s).
Proof. intros H. unfold ParseStructDecl. sz H. Qed.
#[local] Hint Resolve ParseStructDecl_strict : sizes.

Lemma ParseDirectiveDecl_strict : strict ParseDirectiveDecl.
Proof. unfold ParseDirectiveDecl. sz tt. Qed.
#[local] Hint Resolve ParseDirectiveDecl_strict : sizes.

Lemma ParseGlobalDecl_strict (s : Recursion) :
  sizes_ok s -> strict (ParseGlobalDecl s).
Proof. intros H. unfold ParseGlobalDecl. sz H. Qed.
#[local] Hint Resolve ParseGlobalDecl_strict : sizes.

Lemma ParseProgram_loop_weak (s : Recursion) acc :
  sizes_ok s -> weak (ParseProgram_loop s acc).
Proof. intros H. unfold ParseProgram_loop. sz H. Qed.
#[local] Hint Resolve ParseProgram_loop_weak : sizes.

Lemma ParseProgram_weak (s : Recursion) :
  sizes_ok s -> weak (ParseProgram s).
Proof. intros H. unfold ParseProgram. sz H. Qed.
#[local] Hint Resolve ParseProgram_weak : sizes.

Lemma HLSL_sizes_ok (n : nat) : sizes_ok (HLSL n).
Proof.
  induction n as [|n IH].
  - constructor; intros; intros p a q R; discriminate R.
  - constructor; intros; cbn [HLSL call_ParseExpr call_ParsePrimaryExpr
      call_ParseVarIdent call_ParseStmnt call_ParseVarDeclStmnt
      loop_ParseProgram loop_ParseParameter loop_ParseSwitchCase
      loop_ParseAttribute loop_ParseVarDeclStmnt loop_ParseVarDeclList
      loop_ParseVarDeclStmntList loop_ParseParameterList loop_ParseStmntList
      loop_ParseExprList loop_ParseArrayDimensionList
      loop_ParseVarSemanticList loop_ParseAttributeList
      loop_ParseSwitchCaseList loop_ParseBufferDeclIdentList];
      first [ solve [auto with sizes]
            | apply strict_weak; solve [auto with sizes] ].
Qed.

(** ** A budget of twice the input suffices *)

Lemma runs_ret (n r : nat) {A} (a : A) : runs n r (ret a).
Proof. intros p _. discriminate. Qed.

Lemma runs_Make (n r : nat) : runs n r Make.
Proof. intros p _. discriminate. Qed.

Lemma runs_AcceptIt (n r : nat) : runs n r AcceptIt.
Proof. intros p _. rewrite AcceptIt_eq. discriminate. Qed.

Lemma runs_Accept (n r : nat) (type : Tokens.t) : runs n r (Accept type).
Proof.
  intros p _. unfold Accept, IfM. destruct (negb_ (Is type) p);
    [discriminate|rewrite AcceptIt_eq; discriminate].
Qed.

Lemma runs_AcceptSpell (n r : nat) (type : Tokens.t) (spell : string) :
  runs n r (AcceptSpell type spell).
Proof.
  intros p _. unfold AcceptSpell, IfM. destruct (negb_ (Is type) p);
    [discriminate|].
  destruct (negb (String.eqb (Spell (tkn_ p)) spell));
    [discriminate|rewrite AcceptIt_eq; discriminate].
Qed.

Lemma runs_Semi (n r : nat) : runs n r Semi.
Proof. apply runs_Accept. Qed.

Lemma runs_Error (n r : nat) {A} (msg : string) : runs n r (@Error A msg).
Proof. intros p _. discriminate. Qed.

Lemma runs_ErrorUnexpected (n r : nat) {A} : runs n r (@ErrorUnexpected A).
Proof. intros p _. discriminate. Qed.

Lemma runs_ErrorUnexpectedHint (n r : nat) {A} (hint : string) :
  runs n r (@ErrorUnexpectedHint A hint).
Proof. intros p _. discriminate. Qed.

Lemma runs_weaken (n r r' : nat) {A} (f : M A) :
  runs n r f -> r <= r' -> runs n r' f.
Proof. intros F L p Hp. apply F. lia. Qed.

Lemma runs_at (n r : nat) {A} (f : M A) p :
  runs n r f -> 2 * size p + r <= n -> f p <> OutOfFuel.
Proof. intros F. apply F. Qed.

(** Past a production that accepts a token, two units are free. *)
Lemma runs_bind_s (n r : nat) {A B} (c : M A) (k : A -> M B) :
  runs n r c -> strict c -> (forall a, runs n 2 (k a)) ->
  runs n r (bind c k).
Proof.
  intros C S K p Hp. unfold bind. destruct (c p) as [a q| |] eqn:E.
  - apply K. apply S in E. lia.
  - discriminate.
  - exfalso. exact (C p Hp E).
Qed.

Lemma runs_bind_w (n r : nat) {A B} (c : M A) (k : A -> M B) :
  runs n r c -> weak c -> (forall a, runs n r (k a)) ->
  runs n r (bind c k).
Proof.
  intros C S K p Hp. unfold bind. destruct (c p) as [a q| |] eqn:E.
  - apply K. apply S in E. lia.
  - discriminate.
  - exfalso. exact (C p Hp E).
Qed.

Lemma runs_IfM (n r : nat) {A} (c : HLSLParser -> bool) (a b : M A) :
  runs n r a -> runs n r b -> runs n r (IfM c a b).
Proof.
  intros Ha Hb p Hp. unfold IfM. destruct (c p); [apply Ha|apply Hb]; exact Hp.
Qed.

Lemma runs_guarded_AcceptIt (n r : nat) {A} (c : HLSLParser -> bool)
  (k : Token -> M A) (b : M A) :
  (forall p, c p = true -> HLSLParser_Type p <> Tokens.EndOfStream) ->
  (forall t, runs n 2 (k t)) -> runs n r b ->
  runs n r (IfM c (bind AcceptIt k) b).
Proof.
  intros G K Hb p Hp. unfold IfM. destruct (c p) eqn:C; [|apply Hb; exact Hp].
  unfold bind. rewrite AcceptIt_eq. apply K.
  pose proof (@size_after_AcceptIt_lt p (G p C)). lia.
Qed.

Lemma runs_guarded_Make_AcceptIt (n r : nat) {A} (c : HLSLParser -> bool)
  (k : AST -> Token -> M A) (b : M A) :
  (forall p, c p = true -> HLSLParser_Type p <> Tokens.EndOfStream) ->
  (forall ast t, runs n 2 (k ast t)) -> runs n r b ->
  runs n r (IfM c (bind Make (fun ast => bind AcceptIt (k ast))) b).
Proof.
  intros G K Hb p Hp. unfold IfM. destruct (c p) eqn:C; [|apply Hb; exact Hp].
  unfold bind. rewrite Make_eq, AcceptIt_eq. apply K.
  pose proof (@size_after_AcceptIt_lt (after_Make p) (G p C)).
  rewrite size_after_Make in *. lia.
Qed.

Lemma runs_else_AcceptIt (n r : nat) {A} (c : HLSLParser -> bool)
  (k : Token -> M A) (a : M A) :
  (forall p, c p = false -> HLSLParser_Type p <> Tokens.EndOfStream) ->
  runs n r a -> (forall t, runs n 2 (k t)) ->
  runs n r (IfM c a (bind AcceptIt k)).
Proof.
  intros G Ha K p Hp. unfold IfM. destruct (c p) eqn:C; [apply Ha; exact Hp|].
  unfold bind. rewrite AcceptIt_eq. apply K.
  pose proof (@size_after_AcceptIt_lt p (G p C)). lia.
Qed.

Lemma runs_else_Make_AcceptIt (n r : nat) {A} (c : HLSLParser -> bool)
  (k : AST -> Token -> M A) (a : M A) :
  (forall p, c p = false -> HLSLParser_Type p <> Tokens.EndOfStream) ->
  runs n r a -> (forall ast t, runs n 2 (k ast t)) ->
  runs n r (IfM c a (bind Make (fun ast => bind AcceptIt (k ast)))).
Proof.
  intros G Ha K p Hp. unfold IfM. destruct (c p) eqn:C; [apply Ha; exact Hp|].
  unfold bind. rewrite Make_eq, AcceptIt_eq. apply K.
  pose proof (@size_after_AcceptIt_lt (after_Make p) (G p C)).
  rewrite size_after_Make in *. lia.
Qed.

Create HintDb runs.

Ltac rn_leaf Hs Hr :=
  first
    [ apply runs_ret | apply runs_Make | apply runs_AcceptIt
    | apply runs_Accept | apply runs_AcceptSpell | apply runs_Semi
    | apply runs_Error | apply runs_ErrorUnexpected
    | apply runs_ErrorUnexpectedHint
    | solve [auto with runs]
    | eapply runs_weaken;
      [ first
          [ apply (rn_ParseExpr Hr)
          | apply (rn_ParsePrimaryExpr Hr)
          | apply (rn_ParseVarIdent Hr)
          | apply (rn_ParseStmnt Hr)
          | apply (rn_ParseVarDeclStmnt Hr)
          | apply (rn_loop_ParseProgram Hr)
          | apply (rn_loop_ParseParameter Hr)
          | apply (rn_loop_ParseSwitchCase Hr)
          | apply (rn_loop_ParseAttribute Hr)
          | apply (rn_loop_ParseVarDeclStmnt Hr)
          | apply (rn_loop_ParseVarDeclList Hr)
          | apply (rn_loop_ParseVarDeclStmntList Hr)
          | apply (rn_loop_ParseParameterList Hr)
          | apply (rn_loop_ParseStmntList Hr)
          | apply (rn_loop_ParseExprList Hr)
          | apply (rn_loop_ParseArrayDimensionList Hr)
          | apply (rn_loop_ParseVarSemanticList Hr)
          | apply (rn_loop_ParseAttributeList Hr)
          | apply (rn_loop_ParseSwitchCaseList Hr)
          | apply (rn_loop_ParseBufferDeclIdentList Hr)
          | solve [eauto with runs] ]
      | lia ] ].

(** Decide [runs] for a production, along its shape. *)
Ltac rn Hs Hr :=
  cbv zeta beta;
  lazymatch goal with
  | |- runs _ _ (bind ?c _) =>
      tryif assert_succeeds (assert (strict c) by solve [sz Hs])
      then (apply runs_bind_s; [rn Hs Hr | solve [sz Hs] | intro; rn Hs Hr])
      else (apply runs_bind_w; [rn Hs Hr | solve [sz Hs] | intro; rn Hs Hr])
  | |- runs _ _ (IfM _ _ _) =>
      first
        [ apply runs_guarded_AcceptIt;
          [at_token | intro; solve [rn Hs Hr] | solve [rn Hs Hr]]
        | apply runs_guarded_Make_AcceptIt;
          [at_token | intros; solve [rn Hs Hr] | solve [rn Hs Hr]]
        | apply runs_else_AcceptIt;
          [at_token | solve [rn Hs Hr] | intro; solve [rn Hs Hr]]
        | apply runs_else_Make_AcceptIt;
          [at_token | solve [rn Hs Hr] | intros; solve [rn Hs Hr]]
        | apply runs_IfM; rn Hs Hr ]
  | |- runs _ _ (fun p => match HLSLParser_Type p with _ => _ end) =>
      let p := fresh "p" in
      intros p; destruct (HLSLParser_Type p);
      match goal with
      | |- _ -> ?f p <> OutOfFuel => apply (@runs_at _ _ _ f); rn Hs Hr
      end
  | |- runs _ _ (match ?x with _ => _ end) => destruct x; rn Hs Hr
  | |- runs _ _ _ => rn_leaf Hs Hr
  end.

Lemma ParseRegister_runs (n r : nat) parseColon : runs n r (ParseRegister parseColon).
Proof. unfold ParseRegister. rn tt tt. Qed.
#[local] Hint Resolve ParseRegister_runs : runs.

Lemma ParseSemantic_runs (n r : nat) : runs n r ParseSemantic.
Proof. unfold ParseSemantic. rn tt tt. Qed.
#[local] Hint Resolve ParseSemantic_runs : runs.

Lemma ParseBufferDeclIdent_runs (n r : nat) : runs n r ParseBufferDeclIdent.
Proof. unfold ParseBufferDeclIdent. rn tt tt. Qed.
#[local] Hint Resolve ParseBufferDeclIdent_runs : runs.

Lemma ParsePackOffset_runs (n r : nat) parseColon : runs n r (ParsePackOffset parseColon).
Proof. unfold ParsePackOffset. rn tt tt. Qed.
#[local] Hint Resolve ParsePackOffset_runs : runs.

Lemma ParseVarSemantic_runs (n r : nat) : runs n r ParseVarSemantic.
Proof. unfold ParseVarSemantic. rn tt tt. Qed.
#[local] Hint Resolve ParseVarSemantic_runs : runs.

Lemma ParseVarSemanticList_loop_runs (n : nat) (s : Recursion) acc :
  sizes_ok s -> runs_ok n s -> runs n 0 (ParseVarSemanticList_loop s acc).
Proof. intros Hs Hr. unfold ParseVarSemanticList_loop. rn Hs Hr. Qed.
#[local] Hint Resolve ParseVarSemanticList_loop_runs : runs.

Lemma ParseVarSemanticList_runs (n : nat) (s : Recursion) :
  sizes_ok s -> runs_ok n s -> runs n 0 (ParseVarSemanticList s).
Proof. intros Hs Hr. unfold ParseVarSemanticList. rn Hs Hr. Qed.
#[local] Hint Resolve ParseVarSemanticList_runs : runs.

Lemma ParseBufferDeclIdentList_loop_runs (n : nat) (s : Recursion) acc :
  sizes_ok s -> runs_ok n s -> runs n 0 (ParseBufferDeclIdentList_loop s acc).
Proof. intros Hs Hr. unfold ParseBufferDeclIdentList_loop. rn Hs Hr. Qed.
#[local] Hint Resolve ParseBufferDeclIdentList_loop_runs : runs.

Lemma ParseBufferDeclIdentList_runs (n : nat) (s : Recursion) :
  sizes_ok s -> runs_ok n s -> runs n 0 (ParseBufferDeclIdentList s).
Proof. intros Hs Hr. unfold ParseBufferDeclIdentList. rn Hs Hr. Qed.
#[local] Hint Resolve ParseBufferDeclIdentList_runs : runs.

Lemma ParseArrayDimension_runs (n : nat) (s : Recursion) :
  sizes_ok s -> runs_ok n s -> runs n 0 (ParseArrayDimension s).
Proof. intros Hs Hr. unfold ParseArrayDimension. rn Hs Hr. Qed.
#[local] Hint Resolve ParseArrayDimension_runs : runs.

Lemma ParseArrayDimensionList_loop_runs (n : nat) (s : Recursion) acc :
  sizes_ok s -> runs_ok n s -> runs n 0 (ParseArrayDimensionList_loop s acc).
Proof. intros Hs Hr. unfold ParseArrayDimensionList_loop. rn Hs Hr. Qed.
#[local] Hint Resolve ParseArrayDimensionList_loop_runs : runs.

Lemma ParseArrayDimensionList_runs (n : nat) (s : Recursion) :
  sizes_ok s -> runs_ok n s -> runs n 0 (ParseArrayDimensionList s).
Proof. intros Hs Hr. unfold ParseArrayDimensionList. rn Hs Hr. Qed.
#[local] Hint Resolve ParseArrayDimensionList_runs : runs.

Lemma ParseVarIdent_runs (n : nat) (s : Recursion) :
  sizes_ok s -> runs_ok n s -> runs n 0 (ParseVarIdent s).
Proof. intros Hs Hr. unfold ParseVarIdent. rn Hs Hr. Qed.
#[local] Hint Resolve ParseVarIdent_runs : runs.

Lemma ParseExprList_loop_runs (n : nat) (s : Recursion) term allowLastComma acc :
  sizes_ok s -> runs_ok n s -> runs n 1 (ParseExprList_loop s term allowLastComma acc).
Proof. intros Hs Hr. unfold ParseExprList_loop. rn Hs Hr. Qed.
#[local] Hint Resolve ParseExprList_loop_runs : runs.

Lemma ParseExprList_runs (n : nat) (s : Recursion) term allowLastComma :
  sizes_ok s -> runs_ok n s -> runs n 1 (ParseExprList s term allowLastComma).
Proof. intros Hs Hr. unfold ParseExprList. rn Hs Hr. Qed.
#[local] Hint Resolve ParseExprList_runs : runs.

Lemma ParseArgumentList_runs (n : nat) (s : Recursion) :
  sizes_ok s -> runs_ok n s -> runs n 0 (ParseArgumentList s).
Proof. intros Hs Hr. unfold ParseArgumentList. rn Hs Hr. Qed.
#[local] Hint Resolve ParseArgumentList_runs : runs.

Lemma ParseInitializerList_runs (n : nat) (s : Recursion) :
  sizes_ok s -> runs_ok n s -> runs n 0 (ParseInitializerList s).
Proof. intros Hs Hr. unfold ParseInitializerList. rn Hs Hr. Qed.
#[local] Hint Resolve ParseInitializerList_runs : runs.

Lemma ParseFunctionCall_runs (n : nat) (s : Recursion) varIdent :
  sizes_ok s -> runs_ok n s -> runs n 0 (ParseFunctionCall s varIdent).
Proof. intros Hs Hr. unfold ParseFunctionCall. rn Hs Hr. Qed.
#[local] Hint Resolve ParseFunctionCall_runs : runs.

Lemma ParseFunctionCallExpr_runs (n : nat) (s : Recursion) varIdent :
  sizes_ok s -> runs_ok n s -> runs n 0 (ParseFunctionCallExpr s varIdent).
Proof. intros Hs Hr. unfold ParseFunctionCallExpr. rn Hs Hr. Qed.
#[local] Hint Resolve ParseFunctionCallExpr_runs : runs.

Lemma ParseVarAccessExpr_runs (n : nat) (s : Recursion) varIdent :
  sizes_ok s -> runs_ok n s -> runs n 0 (ParseVarAccessExpr s varIdent).
Proof. intros Hs Hr. unfold ParseVarAccessExpr. rn Hs Hr. Qed.
#[local] Hint Resolve ParseVarAccessExpr_runs : runs.

Lemma ParseVarAccessOrFunctionCallExpr_runs (n : nat) (s : Recursion) :
  sizes_ok s -> runs_ok n s -> runs n 0 (ParseVarAccessOrFunctionCallExpr s).
Proof. intros Hs Hr. unfold ParseVarAccessOrFunctionCallExpr. rn Hs Hr. Qed.
#[local] Hint Resolve ParseVarAccessOrFunctionCallExpr_runs : runs.

Lemma ParseInitializerExpr_runs (n : nat) (s : Recursion) :
  sizes_ok s -> runs_ok n s -> runs n 0 (ParseInitializerExpr s).
Proof. intros Hs Hr. unfold ParseInitializerExpr. rn Hs Hr. Qed.
#[local] Hint Resolve ParseInitializerExpr_runs : runs.

Lemma ParseLiteralExpr_runs (n r : nat) : runs n r ParseLiteralExpr.
Proof. unfold ParseLiteralExpr. rn tt tt. Qed.
#[local] Hint Resolve ParseLiteralExpr_runs : runs.

Lemma ParseTypeNameOrFunctionCallExpr_runs (n : nat) (s : Recursion) :
  sizes_ok s -> runs_ok n s -> runs n 0 (ParseTypeNameOrFunctionCallExpr s).
Proof. intros Hs Hr. unfold ParseTypeNameOrFunctionCallExpr. rn Hs Hr. Qed.
#[local] Hint Resolve ParseTypeNameOrFunctionCallExpr_runs : runs.

Lemma ParseUnaryExpr_runs (n : nat) (s : Recursion) :
  sizes_ok s -> runs_ok n s -> runs n 0 (ParseUnaryExpr s).
Proof. intros Hs Hr. unfold ParseUnaryExpr. rn Hs Hr. Qed.
#[local] Hint Resolve ParseUnaryExpr_runs : runs.

Lemma ParseBracketOrCastExpr_runs (n : nat) (s : Recursion) :
  sizes_ok s -> runs_ok n s -> runs n 0 (ParseBracketOrCastExpr s).
Proof. intros Hs Hr. unfold ParseBracketOrCastExpr. rn Hs Hr. Qed.
#[local] Hint Resolve ParseBracketOrCastExpr_runs : runs.

Lemma ParsePrimaryExpr_runs (n : nat) (s : Recursion) :
  sizes_ok s -> runs_ok n s -> runs n 0 (ParsePrimaryExpr s).
Proof. intros Hs Hr. unfold ParsePrimaryExpr. rn Hs Hr. Qed.
#[local] Hint Resolve ParsePrimaryExpr_runs : runs.

Lemma ParseExpr_runs (n : nat) (s : Recursion) allowComma initExpr :
  sizes_ok s -> runs_ok n s -> runs n 0 (ParseExpr s allowComma initExpr).
Proof. intros Hs Hr. unfold ParseExpr. rn Hs Hr. Qed.
#[local] Hint Resolve ParseExpr_runs : runs.

Lemma ParseAttribute_loop_runs (n : nat) (s : Recursion) acc :
  sizes_ok s -> runs_ok n s -> runs n 0 (ParseAttribute_loop s acc).
Proof. intros Hs Hr. unfold ParseAttribute_loop. rn Hs Hr. Qed.
#[local] Hint Resolve ParseAttribute_loop_runs : runs.

Lemma ParseAttribute_runs (n : nat) (s : Recursion) :
  sizes_ok s -> runs_ok n s -> runs n 0 (ParseAttribute s).
Proof. intros Hs Hr. unfold ParseAttribute. rn Hs Hr. Qed.
#[local] Hint Resolve ParseAttribute_runs : runs.

Lemma ParseAttributeList_loop_runs (n : nat) (s : Recursion) acc :
  sizes_ok s -> runs_ok n s -> runs n 0 (ParseAttributeList_loop s acc).
Proof. intros Hs Hr. unfold ParseAttributeList_loop. rn Hs Hr. Qed.
#[local] Hint Resolve ParseAttributeList_loop_runs : runs.

Lemma ParseAttributeList_runs (n : nat) (s : Recursion) :
  sizes_ok s -> runs_ok n s -> runs n 0 (ParseAttributeList s).
Proof. intros Hs Hr. unfold ParseAttributeList. rn Hs Hr. Qed.
#[local] Hint Resolve ParseAttributeList_runs : runs.

Lemma ParseInitializer_runs (n : nat) (s : Recursion) :
  sizes_ok s -> runs_ok n s -> runs n 0 (ParseInitializer s).
Proof. intros Hs Hr. unfold ParseInitializer. rn Hs Hr. Qed.
#[local] Hint Resolve ParseInitializer_runs : runs.

Lemma ParseVarDecl_runs (n : nat) (s : Recursion) :
  sizes_ok s -> runs_ok n s -> runs n 0 (ParseVarDecl s).
Proof. intros Hs Hr. unfold ParseVarDecl. rn Hs Hr. Qed.
#[local] Hint Resolve ParseVarDecl_runs : runs.

Lemma ParseVarDeclList_loop_runs (n : nat) (s : Recursion) acc :
  sizes_ok s -> runs_ok n s -> runs n 0 (ParseVarDeclList_loop s acc).
Proof. intros Hs Hr. unfold ParseVarDeclList_loop. rn Hs Hr. Qed.
#[local] Hint Resolve ParseVarDeclList_loop_runs : runs.

Lemma ParseVarDeclList_runs (n : nat) (s : Recursion) :
  sizes_ok s -> runs_ok n s -> runs n 0 (ParseVarDeclList s).
Proof. intros Hs Hr. unfold ParseVarDeclList. rn Hs Hr. Qed.
#[local] Hint Resolve ParseVarDeclList_runs : runs.

Lemma ParseVarDeclStmntList_loop_runs (n : nat) (s : Recursion) acc :
  sizes_ok s -> runs_ok n s -> runs n 1 (ParseVarDeclStmntList_loop s acc).
Proof. intros Hs Hr. unfold ParseVarDeclStmntList_loop. rn Hs Hr. Qed.
#[local] Hint Resolve ParseVarDeclStmntList_loop_runs : runs.

Lemma ParseVarDeclStmntList_runs (n : nat) (s : Recursion) :
  sizes_ok s -> runs_ok n s -> runs n 0 (ParseVarDeclStmntList s).
Proof. intros Hs Hr. unfold ParseVarDeclStmntList. rn Hs Hr. Qed.
#[local] Hint Resolve ParseVarDeclStmntList_runs : runs.

Lemma ParseStructure_runs (n : nat) (s : Recursion) :
  sizes_ok s -> runs_ok n s -> runs n 0 (ParseStructure s).
Proof. intros Hs Hr. unfold ParseStructure. rn Hs Hr. Qed.
#[local] Hint Resolve ParseStructure_runs : runs.

Lemma ParseVarType_runs (n : nat) (s : Recursion) parseVoidType :
  sizes_ok s -> runs_ok n s -> runs n 0 (ParseVarType s parseVoidType).
Proof. intros Hs Hr. unfold ParseVarType. rn Hs Hr. Qed.
#[local] Hint Resolve ParseVarType_runs : runs.

Lemma ParseVarDeclStmnt_loop_runs (n : nat) (s : Recursion) acc :
  sizes_ok s -> runs_ok n s -> runs n 0 (ParseVarDeclStmnt_loop s acc).
Proof. intros Hs Hr. unfold ParseVarDeclStmnt_loop. rn Hs Hr. Qed.
#[local] Hint Resolve ParseVarDeclStmnt_loop_runs : runs.

Lemma ParseVarDeclStmnt_runs (n : nat) (s : Recursion) :
  sizes_ok s -> runs_ok n s -> runs n 0 (ParseVarDeclStmnt s).
Proof. intros Hs Hr. unfold ParseVarDeclStmnt. rn Hs Hr. Qed.
#[local] Hint Resolve ParseVarDeclStmnt_runs : runs.

Lemma ParseParameter_loop_runs (n : nat) (s : Recursion) acc :
  sizes_ok s -> runs_ok n s -> runs n 0 (ParseParameter_loop s acc).
Proof.
  intros Hs Hr p Hp. destruct acc as [[im tm] sm].
  unfold ParseParameter_loop, IfM.
  destruct (Is Tokens.InputModifier p) eqn:I;
    [|destruct (Is Tokens.TypeModifier p) eqn:T;
      [|destruct (Is Tokens.StorageModifier p) eqn:S]];
    simpl; try discriminate;
    unfold bind; rewrite AcceptIt_eq;
    apply (rn_loop_ParseParameter Hr);
    match goal with
    | G : Is _ p = true |- _ =>
        apply Is_true_iff in G;
        assert (N : HLSLParser_Type p <> Tokens.EndOfStream) by congruence;
        pose proof (@size_after_AcceptIt_lt p N); lia
    end.
Qed.
#[local] Hint Resolve ParseParameter_loop_runs : runs.

Lemma ParseParameter_runs (n : nat) (s : Recursion) :
  sizes_ok s -> runs_ok n s -> runs n 0 (ParseParameter s).
Proof. intros Hs Hr. unfold ParseParameter. rn Hs Hr. Qed.
#[local] Hint Resolve ParseParameter_runs : runs.

Lemma ParseParameterList_loop_runs (n : nat) (s : Recursion) acc :
  sizes_ok s -> runs_ok n s -> runs n 0 (ParseParameterList_loop s acc).
Proof. intros Hs Hr. unfold ParseParameterList_loop. rn Hs Hr. Qed.
#[local] Hint Resolve ParseParameterList_loop_runs : runs.

Lemma ParseParameterList_runs (n : nat) (s : Recursion) :
  sizes_ok s -> runs_ok n s -> runs n 0 (ParseParameterList s).
Proof. intros Hs Hr. unfold ParseParameterList. rn Hs Hr. Qed.
#[local] Hint Resolve ParseParameterList_runs : runs.

Lemma ParseStmntList_loop_runs (n : nat) (s : Recursion) acc :
  sizes_ok s -> runs_ok n s -> runs n 1 (ParseStmntList_loop s acc).
Proof. intros Hs Hr. unfold ParseStmntList_loop. rn Hs Hr. Qed.
#[local] Hint Resolve ParseStmntList_loop_runs : runs.

Lemma ParseStmntList_runs (n : nat) (s : Recursion) :
  sizes_ok s -> runs_ok n s -> runs n 1 (ParseStmntList s).
Proof. intros Hs Hr. unfold ParseStmntList. rn Hs Hr. Qed.
#[local] Hint Resolve ParseStmntList_runs : runs.

Lemma ParseCodeBlock_runs (n : nat) (s : Recursion) :
  sizes_ok s -> runs_ok n s -> runs n 0 (ParseCodeBlock s).
Proof. intros Hs Hr. unfold ParseCodeBlock. rn Hs Hr. Qed.
#[local] Hint Resolve ParseCodeBlock_runs : runs.

Lemma ParseSwitchCase_loop_runs (n : nat) (s : Recursion) acc :
  sizes_ok s -> runs_ok n s -> runs n 1 (ParseSwitchCase_loop s acc).
Proof. intros Hs Hr. unfold ParseSwitchCase_loop. rn Hs Hr. Qed.
#[local] Hint Resolve ParseSwitchCase_loop_runs : runs.

Lemma ParseSwitchCase_runs (n : nat) (s : Recursion) :
  sizes_ok s -> runs_ok n s -> runs n 0 (ParseSwitchCase s).
Proof. intros Hs Hr. unfold ParseSwitchCase. rn Hs Hr. Qed.
#[local] Hint Resolve ParseSwitchCase_runs : runs.

Lemma ParseSwitchCaseList_loop_runs (n : nat) (s : Recursion) acc :
  sizes_ok s -> runs_ok n s -> runs n 0 (ParseSwitchCaseList_loop s acc).
Proof. intros Hs Hr. unfold ParseSwitchCaseList_loop. rn Hs Hr. Qed.
#[local] Hint Resolve ParseSwitchCaseList_loop_runs : runs.

Lemma ParseSwitchCaseList_runs (n : nat) (s : Recursion) :
  sizes_ok s -> runs_ok n s -> runs n 0 (ParseSwitchCaseList s).
Proof. intros Hs Hr. unfold ParseSwitchCaseList. rn Hs Hr. Qed.
#[local] Hint Resolve ParseSwitchCaseList_runs : runs.

Lemma ParseNullStmnt_runs (n r : nat) : runs n r ParseNullStmnt.
Proof. unfold ParseNullStmnt. rn tt tt. Qed.
#[local] Hint Resolve ParseNullStmnt_runs : runs.

Lemma ParseDirectiveStmnt_runs (n r : nat) : runs n r ParseDirectiveStmnt.
Proof. unfold ParseDirectiveStmnt. rn tt tt. Qed.
#[local] Hint Resolve ParseDirectiveStmnt_runs : runs.

Lemma ParseCodeBlockStmnt_runs (n : nat) (s : Recursion) :
  sizes_ok s -> runs_ok n s -> runs n 0 (ParseCodeBlockStmnt s).
Proof. intros Hs Hr. unfold ParseCodeBlockStmnt. rn Hs Hr. Qed.
#[local] Hint Resolve ParseCodeBlockStmnt_runs : runs.

Lemma ParseForLoopStmnt_runs (n : nat) (s : Recursion) attribs :
  sizes_ok s -> runs_ok n s -> runs n 0 (ParseForLoopStmnt s attribs).
Proof. intros Hs Hr. unfold ParseForLoopStmnt. rn Hs Hr. Qed.
#[local] Hint Resolve ParseForLoopStmnt_runs : runs.

Lemma ParseWhileLoopStmnt_runs (n : nat) (s : Recursion) attribs :
  sizes_ok s -> runs_ok n s -> runs n 0 (ParseWhileLoopStmnt s attribs).
Proof. intros Hs Hr. unfold ParseWhileLoopStmnt. rn Hs Hr. Qed.
#[local] Hint Resolve ParseWhileLoopStmnt_runs : runs.

Lemma ParseDoWhileLoopStmnt_runs (n : nat) (s : Recursion) attribs :
  sizes_ok s -> runs_ok n s -> runs n 0 (ParseDoWhileLoopStmnt s attribs).
Proof. intros Hs Hr. unfold ParseDoWhileLoopStmnt. rn Hs Hr. Qed.
#[local] Hint Resolve ParseDoWhileLoopStmnt_runs : runs.

Lemma ParseElseStmnt_runs (n : nat) (s : Recursion) :
  sizes_ok s -> runs_ok n s -> runs n 0 (ParseElseStmnt s).
Proof. intros Hs Hr. unfold ParseElseStmnt. rn Hs Hr. Qed.
#[local] Hint Resolve ParseElseStmnt_runs : runs.

Lemma ParseIfStmnt_runs (n : nat) (s : Recursion) attribs :
  sizes_ok s -> runs_ok n s -> runs n 0 (ParseIfStmnt s attribs).
Proof. intros Hs Hr. unfold ParseIfStmnt. rn Hs Hr. Qed.
#[local] Hint Resolve ParseIfStmnt_runs : runs.

Lemma ParseSwitchStmnt_runs (n : nat) (s : Recursion) attribs :
  sizes_ok s -> runs_ok n s -> runs n 0 (ParseSwitchStmnt s attribs).
Proof. intros Hs Hr. unfold ParseSwitchStmnt. rn Hs Hr. Qed.
#[local] Hint Resolve ParseSwitchStmnt_runs : runs.

Lemma ParseCtrlTransferStmnt_runs (n r : nat) : runs n r ParseCtrlTransferStmnt.
Proof. unfold ParseCtrlTransferStmnt. rn tt tt. Qed.
#[local] Hint Resolve ParseCtrlTransferStmnt_runs : runs.

Lemma ParseReturnStmnt_runs (n : nat) (s : Recursion) :
  sizes_ok s -> runs_ok n s -> runs n 0 (ParseReturnStmnt s).
Proof. intros Hs Hr. unfold ParseReturnStmnt. rn Hs Hr. Qed.
#[local] Hint Resolve ParseReturnStmnt_runs : runs.

Lemma ParseExprStmnt_runs (n : nat) (s : Recursion) varIdent :
  sizes_ok s -> runs_ok n s -> runs n 0 (ParseExprStmnt s varIdent).
Proof. intros Hs Hr. unfold ParseExprStmnt. rn Hs Hr. Qed.
#[local] Hint Resolve ParseExprStmnt_runs : runs.

Lemma ParseStructDeclOrVarDeclStmnt_runs (n : nat) (s : Recursion) :
  sizes_ok s -> runs_ok n s -> runs n 0 (ParseStructDeclOrVarDeclStmnt s).
Proof. intros Hs Hr. unfold ParseStructDeclOrVarDeclStmnt. rn Hs Hr. Qed.
#[local] Hint Resolve ParseStructDeclOrVarDeclStmnt_runs : runs.

Lemma ParseVarDeclOrAssignOrFunctionCallStmnt_runs (n : nat) (s : Recursion) :
  sizes_ok s -> runs_ok n s -> runs n 0 (ParseVarDeclOrAssignOrFunctionCallStmnt s).
Proof. intros Hs Hr. unfold ParseVarDeclOrAssignOrFunctionCallStmnt. rn Hs Hr. Qed.
#[local] Hint Resolve ParseVarDeclOrAssignOrFunctionCallStmnt_runs : runs.

Lemma ParseStmnt_runs (n : nat) (s : Recursion) :
  sizes_ok s -> runs_ok n s -> runs n 0 (ParseStmnt s).
Proof. intros Hs Hr. unfold ParseStmnt. rn Hs Hr. Qed.
#[local] Hint Resolve ParseStmnt_runs : runs.

Lemma ParseFunctionDecl_runs (n : nat) (s : Recursion) :
  sizes_ok s -> runs_ok n s -> runs n 0 (ParseFunctionDecl s).
Proof. intros Hs Hr. unfold ParseFunctionDecl. rn Hs Hr. Qed.
#[local] Hint Resolve ParseFunctionDecl_runs : runs.

Lemma ParseUniformBufferDecl_runs (n : nat) (s : Recursion) :
  sizes_ok s -> runs_ok n s -> runs n 0 (ParseUniformBufferDecl s).
Proof. intros Hs Hr. unfold ParseUniformBufferDecl. rn Hs Hr. Qed.
#[local] Hint Resolve ParseUniformBufferDecl_runs : runs.

Lemma ParseTextureDecl_runs (n : nat) (s : Recursion) :
  sizes_ok s -> runs_ok n s -> runs n 0 (ParseTextureDecl s).
Proof. intros Hs Hr. unfold ParseTextureDecl. rn Hs Hr. Qed.
#[local] Hint Resolve ParseTextureDecl_runs : runs.

Lemma ParseSamplerDecl_runs (n : nat) (s : Recursion) :
  sizes_ok s -> runs_ok n s -> runs n 0 (ParseSamplerDecl s).
Proof. intros Hs Hr. unfold ParseSamplerDecl. rn Hs Hr. Qed.
#[local] Hint Resolve ParseSamplerDecl_runs : runs.

Lemma ParseStructDecl_runs (n : nat) (s : Recursion) :
  sizes_ok s -> runs_ok n s -> runs n 0 (ParseStructDecl s).
Proof. intros Hs Hr. unfold ParseStructDecl. rn Hs Hr. Qed.
#[local] Hint Resolve ParseStructDecl_runs : runs.

Lemma ParseDirectiveDecl_runs (n r : nat) : runs n r ParseDirectiveDecl.
Proof. unfold ParseDirectiveDecl. rn tt tt. Qed.
#[local] Hint Resolve ParseDirectiveDecl_runs : runs.

Lemma ParseGlobalDecl_runs (n : nat) (s : Recursion) :
  sizes_ok s -> runs_ok n s -> runs n 0 (ParseGlobalDecl s).
Proof. intros Hs Hr. unfold ParseGlobalDecl. rn Hs Hr. Qed.
#[local] Hint Resolve ParseGlobalDecl_runs : runs.

Lemma ParseProgram_loop_runs (n : nat) (s : Recursion) acc :
  sizes_ok s -> runs_ok n s -> runs n 0 (ParseProgram_loop s acc).
Proof. intros Hs Hr. unfold ParseProgram_loop. rn Hs Hr. Qed.
#[local] Hint Resolve ParseProgram_loop_runs : runs.

Lemma ParseProgram_runs (n : nat) (s : Recursion) :
  sizes_ok s -> runs_ok n s -> runs n 0 (ParseProgram s).
Proof. intros Hs Hr. unfold ParseProgram. rn Hs Hr. Qed.
#[local] Hint Resolve ParseProgram_runs : runs.

Lemma runs_S (n r : nat) {A} (f : M A) : runs n r f -> runs (S n) (S r) f.
Proof. intros F p Hp. apply F. lia. Qed.

Lemma HLSL_runs_ok (n : nat) : runs_ok n (HLSL n).
Proof.
  induction n as [|n IH].
  - constructor; intros; intros p Hp; lia.
  - pose proof (HLSL_sizes_ok n) as Hs.
    constructor; intros; cbn [HLSL call_ParseExpr call_ParsePrimaryExpr
      call_ParseVarIdent call_ParseStmnt call_ParseVarDeclStmnt
      loop_ParseProgram loop_ParseParameter loop_ParseSwitchCase
      loop_ParseAttribute loop_ParseVarDeclStmnt loop_ParseVarDeclList
      loop_ParseVarDeclStmntList loop_ParseParameterList loop_ParseStmntList
      loop_ParseExprList loop_ParseArrayDimensionList
      loop_ParseVarSemanticList loop_ParseAttributeList
      loop_ParseSwitchCaseList loop_ParseBufferDeclIdentList];
      apply runs_S; auto with runs.
Qed.

(** The parser terminates: with a budget of twice the tokens left,
    [ParseProgram] returns a program or throws. *)
Lemma ParseProgram_terminates (n : nat) p :
  2 * size p <= n -> ParseProgram (HLSL n) p <> OutOfFuel.
Proof.
  intros L.
  apply (@ParseProgram_runs n (HLSL n) (HLSL_sizes_ok n) (HLSL_runs_ok n)).
  lia.
Qed.

Lemma ParseStmnt_terminates (n : nat) p :
  2 * size p <= n -> ParseStmnt (HLSL n) p <> OutOfFuel.
Proof.
  intros L.
  apply (@ParseStmnt_runs n (HLSL n) (HLSL_sizes_ok n) (HLSL_runs_ok n)).
  lia.
Qed.

Lemma ParseExpr_terminates (n : nat) allowComma initExpr p :
  2 * size p <= n -> ParseExpr (HLSL n) allowComma initExpr p <> OutOfFuel.
Proof.
  intros L.
  apply (@ParseExpr_runs n (HLSL n) allowComma initExpr
           (HLSL_sizes_ok n) (HLSL_runs_ok n)).
  lia.
Qed.

(** ** The entry point *)

Lemma ParseProgram_loop_ends (n : nat) :
  forall acc p globalDecls p',
    ParseProgram_loop (HLSL n) acc p = Ok globalDecls p' ->
    Is Tokens.EndOfStream p' = true.
Proof.
  induction n as [|n IH]; intros acc p globalDecls p' R;
    unfold ParseProgram_loop, IfM, negb_ in R;
    destruct (Is Tokens.EndOfStream p) eqn:C; simpl in R.
  - injection R as _ <-. exact C.
  - bind_inv R. discriminate R.
  - injection R as _ <-. exact C.
  - bind_inv R. apply IH in R. exact R.
Qed.

Lemma ParseProgram_ends (n : nat) p ast p' :
  ParseProgram (HLSL n) p = Ok ast p' -> Is Tokens.EndOfStream p' = true.
Proof.
  intros R. unfold ParseProgram in R. run_inv R.
  eapply ParseProgram_loop_ends; eassumption.
Qed.

(** What [ParseProgram] returns or throws with some budget, it returns
    or throws with the budget [ParseSource] gives it. *)
Lemma ParseProgram_any_budget (n : nat) p :
  ParseProgram (HLSL n) p <> OutOfFuel ->
  ParseProgram (HLSL (2 * size p)) p = ParseProgram (HLSL n) p.
Proof.
  intros T.
  pose proof (@ParseProgram_terminates (2 * size p) p (le_n _)) as N.
  pose proof (@ParseProgram_mono _ _
                (HLSL_le (Nat.le_max_l n (2 * size p))) p) as Rn.
  pose proof (@ParseProgram_mono _ _
                (HLSL_le (Nat.le_max_r n (2 * size p))) p) as Rs.
  destruct Rn as [O|En]; [contradiction|].
  destruct Rs as [O|Es]; [contradiction|]. congruence.
Qed.

Section ParseSource_properties.

Context {L : Type} `{Logger L}.
Variable SourceCode : Type.
Variable ScanSource : SourceCode -> option HLSLScanner.

(** C6: [ParseSource] returns null when scanning fails, and when
    parsing throws; in the second case the sink behind [log_], if there
    is one, receives the diagnostic through its error operation, once
    and unchanged.  A program is returned only by a parse that ran to
    the end of the stream, and then nothing is logged; every parse that
    succeeds returns its program. *)
Theorem ParseSource_null_on_failure
  (log_ : option L) (source : SourceCode) :
  (ScanSource source = None ->
   fst (ParseSource ScanSource log_ source) = None)
  /\ (forall sc n what,
        ScanSource source = Some sc ->
        ParseProgram (HLSL n) (first_token sc) = Throw what ->
        ParseSource ScanSource log_ source
        = (None, option_map (Logger_Error what) log_))
  /\ (forall sc n ast p',
        ScanSource source = Some sc ->
        ParseProgram (HLSL n) (first_token sc) = Ok ast p' ->
        ParseSource ScanSource log_ source = (Some ast, log_))
  /\ (forall ast log',
        ParseSource ScanSource log_ source = (Some ast, log') ->
        log' = log_
        /\ exists sc n p',
            ScanSource source = Some sc
            /\ ParseProgram (HLSL n) (first_token sc) = Ok ast p'
            /\ Is Tokens.EndOfStream p' = true).
Proof.
  unfold ParseSource. split; [|split; [|split]].
  - intros ->. reflexivity.
  - intros sc n what -> T. cbv zeta.
    rewrite (@ParseProgram_any_budget n), T; [reflexivity|].
    rewrite T. discriminate.
  - intros sc n ast p' -> T. cbv zeta.
    rewrite (@ParseProgram_any_budget n), T; [reflexivity|].
    rewrite T. discriminate.
  - intros ast log' R.
    destruct (ScanSource source) as [sc|]; [|discriminate R].
    cbv zeta in R.
    destruct (ParseProgram (HLSL (2 * size (first_token sc))) (first_token sc))
      as [a p'| |] eqn:P; try discriminate R.
    injection R as <- <-. split; [reflexivity|].
    exists sc, (2 * size (first_token sc)), p'.
    split; [reflexivity|]. split; [exact P|].
    eapply ParseProgram_ends. exact P.
Qed.

End ParseSource_properties.

(** ** Worked instances *)

(** [foo(1, 2);] is a function-call statement on [foo]. *)
Lemma ident_then_bracket_on_call :
  exists varIdent p1 arguments p2 semi p3,
    Is Tokens.Ident (parser_on src_call) = true
    /\ ParseVarIdent (HLSL 3) (parser_on src_call) = Ok varIdent p1
    /\ Is Tokens.LBracket p1 = true
    /\ ParseArgumentList (HLSL 3) (after_Make (after_Make p1))
       = Ok arguments p2
    /\ Semi p2 = Ok semi p3
    /\ VarIdent_ident varIdent = "foo"
    /\ length arguments = 2
    /\ ParseStmnt (HLSL 3) (parser_on src_call)
       = Ok (FunctionCallStmnt (made p1)
               (MkFunctionCall (made (after_Make p1)) varIdent arguments)) p3.
Proof.
  do 6 eexists.
  split; [reflexivity|].
  split; [vm_compute; reflexivity|].
  split; [reflexivity|].
  split; [vm_compute; reflexivity|].
  split; [vm_compute; reflexivity|].
  split; [reflexivity|]. split; [reflexivity|].
  refine (proj2 (@ident_then_bracket_is_function_call 3 _ _ _ _ _ _)
            _ _ _ _ _ _);
    vm_compute; reflexivity.
Defined.

(** [(float) x] is a cast of [x] to [float]. *)
Lemma cast_on_type_name :
  exists l p1 E p2 r p3 e p4,
    Accept Tokens.LBracket (parser_on src_cast) = Ok l p1
    /\ ParseExpr (HLSL 2) true None p1 = Ok E p2
    /\ Accept Tokens.RBracket p2 = Ok r p3
    /\ IsPrimaryExpr p3 = true
    /\ type_form E
    /\ ParsePrimaryExpr (HLSL 2) (after_Make p3) = Ok e p4
    /\ ParseBracketOrCastExpr (HLSL 3) (parser_on src_cast)
       = Ok (CastExpr (made p3) E e) p4.
Proof.
  do 8 eexists.
  split; [vm_compute; reflexivity|].
  split; [vm_compute; reflexivity|].
  split; [vm_compute; reflexivity|].
  split; [reflexivity|].
  split; [left; do 2 eexists; reflexivity|].
  split; [vm_compute; reflexivity|].
  refine (proj1 (proj2 (@cast_iff_primary_follows_type_form 2 _ _ _ _ _ _ _
                          _ _ _)) _ _ _ _).
  - vm_compute; reflexivity.
  - vm_compute; reflexivity.
  - vm_compute; reflexivity.
  - split; [reflexivity|left; do 2 eexists; reflexivity].
  - vm_compute; reflexivity.
Defined.

(** [a * b + c] is the product of [a] and the sum of [b] and [c]. *)
Lemma product_of_sum :
  exists a p1 b p3 c p5,
    ParsePrimaryExpr (HLSL 1) (parser_on src_product_sum) = Ok a p1
    /\ Is Tokens.BinaryOp p1 = true
    /\ ParsePrimaryExpr (HLSL 1) (after_operator p1) = Ok b p3
    /\ Is Tokens.BinaryOp p3 = true
    /\ ParsePrimaryExpr (HLSL 1) (after_operator p3) = Ok c p5
    /\ ends_expression true p5
    /\ Spell (tkn_ p1) = "*" /\ Spell (tkn_ p3) = "+"
    /\ ParseExpr (HLSL 3) true None (parser_on src_product_sum)
       = Ok (BinaryExpr (made p1) a "*" (BinaryExpr (made p3) b "+" c)) p5.
Proof.
  do 6 eexists.
  split; [vm_compute; reflexivity|].
  split; [reflexivity|].
  split; [vm_compute; reflexivity|].
  split; [reflexivity|].
  split; [vm_compute; reflexivity|].
  split; [repeat split|].
  split; [reflexivity|]. split; [reflexivity|].
  refine (@binary_operators_nest_to_the_right 1 true _ _ _ _ _ _ _ _ _ _ _ _ _);
    try (vm_compute; reflexivity).
  repeat split.
Defined.

(** [in out float x]: the parameter is accepted and its input modifier
    is [out]. *)
Lemma in_out_parameter :
  exists varType q1 varDecl q2 stmnt,
    ParseVarType (HLSL 2) false
      (parser_at src_float_x (last_Pos (MkSourcePos 1 1) src_in_out) 1)
    = Ok varType q1
    /\ ParseVarDecl (HLSL 2) q1 = Ok varDecl q2
    /\ ParseParameter (HLSL 2)
         (parser_at (src_in_out ++ src_float_x)%list (MkSourcePos 1 1) 0)
       = Ok stmnt q2
    /\ VarDeclStmnt_inputModifier stmnt = "out".
Proof.
  do 4 eexists.
  destruct (@last_input_modifier_wins 2
              [tok Tokens.InputModifier "in" 1] [] src_float_x
              (tok Tokens.InputModifier "out" 4) (MkSourcePos 1 1) 0
              (value_of (MkVarType (MkAST 0 (MkSourcePos 0 0)) "" None None)
                 (ParseVarType (HLSL 2) false
                    (parser_at src_float_x
                       (last_Pos (MkSourcePos 1 1) src_in_out) 1)))
              (value_of (MkVarDecl (MkAST 0 (MkSourcePos 0 0)) "" [] [] None None)
                 (ParseVarDecl (HLSL 2)
                    (state_of (parser_on [])
                       (ParseVarType (HLSL 2) false
                          (parser_at src_float_x
                             (last_Pos (MkSourcePos 1 1) src_in_out) 1)))))
              (state_of (parser_on [])
                 (ParseVarType (HLSL 2) false
                    (parser_at src_float_x
                       (last_Pos (MkSourcePos 1 1) src_in_out) 1)))
              (state_of (parser_on [])
                 (ParseVarDecl (HLSL 2)
                    (state_of (parser_on [])
                       (ParseVarType (HLSL 2) false
                          (parser_at src_float_x
                             (last_Pos (MkSourcePos 1 1) src_in_out) 1))))))
    as (stmnt & R & I & _).
  - repeat constructor.
  - reflexivity.
  - constructor.
  - reflexivity.
  - simpl. lia.
  - vm_compute; reflexivity.
  - vm_compute; reflexivity.
  - exists stmnt.
    split; [vm_compute; reflexivity|].
    split; [vm_compute; reflexivity|].
    split; [exact R|exact I].
Defined.

(** [[unroll] while (x) ;]: the loop is returned with the attribute on
    it.  [[unroll] { }]: the attribute is parsed and the block is
    returned as if it were not there. *)
Lemma unroll_before_while_and_block :
  (exists attribs p1 h condition bodyStmnt p',
      ParseAttributeList (HLSL 3) (parser_on src_attributed_while)
      = Ok attribs p1
      /\ length attribs = 1
      /\ takes_attribs (HLSLParser_Type p1) = true
      /\ ParseStmnt (HLSL 3) p1
         = Ok (WhileLoopStmnt h [] condition bodyStmnt) p'
      /\ ParseStmnt (HLSL 3) (parser_on src_attributed_while)
         = Ok (WhileLoopStmnt h attribs condition bodyStmnt) p')
  /\ (exists attribs p1,
      ParseAttributeList (HLSL 3) (parser_on src_attributed_block)
      = Ok attribs p1
      /\ length attribs = 1
      /\ takes_attribs (HLSLParser_Type p1) = false
      /\ ParseStmnt (HLSL 3) (parser_on src_attributed_block)
         = ParseStmnt (HLSL 3) p1
      /\ forall stmnt p',
          ParseStmnt (HLSL 3) (parser_on src_attributed_block) = Ok stmnt p' ->
          Stmnt_attribs stmnt = None).
Proof.
  split.
  - do 6 eexists.
    split; [vm_compute; reflexivity|].
    split; [reflexivity|].
    split; [reflexivity|].
    split; [vm_compute; reflexivity|].
    refine (proj1 (proj1 (proj1 (proj2
              (@attributes_kept_only_by_loops_if_switch 3
                 (parser_on src_attributed_while) _ _ _)) _)
              (WhileLoopStmnt _ [] _ _) _ _)).
    + vm_compute; reflexivity.
    + reflexivity.
    + vm_compute; reflexivity.
  - do 2 eexists.
    split; [vm_compute; reflexivity|].
    split; [reflexivity|].
    split; [reflexivity|].
    refine (proj2 (proj2 (@attributes_kept_only_by_loops_if_switch 3
                            (parser_on src_attributed_block) _ _ _)) _).
    + vm_compute; reflexivity.
    + reflexivity.
Defined.

(** * Further properties *)

(** ** Termination and progress *)

Lemma terminated_iff {A} (r : Result A) : terminated r <-> r <> OutOfFuel.
Proof. destruct r; simpl; split; try congruence; auto. Qed.

(** X1: the parser terminates on every token stream.  With a recursion
    budget of twice the number of tokens left, [ParseProgram],
    [ParseStmnt] and [ParseExpr] return or throw; a larger budget
    changes nothing about what [ParseProgram] does. *)
Theorem parser_terminates (p : HLSLParser) :
  terminated (ParseProgram (HLSL (2 * size p)) p)
  /\ terminated (ParseStmnt (HLSL (2 * size p)) p)
  /\ (forall allowComma initExpr,
        terminated (ParseExpr (HLSL (2 * size p)) allowComma initExpr p))
  /\ (forall n, 2 * size p <= n ->
        ParseProgram (HLSL n) p = ParseProgram (HLSL (2 * size p)) p).
Proof.
  split; [|split; [|split]].
  - apply terminated_iff, ParseProgram_terminates, le_n.
  - apply terminated_iff, ParseStmnt_terminates, le_n.
  - intros allowComma initExpr.
    apply terminated_iff, ParseExpr_terminates, le_n.
  - intros n Le. symmetry. apply ParseProgram_any_budget.
    apply ParseProgram_terminates, Le.
Qed.

(** X2: no declaration, statement or expression is parsed from nothing:
    whenever [ParseGlobalDecl], [ParseStmnt], or [ParseExpr] called
    without an initial expression returns, at least one token has been
    accepted.  [ParseExpr] called with an initial expression never goes
    back in the input, and returns that expression without accepting a
    token when nothing continues it. *)
Theorem productions_accept_a_token (n : nat) (p : HLSLParser) :
  (forall d q, ParseGlobalDecl (HLSL n) p = Ok d q -> size q < size p)
  /\ (forall s q, ParseStmnt (HLSL n) p = Ok s q -> size q < size p)
  /\ (forall allowComma e q,
        ParseExpr (HLSL n) allowComma None p = Ok e q -> size q < size p)
  /\ (forall allowComma initExpr e q,
        ParseExpr (HLSL n) allowComma initExpr p = Ok e q ->
        size q <= size p)
  /\ (forall allowComma initExpr,
        ends_expression allowComma p ->
        ParseExpr (HLSL n) allowComma (Some initExpr) p = Ok initExpr p).
Proof.
  pose proof (HLSL_sizes_ok n) as S.
  split; [|split; [|split; [|split]]].
  - intros d q. apply (ParseGlobalDecl_strict S).
  - intros s q. apply (ParseStmnt_strict S).
  - intros allowComma e q. apply (ParseExpr_strict allowComma S).
  - intros allowComma initExpr e q.
    apply (ParseExpr_weak allowComma initExpr S).
  - intros allowComma initExpr (U & B & T & C). unfold ParseExpr.
    unfold bind at 1. unfold ret at 1.
    rewrite (@bind_Ok _ _ _ _ p initExpr p) by (apply IfM_false; exact U).
    rewrite (IfM_false _ _ _ _ B), (IfM_false _ _ _ _ T).
    rewrite IfM_false by exact C. reflexivity.
Qed.

(** ** What the parser throws *)

Lemma dg_ret {A} (a : A) : throws_diagnostics (ret a).
Proof. intros p w R. discriminate R. Qed.

Lemma dg_Make : throws_diagnostics Make.
Proof. intros p w R. discriminate R. Qed.

Lemma dg_AcceptIt : throws_diagnostics AcceptIt.
Proof. intros p w R. rewrite AcceptIt_eq in R. discriminate R. Qed.

Lemma dg_ErrorUnexpected {A} : throws_diagnostics (@ErrorUnexpected A).
Proof.
  intros p w R. injection R as <-. do 2 eexists.
  split; [reflexivity|]. right. eexists. reflexivity.
Qed.

Lemma dg_ErrorUnexpectedHint {A} (hint : string) :
  throws_diagnostics (@ErrorUnexpectedHint A hint).
Proof.
  intros p w R. injection R as <-. do 2 eexists.
  split; [reflexivity|]. right. eexists. reflexivity.
Qed.

Lemma dg_Error_void {A} :
  throws_diagnostics (@Error A "'void' type not allowed in this context").
Proof.
  intros p w R. injection R as <-. do 2 eexists.
  split; [reflexivity|]. left. reflexivity.
Qed.

Lemma dg_bind {A B} (c : M A) (k : A -> M B) :
  throws_diagnostics c -> (forall a, throws_diagnostics (k a)) ->
  throws_diagnostics (bind c k).
Proof.
  intros C K p w R. unfold bind in R. destruct (c p) as [a q| |] eqn:E.
  - eapply K. exact R.
  - injection R as <-. eapply C. exact E.
  - discriminate R.
Qed.

Lemma dg_IfM {A} (c : HLSLParser -> bool) (a b : M A) :
  throws_diagnostics a -> throws_diagnostics b ->
  throws_diagnostics (IfM c a b).
Proof.
  intros Ha Hb p w. unfold IfM. destruct (c p); [apply Ha|apply Hb].
Qed.

Lemma dg_Accept (type : Tokens.t) : throws_diagnostics (Accept type).
Proof.
  unfold Accept. apply dg_IfM; [apply dg_ErrorUnexpected|apply dg_AcceptIt].
Qed.

Lemma dg_AcceptSpell (type : Tokens.t) (spell : string) :
  throws_diagnostics (AcceptSpell type spell).
Proof.
  unfold AcceptSpell. apply dg_IfM; [apply dg_ErrorUnexpected|].
  apply dg_IfM; [|apply dg_AcceptIt].
  intros p w R. injection R as <-. do 2 eexists.
  split; [reflexivity|]. right. eexists. reflexivity.
Qed.

Lemma dg_Semi : throws_diagnostics Semi.
Proof. apply dg_Accept. Qed.

Lemma dg_at {A} (f : M A) p w :
  throws_diagnostics f -> f p = Throw w -> diagnostic w.
Proof. intros D. apply D. Qed.

Create HintDb diagnostics.

Ltac dg_leaf H :=
  first
    [ apply dg_ret | apply dg_Make | apply dg_AcceptIt
    | apply dg_Semi | apply dg_Accept | apply dg_AcceptSpell
    | apply dg_Error_void | apply dg_ErrorUnexpected
    | apply dg_ErrorUnexpectedHint
    | apply (dg_ParseExpr H)
    | apply (dg_ParsePrimaryExpr H)
    | apply (dg_ParseVarIdent H)
    | apply (dg_ParseStmnt H)
    | apply (dg_ParseVarDeclStmnt H)
    | apply (dg_loop_ParseProgram H)
    | apply (dg_loop_ParseParameter H)
    | apply (dg_loop_ParseSwitchCase H)
    | apply (dg_loop_ParseAttribute H)
    | apply (dg_loop_ParseVarDeclStmnt H)
    | apply (dg_loop_ParseVarDeclList H)
    | apply (dg_loop_ParseVarDeclStmntList H)
    | apply (dg_loop_ParseParameterList H)
    | apply (dg_loop_ParseStmntList H)
    | apply (dg_loop_ParseExprList H)
    | apply (dg_loop_ParseArrayDimensionList H)
    | apply (dg_loop_ParseVarSemanticList H)
    | apply (dg_loop_ParseAttributeList H)
    | apply (dg_loop_ParseSwitchCaseList H)
    | apply (dg_loop_ParseBufferDeclIdentList H)
    | solve [auto with diagnostics] ].

(** Every exit of a production by exception, along its shape. *)
Ltac dg H :=
  cbv zeta beta;
  lazymatch goal with
  | |- throws_diagnostics (bind _ _) => apply dg_bind; [dg H | intro; dg H]
  | |- throws_diagnostics (IfM _ _ _) => apply dg_IfM; dg H
  | |- throws_diagnostics (fun p => match HLSLParser_Type p with _ => _ end) =>
      let p := fresh "p" in
      let w := fresh "w" in
      intros p w; destruct (HLSLParser_Type p);
      match goal with
      | |- ?f p = Throw w -> _ => apply (@dg_at _ f); dg H
      end
  | |- _ (match ?x with _ => _ end) => destruct x; dg H
  | |- throws_diagnostics _ => dg_leaf H
  end.

Lemma ParseRegister_diagnostics parseColon : throws_diagnostics (ParseRegister parseColon).
Proof. unfold ParseRegister. dg tt. Qed.
#[local] Hint Resolve ParseRegister_diagnostics : diagnostics.

Lemma ParseSemantic_diagnostics : throws_diagnostics ParseSemantic.
Proof. unfold ParseSemantic. dg tt. Qed.
#[local] Hint Resolve ParseSemantic_diagnostics : diagnostics.

Lemma ParseBufferDeclIdent_diagnostics : throws_diagnostics ParseBufferDeclIdent.
Proof. unfold ParseBufferDeclIdent. dg tt. Qed.
#[local] Hint Resolve ParseBufferDeclIdent_diagnostics : diagnostics.

Lemma ParsePackOffset_diagnostics parseColon : throws_diagnostics (ParsePackOffset parseColon).
Proof. unfold ParsePackOffset. dg tt. Qed.
#[local] Hint Resolve ParsePackOffset_diagnostics : diagnostics.

Lemma ParseVarSemantic_diagnostics : throws_diagnostics ParseVarSemantic.
Proof. unfold ParseVarSemantic. dg tt. Qed.
#[local] Hint Resolve ParseVarSemantic_diagnostics : diagnostics.

Lemma ParseVarSemanticList_loop_diagnostics (s : Recursion) acc :
  diagnostics_ok s -> throws_diagnostics (ParseVarSemanticList_loop s acc).
Proof. intros H. unfold ParseVarSemanticList_loop. dg H. Qed.
#[local] Hint Resolve ParseVarSemanticList_loop_diagnostics : diagnostics.

Lemma ParseVarSemanticList_diagnostics (s : Recursion) :
  diagnostics_ok s -> throws_diagnostics (ParseVarSemanticList s).
Proof. intros H. unfold ParseVarSemanticList. dg H. Qed.
#[local] Hint Resolve ParseVarSemanticList_diagnostics : diagnostics.

Lemma ParseBufferDeclIdentList_loop_diagnostics (s : Recursion) acc :
  diagnostics_ok s -> throws_diagnostics (ParseBufferDeclIdentList_loop s acc).
Proof. intros H. unfold ParseBufferDeclIdentList_loop. dg H. Qed.
#[local] Hint Resolve ParseBufferDeclIdentList_loop_diagnostics : diagnostics.

Lemma ParseBufferDeclIdentList_diagnostics (s : Recursion) :
  diagnostics_ok s -> throws_diagnostics (ParseBufferDeclIdentList s).
Proof. intros H. unfold ParseBufferDeclIdentList. dg H. Qed.
#[local] Hint Resolve ParseBufferDeclIdentList_diagnostics : diagnostics.

Lemma ParseArrayDimension_diagnostics (s : Recursion) :
  diagnostics_ok s -> throws_diagnostics (ParseArrayDimension s).
Proof. intros H. unfold ParseArrayDimension. dg H. Qed.
#[local] Hint Resolve ParseArrayDimension_diagnostics : diagnostics.

Lemma ParseArrayDimensionList_loop_diagnostics (s : Recursion) acc :
  diagnostics_ok s -> throws_diagnostics (ParseArrayDimensionList_loop s acc).
Proof. intros H. unfold ParseArrayDimensionList_loop. dg H. Qed.
#[local] Hint Resolve ParseArrayDimensionList_loop_diagnostics : diagnostics.

Lemma ParseArrayDimensionList_diagnostics (s : Recursion) :
  diagnostics_ok s -> throws_diagnostics (ParseArrayDimensionList s).
Proof. intros H. unfold ParseArrayDimensionList. dg H. Qed.
#[local] Hint Resolve ParseArrayDimensionList_diagnostics : diagnostics.

Lemma ParseVarIdent_diagnostics (s : Recursion) :
  diagnostics_ok s -> throws_diagnostics (ParseVarIdent s).
Proof. intros H. unfold ParseVarIdent. dg H. Qed.
#[local] Hint Resolve ParseVarIdent_diagnostics : diagnostics.

Lemma ParseExprList_loop_diagnostics (s : Recursion) term allowLastComma acc :
  diagnostics_ok s -> throws_diagnostics (ParseExprList_loop s term allowLastComma acc).
Proof. intros H. unfold ParseExprList_loop. dg H. Qed.
#[local] Hint Resolve ParseExprList_loop_diagnostics : diagnostics.

Lemma ParseExprList_diagnostics (s : Recursion) term allowLastComma :
  diagnostics_ok s -> throws_diagnostics (ParseExprList s term allowLastComma).
Proof. intros H. unfold ParseExprList. dg H. Qed.
#[local] Hint Resolve ParseExprList_diagnostics : diagnostics.

Lemma ParseArgumentList_diagnostics (s : Recursion) :
  diagnostics_ok s -> throws_diagnostics (ParseArgumentList s).
Proof. intros H. unfold ParseArgumentList. dg H. Qed.
#[local] Hint Resolve ParseArgumentList_diagnostics : diagnostics.

Lemma ParseInitializerList_diagnostics (s : Recursion) :
  diagnostics_ok s -> throws_diagnostics (ParseInitializerList s).
Proof. intros H. unfold ParseInitializerList. dg H. Qed.
#[local] Hint Resolve ParseInitializerList_diagnostics : diagnostics.

Lemma ParseFunctionCall_diagnostics (s : Recursion) varIdent :
  diagnostics_ok s -> throws_diagnostics (ParseFunctionCall s varIdent).
Proof. intros H. unfold ParseFunctionCall. dg H. Qed.
#[local] Hint Resolve ParseFunctionCall_diagnostics : diagnostics.

Lemma ParseFunctionCallExpr_diagnostics (s : Recursion) varIdent :
  diagnostics_ok s -> throws_diagnostics (ParseFunctionCallExpr s varIdent).
Proof. intros H. unfold ParseFunctionCallExpr. dg H. Qed.
#[local] Hint Resolve ParseFunctionCallExpr_diagnostics : diagnostics.

Lemma ParseVarAccessExpr_diagnostics (s : Recursion) varIdent :
  diagnostics_ok s -> throws_diagnostics (ParseVarAccessExpr s varIdent).
Proof. intros H. unfold ParseVarAccessExpr. dg H. Qed.
#[local] Hint Resolve ParseVarAccessExpr_diagnostics : diagnostics.

Lemma ParseVarAccessOrFunctionCallExpr_diagnostics (s : Recursion) :
  diagnostics_ok s -> throws_diagnostics (ParseVarAccessOrFunctionCallExpr s).
Proof. intros H. unfold ParseVarAccessOrFunctionCallExpr. dg H. Qed.
#[local] Hint Resolve ParseVarAccessOrFunctionCallExpr_diagnostics : diagnostics.

Lemma ParseInitializerExpr_diagnostics (s : Recursion) :
  diagnostics_ok s -> throws_diagnostics (ParseInitializerExpr s).
Proof. intros H. unfold ParseInitializerExpr. dg H. Qed.
#[local] Hint Resolve ParseInitializerExpr_diagnostics : diagnostics.

Lemma ParseLiteralExpr_diagnostics : throws_diagnostics ParseLiteralExpr.
Proof. unfold ParseLiteralExpr. dg tt. Qed.
#[local] Hint Resolve ParseLiteralExpr_diagnostics : diagnostics.

Lemma ParseTypeNameOrFunctionCallExpr_diagnostics (s : Recursion) :
  diagnostics_ok s -> throws_diagnostics (ParseTypeNameOrFunctionCallExpr s).
Proof. intros H. unfold ParseTypeNameOrFunctionCallExpr. dg H. Qed.
#[local] Hint Resolve ParseTypeNameOrFunctionCallExpr_diagnostics : diagnostics.

Lemma ParseUnaryExpr_diagnostics (s : Recursion) :
  diagnostics_ok s -> throws_diagnostics (ParseUnaryExpr s).
Proof. intros H. unfold ParseUnaryExpr. dg H. Qed.
#[local] Hint Resolve ParseUnaryExpr_diagnostics : diagnostics.

Lemma ParseBracketOrCastExpr_diagnostics (s : Recursion) :
  diagnostics_ok s -> throws_diagnostics (ParseBracketOrCastExpr s).
Proof. intros H. unfold ParseBracketOrCastExpr. dg H. Qed.
#[local] Hint Resolve ParseBracketOrCastExpr_diagnostics : diagnostics.

Lemma ParsePrimaryExpr_diagnostics (s : Recursion) :
  diagnostics_ok s -> throws_diagnostics (ParsePrimaryExpr s).
Proof. intros H. unfold ParsePrimaryExpr. dg H. Qed.
#[local] Hint Resolve ParsePrimaryExpr_diagnostics : diagnostics.

Lemma ParseExpr_diagnostics (s : Recursion) allowComma initExpr :
  diagnostics_ok s -> throws_diagnostics (ParseExpr s allowComma initExpr).
Proof. intros H. unfold ParseExpr. dg H. Qed.
#[local] Hint Resolve ParseExpr_diagnostics : diagnostics.

Lemma ParseAttribute_loop_diagnostics (s : Recursion) acc :
  diagnostics_ok s -> throws_diagnostics (ParseAttribute_loop s acc).
Proof. intros H. unfold ParseAttribute_loop. dg H. Qed.
#[local] Hint Resolve ParseAttribute_loop_diagnostics : diagnostics.

Lemma ParseAttribute_diagnostics (s : Recursion) :
  diagnostics_ok s -> throws_diagnostics (ParseAttribute s).
Proof. intros H. unfold ParseAttribute. dg H. Qed.
#[local] Hint Resolve ParseAttribute_diagnostics : diagnostics.

Lemma ParseAttributeList_loop_diagnostics (s : Recursion) acc :
  diagnostics_ok s -> throws_diagnostics (ParseAttributeList_loop s acc).
Proof. intros H. unfold ParseAttributeList_loop. dg H. Qed.
#[local] Hint Resolve ParseAttributeList_loop_diagnostics : diagnostics.

Lemma ParseAttributeList_diagnostics (s : Recursion) :
  diagnostics_ok s -> throws_diagnostics (ParseAttributeList s).
Proof. intros H. unfold ParseAttributeList. dg H. Qed.
#[local] Hint Resolve ParseAttributeList_diagnostics : diagnostics.

Lemma ParseInitializer_diagnostics (s : Recursion) :
  diagnostics_ok s -> throws_diagnostics (ParseInitializer s).
Proof. intros H. unfold ParseInitializer. dg H. Qed.
#[local] Hint Resolve ParseInitializer_diagnostics : diagnostics.

Lemma ParseVarDecl_diagnostics (s : Recursion) :
  diagnostics_ok s -> throws_diagnostics (ParseVarDecl s).
Proof. intros H. unfold ParseVarDecl. dg H. Qed.
#[local] Hint Resolve ParseVarDecl_diagnostics : diagnostics.

Lemma ParseVarDeclList_loop_diagnostics (s : Recursion) acc :
  diagnostics_ok s -> throws_diagnostics (ParseVarDeclList_loop s acc).
Proof. intros H. unfold ParseVarDeclList_loop. dg H. Qed.
#[local] Hint Resolve ParseVarDeclList_loop_diagnostics : diagnostics.

Lemma ParseVarDeclList_diagnostics (s : Recursion) :
  diagnostics_ok s -> throws_diagnostics (ParseVarDeclList s).
Proof. intros H. unfold ParseVarDeclList. dg H. Qed.
#[local] Hint Resolve ParseVarDeclList_diagnostics : diagnostics.

Lemma ParseVarDeclStmntList_loop_diagnostics (s : Recursion) acc :
  diagnostics_ok s -> throws_diagnostics (ParseVarDeclStmntList_loop s acc).
Proof. intros H. unfold ParseVarDeclStmntList_loop. dg H. Qed.
#[local] Hint Resolve ParseVarDeclStmntList_loop_diagnostics : diagnostics.

Lemma ParseVarDeclStmntList_diagnostics (s : Recursion) :
  diagnostics_ok s -> throws_diagnostics (ParseVarDeclStmntList s).
Proof. intros H. unfold ParseVarDeclStmntList. dg H. Qed.
#[local] Hint Resolve ParseVarDeclStmntList_diagnostics : diagnostics.

Lemma ParseStructure_diagnostics (s : Recursion) :
  diagnostics_ok s -> throws_diagnostics (ParseStructure s).
Proof. intros H. unfold ParseStructure. dg H. Qed.
#[local] Hint Resolve ParseStructure_diagnostics : diagnostics.

Lemma ParseVarType_diagnostics (s : Recursion) parseVoidType :
  diagnostics_ok s -> throws_diagnostics (ParseVarType s parseVoidType).
Proof. intros H. unfold ParseVarType. dg H. Qed.
#[local] Hint Resolve ParseVarType_diagnostics : diagnostics.

Lemma ParseVarDeclStmnt_loop_diagnostics (s : Recursion) acc :
  diagnostics_ok s -> throws_diagnostics (ParseVarDeclStmnt_loop s acc).
Proof. intros H. unfold ParseVarDeclStmnt_loop. dg H. Qed.
#[local] Hint Resolve ParseVarDeclStmnt_loop_diagnostics : diagnostics.

Lemma ParseVarDeclStmnt_diagnostics (s : Recursion) :
  diagnostics_ok s -> throws_diagnostics (ParseVarDeclStmnt s).
Proof. intros H. unfold ParseVarDeclStmnt. dg H. Qed.
#[local] Hint Resolve ParseVarDeclStmnt_diagnostics : diagnostics.

Lemma ParseParameter_loop_diagnostics (s : Recursion) acc :
  diagnostics_ok s -> throws_diagnostics (ParseParameter_loop s acc).
Proof. intros H. unfold ParseParameter_loop. dg H. Qed.
#[local] Hint Resolve ParseParameter_loop_diagnostics : diagnostics.

Lemma ParseParameter_diagnostics (s : Recursion) :
  diagnostics_ok s -> throws_diagnostics (ParseParameter s).
Proof. intros H. unfold ParseParameter. dg H. Qed.
#[local] Hint Resolve ParseParameter_diagnostics : diagnostics.

Lemma ParseParameterList_loop_diagnostics (s : Recursion) acc :
  diagnostics_ok s -> throws_diagnostics (ParseParameterList_loop s acc).
Proof. intros H. unfold ParseParameterList_loop. dg H. Qed.
#[local] Hint Resolve ParseParameterList_loop_diagnostics : diagnostics.

Lemma ParseParameterList_diagnostics (s : Recursion) :
  diagnostics_ok s -> throws_diagnostics (ParseParameterList s).
Proof. intros H. unfold ParseParameterList. dg H. Qed.
#[local] Hint Resolve ParseParameterList_diagnostics : diagnostics.

Lemma ParseStmntList_loop_diagnostics (s : Recursion) acc :
  diagnostics_ok s -> throws_diagnostics (ParseStmntList_loop s acc).
Proof. intros H. unfold ParseStmntList_loop. dg H. Qed.
#[local] Hint Resolve ParseStmntList_loop_diagnostics : diagnostics.

Lemma ParseStmntList_diagnostics (s : Recursion) :
  diagnostics_ok s -> throws_diagnostics (ParseStmntList s).
Proof. intros H. unfold ParseStmntList. dg H. Qed.
#[local] Hint Resolve ParseStmntList_diagnostics : diagnostics.

Lemma ParseCodeBlock_diagnostics (s : Recursion) :
  diagnostics_ok s -> throws_diagnostics (ParseCodeBlock s).
Proof. intros H. unfold ParseCodeBlock. dg H. Qed.
#[local] Hint Resolve ParseCodeBlock_diagnostics : diagnostics.

Lemma ParseSwitchCase_loop_diagnostics (s : Recursion) acc :
  diagnostics_ok s -> throws_diagnostics (ParseSwitchCase_loop s acc).
Proof. intros H. unfold ParseSwitchCase_loop. dg H. Qed.
#[local] Hint Resolve ParseSwitchCase_loop_diagnostics : diagnostics.

Lemma ParseSwitchCase_diagnostics (s : Recursion) :
  diagnostics_ok s -> throws_diagnostics (ParseSwitchCase s).
Proof. intros H. unfold ParseSwitchCase. dg H. Qed.
#[local] Hint Resolve ParseSwitchCase_diagnostics : diagnostics.

Lemma ParseSwitchCaseList_loop_diagnostics (s : Recursion) acc :
  diagnostics_ok s -> throws_diagnostics (ParseSwitchCaseList_loop s acc).
Proof. intros H. unfold ParseSwitchCaseList_loop. dg H. Qed.
#[local] Hint Resolve ParseSwitchCaseList_loop_diagnostics : diagnostics.

Lemma ParseSwitchCaseList_diagnostics (s : Recursion) :
  diagnostics_ok s -> throws_diagnostics (ParseSwitchCaseList s).
Proof. intros H. unfold ParseSwitchCaseList. dg H. Qed.
#[local] Hint Resolve ParseSwitchCaseList_diagnostics : diagnostics.

Lemma ParseNullStmnt_diagnostics : throws_diagnostics ParseNullStmnt.
Proof. unfold ParseNullStmnt. dg tt. Qed.
#[local] Hint Resolve ParseNullStmnt_diagnostics : diagnostics.

Lemma ParseDirectiveStmnt_diagnostics : throws_diagnostics ParseDirectiveStmnt.
Proof. unfold ParseDirectiveStmnt. dg tt. Qed.
#[local] Hint Resolve ParseDirectiveStmnt_diagnostics : diagnostics.

Lemma ParseCodeBlockStmnt_diagnostics (s : Recursion) :
  diagnostics_ok s -> throws_diagnostics (ParseCodeBlockStmnt s).
Proof. intros H. unfold ParseCodeBlockStmnt. dg H. Qed.
#[local] Hint Resolve ParseCodeBlockStmnt_diagnostics : diagnostics.

Lemma ParseForLoopStmnt_diagnostics (s : Recursion) attribs :
  diagnostics_ok s -> throws_diagnostics (ParseForLoopStmnt s attribs).
Proof. intros H. unfold ParseForLoopStmnt. dg H. Qed.
#[local] Hint Resolve ParseForLoopStmnt_diagnostics : diagnostics.

Lemma ParseWhileLoopStmnt_diagnostics (s : Recursion) attribs :
  diagnostics_ok s -> throws_diagnostics (ParseWhileLoopStmnt s attribs).
Proof. intros H. unfold ParseWhileLoopStmnt. dg H. Qed.
#[local] Hint Resolve ParseWhileLoopStmnt_diagnostics : diagnostics.

Lemma ParseDoWhileLoopStmnt_diagnostics (s : Recursion) attribs :
  diagnostics_ok s -> throws_diagnostics (ParseDoWhileLoopStmnt s attribs).
Proof. intros H. unfold ParseDoWhileLoopStmnt. dg H. Qed.
#[local] Hint Resolve ParseDoWhileLoopStmnt_diagnostics : diagnostics.

Lemma ParseElseStmnt_diagnostics (s : Recursion) :
  diagnostics_ok s -> throws_diagnostics (ParseElseStmnt s).
Proof. intros H. unfold ParseElseStmnt. dg H. Qed.
#[local] Hint Resolve ParseElseStmnt_diagnostics : diagnostics.

Lemma ParseIfStmnt_diagnostics (s : Recursion) attribs :
  diagnostics_ok s -> throws_diagnostics (ParseIfStmnt s attribs).
Proof. intros H. unfold ParseIfStmnt. dg H. Qed.
#[local] Hint Resolve ParseIfStmnt_diagnostics : diagnostics.

Lemma ParseSwitchStmnt_diagnostics (s : Recursion) attribs :
  diagnostics_ok s -> throws_diagnostics (ParseSwitchStmnt s attribs).
Proof. intros H. unfold ParseSwitchStmnt. dg H. Qed.
#[local] Hint Resolve ParseSwitchStmnt_diagnostics : diagnostics.

Lemma ParseCtrlTransferStmnt_diagnostics : throws_diagnostics ParseCtrlTransferStmnt.
Proof. unfold ParseCtrlTransferStmnt. dg tt. Qed.
#[local] Hint Resolve ParseCtrlTransferStmnt_diagnostics : diagnostics.

Lemma ParseReturnStmnt_diagnostics (s : Recursion) :
  diagnostics_ok s -> throws_diagnostics (ParseReturnStmnt s).
Proof. intros H. unfold ParseReturnStmnt. dg H. Qed.
#[local] Hint Resolve ParseReturnStmnt_diagnostics : diagnostics.

Lemma ParseExprStmnt_diagnostics (s : Recursion) varIdent :
  diagnostics_ok s -> throws_diagnostics (ParseExprStmnt s varIdent).
Proof. intros H. unfold ParseExprStmnt. dg H. Qed.
#[local] Hint Resolve ParseExprStmnt_diagnostics : diagnostics.

Lemma ParseStructDeclOrVarDeclStmnt_diagnostics (s : Recursion) :
  diagnostics_ok s -> throws_diagnostics (ParseStructDeclOrVarDeclStmnt s).
Proof. intros H. unfold ParseStructDeclOrVarDeclStmnt. dg H. Qed.
#[local] Hint Resolve ParseStructDeclOrVarDeclStmnt_diagnostics : diagnostics.

Lemma ParseVarDeclOrAssignOrFunctionCallStmnt_diagnostics (s : Recursion) :
  diagnostics_ok s -> throws_diagnostics (ParseVarDeclOrAssignOrFunctionCallStmnt s).
Proof. intros H. unfold ParseVarDeclOrAssignOrFunctionCallStmnt. dg H. Qed.
#[local] Hint Resolve ParseVarDeclOrAssignOrFunctionCallStmnt_diagnostics : diagnostics.

Lemma ParseStmnt_diagnostics (s : Recursion) :
  diagnostics_ok s -> throws_diagnostics (ParseStmnt s).
Proof. intros H. unfold ParseStmnt. dg H. Qed.
#[local] Hint Resolve ParseStmnt_diagnostics : diagnostics.

Lemma ParseFunctionDecl_diagnostics (s : Recursion) :
  diagnostics_ok s -> throws_diagnostics (ParseFunctionDecl s).
Proof. intros H. unfold ParseFunctionDecl. dg H. Qed.
#[local] Hint Resolve ParseFunctionDecl_diagnostics : diagnostics.

Lemma ParseUniformBufferDecl_diagnostics (s : Recursion) :
  diagnostics_ok s -> throws_diagnostics (ParseUniformBufferDecl s).
Proof. intros H. unfold ParseUniformBufferDecl. dg H. Qed.
#[local] Hint Resolve ParseUniformBufferDecl_diagnostics : diagnostics.

Lemma ParseTextureDecl_diagnostics (s : Recursion) :
  diagnostics_ok s -> throws_diagnostics (ParseTextureDecl s).
Proof. intros H. unfold ParseTextureDecl. dg H. Qed.
#[local] Hint Resolve ParseTextureDecl_diagnostics : diagnostics.

Lemma ParseSamplerDecl_diagnostics (s : Recursion) :
  diagnostics_ok s -> throws_diagnostics (ParseSamplerDecl s).
Proof. intros H. unfold ParseSamplerDecl. dg H. Qed.
#[local] Hint Resolve ParseSamplerDecl_diagnostics : diagnostics.

Lemma ParseStructDecl_diagnostics (s : Recursion) :
  diagnostics_ok s -> throws_diagnostics (ParseStructDecl s).
Proof. intros H. unfold ParseStructDecl. dg H. Qed.
#[local] Hint Resolve ParseStructDecl_diagnostics : diagnostics.

Lemma ParseDirectiveDecl_diagnostics : throws_diagnostics ParseDirectiveDecl.
Proof. unfold ParseDirectiveDecl. dg tt. Qed.
#[local] Hint Resolve ParseDirectiveDecl_diagnostics : diagnostics.

Lemma ParseGlobalDecl_diagnostics (s : Recursion) :
  diagnostics_ok s -> throws_diagnostics (ParseGlobalDecl s).
Proof. intros H. unfold ParseGlobalDecl. dg H. Qed.
#[local] Hint Resolve ParseGlobalDecl_diagnostics : diagnostics.

Lemma ParseProgram_loop_diagnostics (s : Recursion) acc :
  diagnostics_ok s -> throws_diagnostics (ParseProgram_loop s acc).
Proof. intros H. unfold ParseProgram_loop. dg H. Qed.
#[local] Hint Resolve ParseProgram_loop_diagnostics : diagnostics.

Lemma ParseProgram_diagnostics (s : Recursion) :
  diagnostics_ok s -> throws_diagnostics (ParseProgram s).
Proof. intros H. unfold ParseProgram. dg H. Qed.
#[local] Hint Resolve ParseProgram_diagnostics : diagnostics.

Lemma HLSL_diagnostics_ok (n : nat) : diagnostics_ok (HLSL n).
Proof.
  induction n as [|n IH].
  - constructor; intros; intros p w R; discriminate R.
  - constructor; intros; cbn [HLSL call_ParseExpr call_ParsePrimaryExpr
      call_ParseVarIdent call_ParseStmnt call_ParseVarDeclStmnt
      loop_ParseProgram loop_ParseParameter loop_ParseSwitchCase
      loop_ParseAttribute loop_ParseVarDeclStmnt loop_ParseVarDeclList
      loop_ParseVarDeclStmntList loop_ParseParameterList loop_ParseStmntList
      loop_ParseExprList loop_ParseArrayDimensionList
      loop_ParseVarSemanticList loop_ParseAttributeList
      loop_ParseSwitchCaseList loop_ParseBufferDeclIdentList];
      auto with diagnostics.
Qed.

(** X3: every exception that leaves [ParseProgram], [ParseStmnt] or
    [ParseExpr] was thrown by [Error]: its message is
    [syntax error (L:C) : ] followed by an unexpected-token message or
    by the message about [void]. *)
Theorem every_exception_is_a_syntax_error
  (n : nat) (p : HLSLParser) (what : string) :
  ParseProgram (HLSL n) p = Throw what
  \/ ParseStmnt (HLSL n) p = Throw what
  \/ (exists allowComma initExpr,
        ParseExpr (HLSL n) allowComma initExpr p = Throw what) ->
  diagnostic what.
Proof.
  pose proof (HLSL_diagnostics_ok n) as D.
  intros [R|[R|(allowComma & initExpr & R)]].
  - eapply (ParseProgram_diagnostics D). exact R.
  - eapply (ParseStmnt_diagnostics D). exact R.
  - eapply (ParseExpr_diagnostics allowComma initExpr D). exact R.
Qed.

(** The exception on [struct { float a; } v;]. *)
Lemma anonymous_struct_is_a_syntax_error :
  ParseProgram (HLSL 1) (parser_on src_anonymous_struct)
  = Throw "syntax error (1:8) : unexpected token '{'"
  /\ diagnostic "syntax error (1:8) : unexpected token '{'".
Proof.
  assert (R : ParseProgram (HLSL 1) (parser_on src_anonymous_struct)
              = Throw "syntax error (1:8) : unexpected token '{'")
    by reflexivity.
  split; [exact R|].
  exact (@every_exception_is_a_syntax_error 1
           (parser_on src_anonymous_struct) _ (or_introl R)).
Defined.

(** ** Edges of the grammar *)

(** X4: a source without tokens is parsed to a [Program] without
    declarations, positioned where the scanner stands, and nothing is
    logged. *)
Theorem empty_source_is_an_empty_program
  (L : Type) (logger : Logger L) (SourceCode : Type)
  (ScanSource : SourceCode -> option HLSLScanner)
  (log_ : option L) (source : SourceCode) (sc : HLSLScanner) :
  ScanSource source = Some sc ->
  source_ sc = [] ->
  ParseSource ScanSource log_ source
  = (Some (MkProgram (MkAST 0 (pos_ sc)) []), log_).
Proof.
  intros S E. unfold ParseSource. rewrite S.
  destruct sc as [src last]. simpl in E. subst src. reflexivity.
Qed.

(** A scanner without tokens, and a recording sink. *)
Lemma empty_source_parses :
  ParseSource (L := list LogCall)
    (fun _ : unit => Some (MkScanner [] (MkSourcePos 1 1))) (Some []) tt
  = (Some (MkProgram (MkAST 0 (MkSourcePos 1 1)) []), Some []).
Proof.
  apply (@empty_source_is_an_empty_program (list LogCall) Recorder unit
           (fun _ => Some (MkScanner [] (MkSourcePos 1 1))) (Some []) tt
           (MkScanner [] (MkSourcePos 1 1))); reflexivity.
Defined.

(** X5: at the end of the input there is no statement and no member
    declaration: [ParseStmnt] and [ParseVarDeclStmnt] throw there, so a
    block or a member list that is never closed ends in a syntax error
    at the end of the input. *)
Theorem end_of_input_is_no_statement (n : nat) (p : HLSLParser) :
  Is Tokens.EndOfStream p = true ->
  ParseStmnt (HLSL n) p
  = Throw (unexpected_hint p "expected primary expression")
  /\ (forall stmnts,
        ParseStmntList_loop (HLSL (S n)) stmnts p
        = Throw (unexpected_hint p "expected primary expression"))
  /\ ParseVarDeclStmnt (HLSL n) p = Throw (unexpected p)
  /\ (forall members,
        ParseVarDeclStmntList_loop (HLSL (S n)) members p
        = Throw (unexpected p)).
Proof.
  intros E. apply Is_true_iff in E.
  assert (St : forall self, ParseStmnt self p
              = Throw (unexpected_hint p "expected primary expression")).
  { intros self. unfold ParseStmnt, bind, IfM, Is. rewrite E. simpl.
    unfold IsDataType, ParseExprStmnt, bind, Is. rewrite E. simpl.
    unfold ParseExpr, ParsePrimaryExpr, bind, IfM, IsLiteral, IsDataType,
      orb_, IsSpell, Is, HLSLParser_Type. simpl.
    unfold HLSLParser_Type in E. rewrite E. reflexivity. }
  assert (V : forall self, ParseVarDeclStmnt self p = Throw (unexpected p)).
  { intros self. unfold ParseVarDeclStmnt, bind. rewrite Make_eq.
    unfold ParseVarDeclStmnt_loop, IfM, IsDataType, Is, HLSLParser_Type.
    simpl. unfold HLSLParser_Type in E. rewrite E. reflexivity. }
  split; [apply St|]. split; [|split; [apply V|]].
  - intros stmnts. unfold ParseStmntList_loop, IfM, negb_, Is. rewrite E.
    simpl. unfold bind.
    change (call_ParseStmnt (HLSL (S n))) with (ParseStmnt (HLSL n)).
    rewrite St. reflexivity.
  - intros members. unfold ParseVarDeclStmntList_loop, IfM, negb_, Is.
    rewrite E. simpl. unfold bind.
    change (call_ParseVarDeclStmnt (HLSL (S n)))
      with (ParseVarDeclStmnt (HLSL n)).
    rewrite V. reflexivity.
Qed.

(** A statement list at the end of the input. *)
Lemma end_of_input_in_a_block :
  Is Tokens.EndOfStream (parser_on []) = true
  /\ ParseStmntList_loop (HLSL 1) [] (parser_on [])
     = Throw "syntax error (1:1) : unexpected token '' (expected primary expression)".
Proof.
  split; [reflexivity|].
  apply (proj1 (proj2 (@end_of_input_is_no_statement 0 (parser_on [])
                         eq_refl))).
Defined.

(** X6: at global scope a type and a name must be followed by [(]:
    whatever else follows, the [;] of a global variable for instance,
    is a syntax error at that token. *)
Theorem global_variable_is_rejected (self : Recursion) (p : HLSLParser) :
  (* [p1] is the parser behind the type, [p2] the one behind the name;
     the declaration and its return type have been made by then *)
  let p1 := after_AcceptIt (after_Make (after_Make p)) in
  let p2 := after_AcceptIt p1 in
  Is Tokens.ScalarType p || Is Tokens.VectorType p || Is Tokens.MatrixType p
  || Is Tokens.Ident p || Is Tokens.Void p = true ->
  Is Tokens.Ident p1 = true ->
  Is Tokens.LBracket p2 = false ->
  ParseGlobalDecl self p = Throw (unexpected p2).
Proof.
  intros p1 p2 T I B.
  assert (G : ParseGlobalDecl self p = ParseFunctionDecl self p).
  { unfold ParseGlobalDecl. unfold Is in T.
    destruct (HLSLParser_Type p); try reflexivity; discriminate T. }
  assert (A : Is Tokens.LParen p = false).
  { unfold Is in *. destruct (HLSLParser_Type p); try reflexivity;
      discriminate T. }
  assert (V : ParseVarType self true (after_Make p)
              = Ok (MkVarType (made (after_Make p)) (Spell (tkn_ p)) None None)
                   p1).
  { unfold ParseVarType, bind. rewrite Make_eq.
    unfold IfM, orb_, IsDataType. rewrite !Is_after_Make.
    destruct (Is Tokens.Void p) eqn:Vd.
    - rewrite AcceptIt_eq. reflexivity.
    - rewrite orb_false_r in T.
      replace (Is Tokens.Ident p
               || (Is Tokens.ScalarType p || Is Tokens.VectorType p
                   || Is Tokens.MatrixType p || Is Tokens.Texture p
                   || Is Tokens.Sampler p)) with true.
      + rewrite AcceptIt_eq. reflexivity.
      + symmetry. destruct (Is Tokens.Ident p); [reflexivity|].
        rewrite orb_false_r in T. rewrite T. reflexivity. }
  rewrite G. unfold ParseFunctionDecl. unfold bind at 1. rewrite Make_eq.
  unfold bind at 1. unfold ParseAttributeList, ParseAttributeList_loop.
  rewrite IfM_false by (rewrite Is_after_Make; exact A). unfold ret.
  rewrite (bind_Ok _ _ _ V).
  rewrite (bind_Ok _ _ _ (Accept_true _ _ I)).
  change (after_AcceptIt p1) with p2.
  unfold ParseParameterList, bind. rewrite (Accept_false _ _ B).
  reflexivity.
Qed.

(** [float x;] at global scope. *)
Lemma global_float_x_is_rejected :
  ParseGlobalDecl (HLSL 3) (parser_on src_global_variable)
  = Throw "syntax error (1:8) : unexpected token ';'".
Proof.
  apply (@global_variable_is_rejected (HLSL 3) (parser_on src_global_variable));
    reflexivity.
Defined.

(** X7: [void] is a type only where a return type is read:
    [ParseVarType(true)] accepts it; as the type of a parameter it is
    refused with a message of its own, and it starts neither a member
    declaration nor a statement. *)
Theorem void_only_as_return_type (self : Recursion) (p : HLSLParser) :
  Is Tokens.Void p = true ->
  ParseVarType self true p
  = Ok (MkVarType (made p) (Spell (tkn_ p)) None None)
       (after_AcceptIt (after_Make p))
  /\ ParseParameter self p
     = Throw ("syntax error (" ++ ToString (pos_ (scanner_ p))
              ++ ") : 'void' type not allowed in this context")
  /\ ParseVarDeclStmnt self p = Throw (unexpected p)
  /\ ParseStmnt self p
     = Throw (unexpected_hint p "expected primary expression").
Proof.
  intros V. pose proof V as E. apply Is_true_iff in E.
  unfold HLSLParser_Type in E.
  split; [|split; [|split]].
  - unfold ParseVarType, bind. rewrite Make_eq.
    rewrite IfM_true by (rewrite Is_after_Make; exact V).
    rewrite AcceptIt_eq. reflexivity.
  - unfold ParseParameter, bind. rewrite Make_eq.
    unfold ParseParameter_loop, IfM, Is, HLSLParser_Type. simpl.
    rewrite E. simpl.
    unfold ParseVarType, bind, IfM, Is, HLSLParser_Type. simpl.
    rewrite E. reflexivity.
  - unfold ParseVarDeclStmnt, bind. rewrite Make_eq.
    unfold ParseVarDeclStmnt_loop, IfM, IsDataType, Is, HLSLParser_Type.
    simpl. rewrite E. reflexivity.
  - unfold ParseStmnt, bind, IfM, Is, HLSLParser_Type. rewrite E. simpl.
    unfold IsDataType, ParseExprStmnt, bind, Is, HLSLParser_Type.
    rewrite E. simpl.
    unfold ParseExpr, ParsePrimaryExpr, bind, IfM, IsLiteral, IsDataType,
      orb_, IsSpell, Is, HLSLParser_Type. simpl.
    rewrite E. reflexivity.
Qed.

(** [void] as the type of a parameter. *)
Lemma void_parameter_is_rejected :
  Is Tokens.Void (parser_on src_void) = true
  /\ ParseParameter (HLSL 1) (parser_on src_void)
     = Throw "syntax error (1:1) : 'void' type not allowed in this context".
Proof.
  split; [reflexivity|].
  apply (proj1 (proj2 (@void_only_as_return_type (HLSL 1) (parser_on src_void)
                         eq_refl))).
Defined.

(** X8: a statement that starts with an identifier path must go on with
    [(], an assignment operator, a postfix operator or, behind a single
    identifier, a declarator: at any other token, as in [x;], [x + 1;]
    or [a.b;], [ParseStmnt] throws. *)
Theorem identifier_alone_is_no_statement
  (self : Recursion) (p p1 : HLSLParser) (varIdent : VarIdent) :
  Is Tokens.Ident p = true ->
  ParseVarIdent self p = Ok varIdent p1 ->
  Is Tokens.LBracket p1 = false ->
  Is Tokens.AssignOp p1 = false ->
  Is Tokens.UnaryOp p1 = false ->
  Is Tokens.Ident p1 = false ->
  ParseStmnt self p
  = Throw (match VarIdent_next varIdent with
           | None => unexpected p1
           | Some _ =>
               unexpected_hint p1
                 "expected variable declaration, assignment or function call statement"
           end).
Proof.
  intros I V B A U N.
  rewrite (ParseStmnt_Ident _ _ I).
  unfold ParseVarDeclOrAssignOrFunctionCallStmnt.
  rewrite (bind_Ok _ _ _ V).
  rewrite (IfM_false _ _ _ _ B), (IfM_false _ _ _ _ A).
  rewrite IfM_false by (unfold orb_, IsSpell; fold (Is Tokens.UnaryOp p1);
                        rewrite U; reflexivity).
  destruct (VarIdent_next varIdent); [reflexivity|].
  unfold bind at 1. rewrite Make_eq. unfold bind at 1. rewrite Make_eq.
  unfold ParseVarDeclList, ParseVarDeclList_loop, ParseVarDecl.
  unfold bind at 1. unfold bind at 1. unfold bind at 1. rewrite Make_eq.
  unfold bind at 1. rewrite Accept_false by exact N. reflexivity.
Qed.

(** [a.b;] *)
Lemma member_access_is_no_statement :
  Is Tokens.Ident (parser_on src_member) = true
  /\ ParseStmnt (HLSL 2) (parser_on src_member)
     = Throw "syntax error (1:4) : unexpected token ';' (expected variable declaration, assignment or function call statement)".
Proof.
  split; [reflexivity|].
  eapply eq_trans.
  - eapply (@identifier_alone_is_no_statement (HLSL 2) (parser_on src_member));
      [reflexivity|vm_compute; reflexivity|reflexivity..].
  - vm_compute. reflexivity.
Defined.



(** ** Entries of argument lists *)

Lemma ParsePrimaryExpr_no_list (self : Recursion) p e q :
  ParsePrimaryExpr self p = Ok e q -> is_ListExpr e = false.
Proof.
  intros R. unfold ParsePrimaryExpr in R. run_inv R.
  - unfold ParseLiteralExpr in R. run_inv R. reflexivity.
  - unfold ParseTypeNameOrFunctionCallExpr in R. run_inv R;
      [unfold ParseFunctionCallExpr in R; run_inv R|]; reflexivity.
  - unfold ParseUnaryExpr in R. run_inv R. reflexivity.
  - unfold ParseBracketOrCastExpr in R. run_inv R; reflexivity.
  - unfold ParseInitializerExpr in R. run_inv R. reflexivity.
  - unfold ParseVarAccessOrFunctionCallExpr in R. run_inv R.
    + unfold ParseFunctionCallExpr in R. run_inv R. reflexivity.
    + unfold ParseVarAccessExpr in R. run_inv R; reflexivity.
Qed.

Lemma ParseExpr_no_list (self : Recursion) p e q :
  ParseExpr self false None p = Ok e q -> is_ListExpr e = false.
Proof.
  intros R. unfold ParseExpr in R. run_inv R; try reflexivity;
    try discriminate.
  run_inv Ha0; [reflexivity|].
  eapply ParsePrimaryExpr_no_list; eassumption.
Qed.

Lemma ParseExprList_loop_no_list (n : nat) :
  forall term allowLastComma acc p exprs q,
    ParseExprList_loop (HLSL n) term allowLastComma acc p = Ok exprs q ->
    Forall (fun e => is_ListExpr e = false) acc ->
    Forall (fun e => is_ListExpr e = false) exprs.
Proof.
  induction n as [|n IH]; intros term allowLastComma acc p exprs q R F.
  - unfold ParseExprList_loop in R. bind_inv R. discriminate Ha.
  - unfold ParseExprList_loop in R. bind_inv R.
    change (call_ParseExpr (HLSL (S n))) with (ParseExpr (HLSL n)) in Ha.
    apply ParseExpr_no_list in Ha.
    assert (F' : Forall (fun e => is_ListExpr e = false) (push_back acc a)).
    { apply Forall_app. split; [exact F|]. constructor; [exact Ha|constructor]. }
    run_inv R; try exact F'.
    change (loop_ParseExprList (HLSL (S n)))
      with (ParseExprList_loop (HLSL n)) in R.
    eapply IH; eassumption.
Qed.

(** X10: no entry of an argument list or of an initializer list is a
    [ListExpr]: the entries are read without the comma operator. *)
Theorem no_entry_is_a_comma_list
  (n : nat) (p q : HLSLParser) (arguments : list Expr) :
  ParseArgumentList (HLSL n) p = Ok arguments q
  \/ ParseInitializerList (HLSL n) p = Ok arguments q ->
  Forall (fun e => is_ListExpr e = false) arguments.
Proof.
  intros [R|R]; [unfold ParseArgumentList in R|unfold ParseInitializerList in R];
    run_inv R; unfold ParseExprList in Ha0; run_inv Ha0;
    try constructor;
    eapply ParseExprList_loop_no_list; try eassumption; constructor.
Qed.

(** [(1, 2)] is a list of two arguments. *)
Lemma two_arguments_are_two :
  exists arguments q,
    ParseArgumentList (HLSL 3) (parser_on src_arguments) = Ok arguments q
    /\ length arguments = 2
    /\ Forall (fun e => is_ListExpr e = false) arguments.
Proof.
  do 2 eexists. split; [vm_compute; reflexivity|].
  split; [reflexivity|].
  refine (@no_entry_is_a_comma_list 3 (parser_on src_arguments) _ _
            (or_introl _)).
  vm_compute. reflexivity.
Defined.

(** ** A comma behind a binary operator *)

Lemma ParseExpr_comma (self : Recursion) p b p3 :
  ParsePrimaryExpr self p = Ok b p3 ->
  Is Tokens.Comma p3 = true ->
  ParseExpr self true None p =
    match call_ParseExpr self true None (after_Make (after_AcceptIt p3)) with
    | Ok nextExpr q => Ok (ListExpr (made (after_AcceptIt p3)) b nextExpr) q
    | Throw w => Throw w
    | OutOfFuel => OutOfFuel
    end.
Proof.
  intros P C. unfold ParseExpr. rewrite (bind_Ok _ _ _ P).
  apply Is_true_iff in C.
  assert (U : Is Tokens.UnaryOp p3 = false)
    by (apply Is_false_iff; rewrite C; discriminate).
  assert (B : Is Tokens.BinaryOp p3 = false)
    by (apply Is_false_iff; rewrite C; discriminate).
  assert (T : Is Tokens.TernaryOp p3 = false)
    by (apply Is_false_iff; rewrite C; discriminate).
  apply Is_true_iff in C.
  rewrite (@bind_Ok _ _ _ _ p3 b p3) by (apply IfM_false; exact U).
  rewrite (IfM_false _ _ _ _ B), (IfM_false _ _ _ _ T).
  rewrite IfM_true by (rewrite C; reflexivity).
  unfold bind. rewrite AcceptIt_eq, Make_eq.
  destruct (call_ParseExpr self true None (after_Make (after_AcceptIt p3)));
    reflexivity.
Qed.

(** X11: a comma list behind a binary operator becomes the operator's
    right operand: where commas are allowed, [a op b , c] is parsed as
    [BinaryExpr{op, a, ListExpr{b, c}}]. *)
Theorem comma_list_is_the_right_operand
  (n : nat) (p p1 p3 p5 : HLSLParser) (a b c : Expr) :
  ParsePrimaryExpr (HLSL n) p = Ok a p1 ->
  Is Tokens.BinaryOp p1 = true ->
  ParsePrimaryExpr (HLSL n) (after_operator p1) = Ok b p3 ->
  Is Tokens.Comma p3 = true ->
  ParsePrimaryExpr (HLSL n) (after_Make (after_AcceptIt p3)) = Ok c p5 ->
  ends_expression true p5 ->
  ParseExpr (HLSL (2 + n)) true None p
  = Ok (BinaryExpr (made p1) a (Spell (tkn_ p1))
          (ListExpr (made (after_AcceptIt p3)) b c)) p5.
Proof.
  intros A B1 B C3 C E.
  apply (more_fuel ParsePrimaryExpr (m := 2 + n)) in A;
    [|apply ParsePrimaryExpr_mono|lia].
  apply (more_fuel ParsePrimaryExpr (m := 1 + n)) in B;
    [|apply ParsePrimaryExpr_mono|lia].
  rewrite (ParseExpr_binary _ true _ A B1).
  change (call_ParseExpr (HLSL (2 + n))) with (ParseExpr (HLSL (1 + n))).
  rewrite (ParseExpr_comma _ _ B C3).
  change (call_ParseExpr (HLSL (1 + n))) with (ParseExpr (HLSL n)).
  rewrite (ParseExpr_primary _ _ C E). reflexivity.
Qed.

(** [a + b, c] is the sum of [a] and the list [b, c]. *)
Lemma sum_then_comma :
  exists a p1 b p3 c p5,
    ParsePrimaryExpr (HLSL 1) (parser_on src_sum_comma) = Ok a p1
    /\ Is Tokens.BinaryOp p1 = true
    /\ ParsePrimaryExpr (HLSL 1) (after_operator p1) = Ok b p3
    /\ Is Tokens.Comma p3 = true
    /\ ParsePrimaryExpr (HLSL 1) (after_Make (after_AcceptIt p3)) = Ok c p5
    /\ ends_expression true p5
    /\ Spell (tkn_ p1) = "+"
    /\ ParseExpr (HLSL 3) true None (parser_on src_sum_comma)
       = Ok (BinaryExpr (made p1) a "+"
               (ListExpr (made (after_AcceptIt p3)) b c)) p5.
Proof.
  do 6 eexists.
  split; [vm_compute; reflexivity|].
  split; [reflexivity|].
  split; [vm_compute; reflexivity|].
  split; [reflexivity|].
  split; [vm_compute; reflexivity|].
  split; [repeat split|].
  split; [reflexivity|].
  refine (@comma_list_is_the_right_operand 1 _ _ _ _ _ _ _ _ _ _ _ _ _);
    try (vm_compute; reflexivity).
  repeat split.
Defined.

(** ** Declarators and their statement *)

Lemma ParseVarDeclList_loop_grows (n : nat) :
  forall acc p ds q,
    ParseVarDeclList_loop (HLSL n) acc p = Ok ds q -> length acc < length ds.
Proof.
  induction n as [|n IH]; intros acc p ds q R;
    unfold ParseVarDeclList_loop in R; bind_inv R; run_inv R;
    try discriminate R;
    try (unfold push_back; rewrite length_app; simpl; lia).
  change (loop_ParseVarDeclList (HLSL (S n)))
    with (ParseVarDeclList_loop (HLSL n)) in R.
  apply IH in R. unfold push_back in R. rewrite length_app in R.
  simpl in R. lia.
Qed.

Lemma decorated_varDecls (h : AST) (varDecls : list VarDecl) :
  0 < length varDecls ->
  (exists v vs, map (set_declStmntRef (Some (addr h))) varDecls = v :: vs)
  /\ Forall (fun v => declStmntRef v = Some (addr h))
            (map (set_declStmntRef (Some (addr h))) varDecls).
Proof.
  intros N. split.
  - destruct varDecls as [|v vs]; [simpl in N; lia|]. simpl. eauto.
  - apply Forall_map, Forall_forall. intros v _. reflexivity.
Qed.

Lemma ParseVarDeclStmnt_decorated (n : nat) p s q :
  ParseVarDeclStmnt (HLSL n) p = Ok s q ->
  (exists v vs, VarDeclStmnt_varDecls s = v :: vs)
  /\ Forall (fun v => declStmntRef v = VarDeclStmnt_get s)
            (VarDeclStmnt_varDecls s).
Proof.
  intros R. unfold ParseVarDeclStmnt in R. run_inv R.
  apply decorated_varDecls.
  unfold ParseVarDeclList in Ha1. apply ParseVarDeclList_loop_grows in Ha1.
  simpl in Ha1. exact Ha1.
Qed.

(** X12: a [VarDeclStmnt] returned for a statement that starts neither
    with an attribute list nor with [struct] has at least one
    declarator, and each of its declarators points back to it. *)
Theorem declarations_point_to_their_statement
  (n : nat) (p q : HLSLParser) (s : VarDeclStmnt) :
  ParseStmnt (HLSL n) p = Ok (StmntVarDecl s) q ->
  Is Tokens.LParen p = false ->
  Is Tokens.Struct p = false ->
  (exists v vs, VarDeclStmnt_varDecls s = v :: vs)
  /\ Forall (fun v => declStmntRef v = VarDeclStmnt_get s)
            (VarDeclStmnt_varDecls s).
Proof.
  intros R A S. unfold ParseStmnt in R.
  rewrite (@bind_Ok _ _ _ _ p [] p) in R by (apply IfM_false; exact A).
  apply Is_false_iff in S.
  destruct (HLSLParser_Type p) eqn:T; try (elim S; reflexivity);
    try (match type of R with
         | IfM IsDataType _ _ _ = _ =>
             unfold IfM in R; destruct (IsDataType p)
         end);
    try (bind_inv R; unfold ret in R; injection R as <- <-;
         eapply ParseVarDeclStmnt_decorated; eassumption).
  all: try (unfold ParseExprStmnt in R; run_inv R; discriminate R).
  all: try (unfold ParseIfStmnt, ParseSwitchStmnt, ParseForLoopStmnt,
              ParseWhileLoopStmnt, ParseDoWhileLoopStmnt, ParseReturnStmnt,
              ParseCtrlTransferStmnt, ParseNullStmnt, ParseDirectiveStmnt,
              ParseCodeBlockStmnt in R;
            run_inv R; discriminate R).
  unfold ParseVarDeclOrAssignOrFunctionCallStmnt in R. run_inv R;
    try discriminate R;
    try (unfold ParseExprStmnt in R; run_inv R; discriminate R).
  apply decorated_varDecls.
  match goal with
  | V : ParseVarDeclList _ _ = Ok _ _ |- _ =>
      unfold ParseVarDeclList in V; apply ParseVarDeclList_loop_grows in V;
      simpl in V; exact V
  end.
Qed.

(** [float x;] as a statement. *)
Lemma float_x_points_to_its_statement :
  exists s q v,
    ParseStmnt (HLSL 2) (parser_on src_global_variable) = Ok (StmntVarDecl s) q
    /\ VarDeclStmnt_varDecls s = [v]
    /\ declStmntRef v = VarDeclStmnt_get s
    /\ Forall (fun v => declStmntRef v = VarDeclStmnt_get s)
              (VarDeclStmnt_varDecls s).
Proof.
  do 3 eexists. split; [vm_compute; reflexivity|].
  split; [reflexivity|]. split; [reflexivity|].
  refine (proj2 (@declarations_point_to_their_statement 2
                   (parser_on src_global_variable) _ _ _ eq_refl eq_refl)).
  vm_compute. reflexivity.
Defined.

(** ** Where the back-pointers stay null *)

Lemma ParseVarDecl_fresh (self : Recursion) p v q :
  ParseVarDecl self p = Ok v q -> declStmntRef v = None.
Proof. intros R. unfold ParseVarDecl in R. run_inv R; reflexivity. Qed.

Lemma ParseVarDeclList_loop_fresh (n : nat) :
  forall acc p ds q,
    ParseVarDeclList_loop (HLSL n) acc p = Ok ds q ->
    Forall (fun v => declStmntRef v = None) acc ->
    Forall (fun v => declStmntRef v = None) ds.
Proof.
  induction n as [|n IH]; intros acc p ds q R F;
    unfold ParseVarDeclList_loop in R; bind_inv R;
    apply ParseVarDecl_fresh in Ha;
    assert (F' : Forall (fun v => declStmntRef v = None) (push_back acc a))
      by (apply Forall_app; split; [exact F|constructor; [exact Ha|constructor]]);
    run_inv R; try discriminate R; try exact F'.
  change (loop_ParseVarDeclList (HLSL (S n)))
    with (ParseVarDeclList_loop (HLSL n)) in R.
  eapply IH; eassumption.
Qed.

(** X13: the [VarDeclStmnt] of a function parameter, and the one of a
    variable declared behind a structure in statement position, has at
    least one declarator, and none of its declarators has a
    [declStmntRef]. *)
Theorem parameters_and_struct_variables_are_left_undecorated
  (n : nat) (p q : HLSLParser) (s : VarDeclStmnt) :
  ParseParameter (HLSL n) p = Ok s q
  \/ ParseStructDeclOrVarDeclStmnt (HLSL n) p = Ok (StmntVarDecl s) q ->
  (exists v vs, VarDeclStmnt_varDecls s = v :: vs)
  /\ Forall (fun v => declStmntRef v = None) (VarDeclStmnt_varDecls s).
Proof.
  intros [R|R].
  - unfold ParseParameter in R. run_inv R.
    match goal with
    | V : ParseVarDecl _ _ = Ok _ _ |- _ => apply ParseVarDecl_fresh in V
    end.
    split; [eexists _, []; reflexivity|].
    apply Forall_cons; [assumption|apply Forall_nil].
  - unfold ParseStructDeclOrVarDeclStmnt in R. run_inv R; [|discriminate R].
    match goal with
    | V : ParseVarDeclList _ _ = Ok _ _ |- _ =>
        unfold ParseVarDeclList in V;
        pose proof (ParseVarDeclList_loop_grows _ _ _ V) as G;
        apply ParseVarDeclList_loop_fresh in V; [|constructor]
    end.
    split; [|assumption]. simpl in *.
    match goal with
    | |- exists v vs, ?l = _ => destruct l; [simpl in G; lia|eauto]
    end.
Qed.

(** The parameter [in out float x]. *)
Lemma in_float_x_is_left_undecorated :
  exists s q v,
    ParseParameter (HLSL 2)
      (parser_at (src_in_out ++ src_float_x)%list (MkSourcePos 1 1) 0)
    = Ok s q
    /\ VarDeclStmnt_varDecls s = [v]
    /\ Forall (fun v => declStmntRef v = None) (VarDeclStmnt_varDecls s).
Proof.
  do 3 eexists. split; [vm_compute; reflexivity|].
  split; [reflexivity|].
  refine (proj2 (@parameters_and_struct_variables_are_left_undecorated 2
                   (parser_at (src_in_out ++ src_float_x)%list
                      (MkSourcePos 1 1) 0)
                   _ _ (or_introl _))).
  vm_compute. reflexivity.
Defined.

Lemma ParseVarDeclStmnt_loop_symbolRef (n : nat) :
  forall mods p typeModifiers storageModifiers varType q,
    ParseVarDeclStmnt_loop (HLSL n) mods p
    = Ok (typeModifiers, storageModifiers, varType) q ->
    VarType_symbolRef varType = None.
Proof.
  induction n as [|n IH]; intros [tm sm] p typeModifiers storageModifiers
    varType q R; unfold ParseVarDeclStmnt_loop in R; run_inv R;
    try discriminate R; try (simpl in R; discriminate R);
    subst; try reflexivity;
    eapply IH; exact R.
Qed.

Lemma ParseVarDeclStmnt_symbolRef (n : nat) p s q :
  ParseVarDeclStmnt (HLSL n) p = Ok s q ->
  VarType_symbolRef (VarDeclStmnt_varType s) = None.
Proof.
  intros R. unfold ParseVarDeclStmnt in R. bind_inv R. bind_inv R.
  destruct a0 as [[tm sm] vt].
  apply ParseVarDeclStmnt_loop_symbolRef in Ha0.
  run_inv R. exact Ha0.
Qed.

(** X14: [symbolRef] is set by [ParseVarType] alone, to the structure
    the type owns; the type of a [VarDeclStmnt] built by
    [ParseVarDeclStmnt] or returned by [ParseStmnt] has a null
    [symbolRef], with or without a structure. *)
Theorem symbolRef_is_set_by_ParseVarType_alone
  (n : nat) (p q : HLSLParser) :
  (forall parseVoidType t,
      ParseVarType (HLSL n) parseVoidType p = Ok t q ->
      VarType_symbolRef t
      = match VarType_structType t with
        | Some st => Structure_get st
        | None => None
        end)
  /\ (forall s,
        ParseVarDeclStmnt (HLSL n) p = Ok s q ->
        VarType_symbolRef (VarDeclStmnt_varType s) = None)
  /\ (forall s,
        ParseStmnt (HLSL n) p = Ok (StmntVarDecl s) q ->
        VarType_symbolRef (VarDeclStmnt_varType s) = None).
Proof.
  split; [|split].
  - intros parseVoidType t R. unfold ParseVarType in R.
    run_inv R; try reflexivity; discriminate R.
  - intros s. apply ParseVarDeclStmnt_symbolRef.
  - intros s R. unfold ParseStmnt in R. bind_inv R.
    destruct (HLSLParser_Type q0) eqn:T;
      try (match type of R with
           | IfM IsDataType _ _ _ = _ =>
               unfold IfM in R; destruct (IsDataType q0)
           end);
      try (bind_inv R; unfold ret in R; injection R as <- <-;
           eapply ParseVarDeclStmnt_symbolRef; eassumption).
    all: try (unfold ParseExprStmnt in R; run_inv R; discriminate R).
    all: try (unfold ParseIfStmnt, ParseSwitchStmnt, ParseForLoopStmnt,
                ParseWhileLoopStmnt, ParseDoWhileLoopStmnt, ParseReturnStmnt,
                ParseCtrlTransferStmnt, ParseNullStmnt, ParseDirectiveStmnt,
                ParseCodeBlockStmnt in R;
              run_inv R; discriminate R).
    + unfold ParseVarDeclOrAssignOrFunctionCallStmnt in R. run_inv R;
        try discriminate R;
        try (unfold ParseExprStmnt in R; run_inv R; discriminate R).
      reflexivity.
    + unfold ParseStructDeclOrVarDeclStmnt in R. run_inv R;
        try discriminate R. reflexivity.
Qed.

(** ** The dangling else *)

(** X15: an [else] belongs to the nearest [if]: an [IfStmnt] is
    returned without [elseStmnt] only when the token that follows is no
    [else]. *)
Theorem else_belongs_to_the_nearest_if
  (n : nat) (attribs : list FunctionCall) (p q : HLSLParser)
  (h : AST) (a : list FunctionCall) (condition : Expr) (bodyStmnt : Stmnt) :
  ParseIfStmnt (HLSL n) attribs p = Ok (IfStmnt h a condition bodyStmnt None) q ->
  Is Tokens.Else q = false.
Proof.
  intros R. unfold ParseIfStmnt in R. run_inv R; subst;
    [discriminate|assumption].
Qed.

(** [if (a) if (b) ; else ;]: the inner [if] has the [else]. *)
Lemma if_if_else_has_one_else :
  exists h a condition h' a' condition' bodyStmnt elseStmnt q,
    ParseIfStmnt (HLSL 4) [] (parser_on src_if_if_else)
    = Ok (IfStmnt h a condition
            (IfStmnt h' a' condition' bodyStmnt (Some elseStmnt)) None) q
    /\ Is Tokens.Else q = false.
Proof.
  do 9 eexists.
  assert (R : ParseIfStmnt (HLSL 4) [] (parser_on src_if_if_else)
              = Ok (IfStmnt _ _ _ (IfStmnt _ _ _ _ (Some _)) None) _)
    by (vm_compute; reflexivity).
  split; [exact R|].
  exact (else_belongs_to_the_nearest_if _ _ _ R).
Defined.


(** ** Where the lists of statements end *)

Lemma ParseStmntList_loop_stops (n : nat) :
  forall acc p stmnts q,
    ParseStmntList_loop (HLSL n) acc p = Ok stmnts q ->
    Is Tokens.RCurly q = true.
Proof.
  induction n as [|n IH]; intros acc p stmnts q R;
    unfold ParseStmntList_loop, IfM, negb_ in R;
    destruct (Is Tokens.RCurly p) eqn:C; simpl in R.
  - injection R as _ <-. exact C.
  - bind_inv R. discriminate Ha.
  - injection R as _ <-. exact C.
  - bind_inv R. apply IH in R. exact R.
Qed.

Lemma ParseSwitchCase_loop_stops (n : nat) :
  forall acc p stmnts q,
    ParseSwitchCase_loop (HLSL n) acc p = Ok stmnts q ->
    Is Tokens.Case q || Is Tokens.Default q || Is Tokens.RCurly q = true.
Proof.
  induction n as [|n IH]; intros acc p stmnts q R;
    unfold ParseSwitchCase_loop, IfM in R;
    destruct (Is Tokens.Case p) eqn:C1; destruct (Is Tokens.Default p) eqn:C2;
    destruct (Is Tokens.RCurly p) eqn:C3; simpl in R;
    try (injection R as _ <-; rewrite C1, C2, C3; reflexivity);
    bind_inv R; try discriminate Ha.
  apply IH in R. exact R.
Qed.

Lemma ParseSwitchCaseList_loop_stops (n : nat) :
  forall acc p cases q,
    ParseSwitchCaseList_loop (HLSL n) acc p = Ok cases q ->
    Is Tokens.Case q || Is Tokens.Default q = false.
Proof.
  induction n as [|n IH]; intros acc p cases q R;
    unfold ParseSwitchCaseList_loop, IfM, orb_ in R;
    destruct (Is Tokens.Case p || Is Tokens.Default p) eqn:C.
  - bind_inv R. discriminate R.
  - injection R as _ <-. exact C.
  - bind_inv R. apply IH in R. exact R.
  - injection R as _ <-. exact C.
Qed.


(** ** A postfix operator behind a prefix operator *)



(** ** The printer on every tree *)

(** Induction on expressions, variable identifiers and function calls
    that reaches the expressions held in lists and behind optional
    pointers. *)
Section Expr_nested_induction.

Variable P : Expr -> Prop.
Variable Pv : VarIdent -> Prop.
Variable Pc : FunctionCall -> Prop.

Hypothesis H_ListExpr : forall h a b, P a -> P b -> P (ListExpr h a b).
Hypothesis H_LiteralExpr : forall h s, P (LiteralExpr h s).
Hypothesis H_TypeNameExpr : forall h s, P (TypeNameExpr h s).
Hypothesis H_TernaryExpr :
  forall h c a b, P c -> P a -> P b -> P (TernaryExpr h c a b).
Hypothesis H_BinaryExpr :
  forall h a op b, P a -> P b -> P (BinaryExpr h a op b).
Hypothesis H_UnaryExpr : forall h op a, P a -> P (UnaryExpr h op a).
Hypothesis H_PostUnaryExpr : forall h a op, P a -> P (PostUnaryExpr h a op).
Hypothesis H_FunctionCallExpr : forall h c, Pc c -> P (FunctionCallExpr h c).
Hypothesis H_BracketExpr : forall h a, P a -> P (BracketExpr h a).
Hypothesis H_CastExpr : forall h t a, P t -> P a -> P (CastExpr h t a).
Hypothesis H_VarAccessExpr :
  forall h v op a, Pv v -> (forall e, a = Some e -> P e) ->
                   P (VarAccessExpr h v op a).
Hypothesis H_InitializerExpr :
  forall h es, Forall P es -> P (InitializerExpr h es).
Hypothesis H_VarIdent :
  forall h i idx nxt, Forall P idx -> (forall v, nxt = Some v -> Pv v) ->
                      Pv (MkVarIdent h i idx nxt).
Hypothesis H_FunctionCall :
  forall h n args, Pv n -> Forall P args -> Pc (MkFunctionCall h n args).

Lemma Expr_nested_ind : forall e, P e.
Proof.
  fix FE 1 with (FV (v : VarIdent) {struct v} : Pv v)
                (FC (c : FunctionCall) {struct c} : Pc c).
  - intros [h a b|h s|h s|h c a b|h a op b|h op a|h a op|h c|h a|h t a
           |h v op a|h es].
    + apply H_ListExpr; apply FE.
    + apply H_LiteralExpr.
    + apply H_TypeNameExpr.
    + apply H_TernaryExpr; apply FE.
    + apply H_BinaryExpr; apply FE.
    + apply H_UnaryExpr; apply FE.
    + apply H_PostUnaryExpr; apply FE.
    + apply H_FunctionCallExpr; apply FC.
    + apply H_BracketExpr; apply FE.
    + apply H_CastExpr; apply FE.
    + apply H_VarAccessExpr; [apply FV|].
      destruct a as [e|]; intros e' E; [|discriminate E].
      injection E as <-. apply FE.
    + apply H_InitializerExpr.
      induction es as [|e es IH]; constructor; [apply FE|exact IH].
  - destruct v as [h i idx nxt]. apply H_VarIdent.
    + induction idx as [|e es IH]; constructor; [apply FE|exact IH].
    + destruct nxt as [v|]; intros v' E; [|discriminate E].
      injection E as <-. apply FV.
  - destruct c as [h n args]. apply H_FunctionCall; [apply FV|].
    induction args as [|e es IH]; constructor; [apply FE|exact IH].
Qed.

Lemma VarIdent_nested_ind : forall v, Pv v.
Proof.
  fix FV 1. intros [h i idx nxt]. apply H_VarIdent.
  - apply Forall_forall. intros e _. apply Expr_nested_ind.
  - destruct nxt as [v|]; intros v' E; [|discriminate E].
    injection E as <-. apply FV.
Qed.

Lemma FunctionCall_nested_ind : forall c, Pc c.
Proof.
  intros [h n args]. apply H_FunctionCall; [apply VarIdent_nested_ind|].
  apply Forall_forall. intros e _. apply Expr_nested_ind.
Qed.

End Expr_nested_induction.

(** The same for statements, code blocks, [else] branches and switch
    cases. *)
Section Stmnt_nested_induction.

Variable P : Stmnt -> Prop.
Variable Pb : CodeBlock -> Prop.
Variable Pe : ElseStmnt -> Prop.
Variable Pc : SwitchCase -> Prop.

Hypothesis H_NullStmnt : forall h, P (NullStmnt h).
Hypothesis H_DirectiveStmnt : forall h s, P (DirectiveStmnt h s).
Hypothesis H_CodeBlockStmnt : forall h b, Pb b -> P (CodeBlockStmnt h b).
Hypothesis H_ForLoopStmnt :
  forall h at_ i c it b, P i -> P b -> P (ForLoopStmnt h at_ i c it b).
Hypothesis H_WhileLoopStmnt :
  forall h at_ c b, P b -> P (WhileLoopStmnt h at_ c b).
Hypothesis H_DoWhileLoopStmnt :
  forall h at_ b c, P b -> P (DoWhileLoopStmnt h at_ b c).
Hypothesis H_IfStmnt :
  forall h at_ c b e, P b -> (forall x, e = Some x -> Pe x) ->
                      P (IfStmnt h at_ c b e).
Hypothesis H_SwitchStmnt :
  forall h at_ sel cs, Forall Pc cs -> P (SwitchStmnt h at_ sel cs).
Hypothesis H_StmntVarDecl : forall s, P (StmntVarDecl s).
Hypothesis H_AssignStmnt : forall h v op e, P (AssignStmnt h v op e).
Hypothesis H_ExprStmnt : forall h e, P (ExprStmnt h e).
Hypothesis H_FunctionCallStmnt : forall h c, P (FunctionCallStmnt h c).
Hypothesis H_ReturnStmnt : forall h e, P (ReturnStmnt h e).
Hypothesis H_StructDeclStmnt : forall h st, P (StructDeclStmnt h st).
Hypothesis H_CtrlTransferStmnt : forall h s, P (CtrlTransferStmnt h s).
Hypothesis H_CodeBlock : forall h ss, Forall P ss -> Pb (MkCodeBlock h ss).
Hypothesis H_ElseStmnt : forall h b, P b -> Pe (MkElseStmnt h b).
Hypothesis H_SwitchCase :
  forall h e ss, Forall P ss -> Pc (MkSwitchCase h e ss).

Lemma Stmnt_nested_ind : forall s, P s.
Proof.
  fix FS 1 with (FB (b : CodeBlock) {struct b} : Pb b)
                (FE (e : ElseStmnt) {struct e} : Pe e)
                (FC (c : SwitchCase) {struct c} : Pc c).
  - intros [h|h s|h b|h at_ i c it b|h at_ c b|h at_ b c|h at_ c b e
           |h at_ sel cs|s|h v op e|h e|h c|h e|h st|h s].
    + apply H_NullStmnt.
    + apply H_DirectiveStmnt.
    + apply H_CodeBlockStmnt, FB.
    + apply H_ForLoopStmnt; apply FS.
    + apply H_WhileLoopStmnt, FS.
    + apply H_DoWhileLoopStmnt, FS.
    + apply H_IfStmnt; [apply FS|].
      destruct e as [x|]; intros x' E; [|discriminate E].
      injection E as <-. apply FE.
    + apply H_SwitchStmnt.
      induction cs as [|c cs IH]; constructor; [apply FC|exact IH].
    + apply H_StmntVarDecl.
    + apply H_AssignStmnt.
    + apply H_ExprStmnt.
    + apply H_FunctionCallStmnt.
    + apply H_ReturnStmnt.
    + apply H_StructDeclStmnt.
    + apply H_CtrlTransferStmnt.
  - destruct b as [h ss]. apply H_CodeBlock.
    induction ss as [|s ss IH]; constructor; [apply FS|exact IH].
  - destruct e as [h b]. apply H_ElseStmnt, FS.
  - destruct c as [h e ss]. apply H_SwitchCase.
    induction ss as [|s ss IH]; constructor; [apply FS|exact IH].
Qed.

Lemma CodeBlock_nested_ind : forall b, Pb b.
Proof.
  intros [h ss]. apply H_CodeBlock, Forall_forall.
  intros s _. apply Stmnt_nested_ind.
Qed.

Lemma SwitchCase_nested_ind : forall c, Pc c.
Proof.
  intros [h e ss]. apply H_SwitchCase, Forall_forall.
  intros s _. apply Stmnt_nested_ind.
Qed.

End Stmnt_nested_induction.

(** ** The calls of the printer *)

Lemma nesting_app (d : nat) (a b : list LogCall) :
  nesting d (a ++ b) =
  match nesting d a with
  | Some d' => nesting d' b
  | None => None
  end.
Proof.
  revert d. induction a as [|c a IH]; intros d; [reflexivity|].
  destruct c; simpl; try apply IH. destruct d; [reflexivity|apply IH].
Qed.

Lemma lines_from_length (i j : nat) (calls : list LogCall) :
  length (lines_from i calls) = length (lines_from j calls).
Proof.
  revert i j. induction calls as [|c calls IH]; intros i j; [reflexivity|].
  destruct c; simpl; auto.
Qed.

Lemma lines_from_app_length (i : nat) (a b : list LogCall) :
  length (lines_from i (a ++ b))
  = length (lines_from i a) + length (lines_from i b).
Proof.
  revert i. induction a as [|c a IH]; intros i; [reflexivity|].
  destruct c; simpl; rewrite ?IH; try reflexivity;
    f_equal; apply lines_from_length.
Qed.

Lemma replay_Recorder (calls l : list LogCall) :
  replay calls l = (l ++ calls)%list.
Proof.
  revert l. induction calls as [|c calls IH]; intros l.
  - symmetry. apply app_nil_r.
  - unfold replay in *. simpl. rewrite IH.
    destruct c; simpl; unfold push_back; rewrite <- app_assoc; reflexivity.
Qed.

Section Printer_calls.

Context {L : Type} `{Logger L}.

Lemma replay_app (a b : list LogCall) (l : L) :
  replay (a ++ b) l = replay b (replay a l).
Proof. unfold replay. apply fold_left_app. Qed.

Lemma trace_ok_weaken (N M : nat) calls :
  N <= M -> trace_ok N calls -> trace_ok M calls.
Proof. intros Le (A & B & C). repeat split; auto. lia. Qed.

Lemma prints_weaken (N M : nat) recorded (any : L -> L) :
  prints N recorded any -> N <= M -> prints M recorded any.
Proof.
  intros (calls & R & A & T) Le. exists calls.
  repeat split; auto; try apply T. destruct T as (_ & _ & C). lia.
Qed.

Lemma prints_skip : prints 0 (fun l => l) (fun l : L => l).
Proof.
  exists []. split; [intros l; symmetry; apply app_nil_r|].
  split; [reflexivity|]. repeat split; auto.
Qed.

Lemma prints_Print (h : AST) (astName info : string) :
  In astName AST_names ->
  prints 1 (Print h astName info) (Print (L := L) h astName info).
Proof.
  intros Name. unfold Print.
  eexists [CallInfo _]. split; [intros l; reflexivity|].
  split; [intros l; reflexivity|].
  split; [|split; [reflexivity|simpl; lia]].
  constructor; [|constructor]. simpl.
  exists astName, (pos h). split; [exact Name|].
  destruct (String.eqb info "") eqn:E.
  - left. reflexivity.
  - right. exists info. split; [|reflexivity].
    apply String.eqb_neq. exact E.
Qed.

Lemma prints_then (N M : nat) f (f' : L -> L) g (g' : L -> L) :
  prints N f f' -> prints M g g' ->
  prints (N + M) (then_ f g) (then_ f' g').
Proof.
  intros (ca & Ra & Aa & Ta & Na & Ca) (cb & Rb & Ab & Tb & Nb & Cb).
  exists (ca ++ cb)%list. unfold then_.
  split; [|split; [|split; [|split]]].
  - intros l. rewrite Ra, Rb. symmetry. apply app_assoc.
  - intros l. rewrite Aa, Ab. symmetry. apply replay_app.
  - apply Forall_app. split; assumption.
  - intros d. rewrite nesting_app, Na. apply Nb.
  - unfold lines in *. rewrite lines_from_app_length. lia.
Qed.

Lemma prints_SCOPED_INDENT (N : nat) body (body' : L -> L) :
  prints N body body' ->
  prints N (SCOPED_INDENT body) (SCOPED_INDENT body').
Proof.
  intros (cb & Rb & Ab & Tb & Nb & Cb).
  exists (CallIncIndent :: cb ++ [CallDecIndent])%list.
  unfold SCOPED_INDENT. split; [|split; [|split; [|split]]].
  - intros l. rewrite Rb. simpl. unfold push_back.
    rewrite <- !app_assoc. reflexivity.
  - intros l. rewrite Ab. unfold replay at 2. simpl.
    fold (replay (cb ++ [CallDecIndent]) (Logger_IncIndent l)).
    rewrite replay_app. reflexivity.
  - constructor; [exact I|]. apply Forall_app.
    split; [assumption|constructor; [exact I|constructor]].
  - intros d. simpl. rewrite nesting_app, Nb. reflexivity.
  - unfold lines in *. simpl. rewrite lines_from_app_length. simpl.
    rewrite (lines_from_length 1 0). lia.
Qed.

Lemma prints_Visit {A} (nodes : A -> list Node) visit (visit' : A -> L -> L)
  (ptr : option A) :
  (forall a, ptr = Some a -> prints (length (nodes a)) (visit a) (visit' a)) ->
  prints (length (of_option nodes ptr)) (Visit visit ptr) (Visit visit' ptr).
Proof.
  intros V. destruct ptr as [a|]; simpl.
  - apply V. reflexivity.
  - apply prints_skip.
Qed.

Lemma prints_VisitEach {A} (nodes : A -> list Node) visit
  (visit' : A -> L -> L) (xs : list A) :
  Forall (fun x => prints (length (nodes x)) (visit x) (visit' x)) xs ->
  prints (length (flat_map nodes xs))
         (VisitEach visit xs) (VisitEach visit' xs).
Proof.
  induction 1 as [|x xs V _ IH]; [apply prints_skip|].
  simpl. rewrite length_app.
  exact (prints_then V IH).
Qed.

End Printer_calls.

(** Every visit function makes calls of the printer, one line per
    visited node. *)
Section Printer_trace.

Context {L : Type} `{Logger L}.

Ltac in_names := repeat (first [left; reflexivity | right]).

Ltac pr_count :=
  simpl; rewrite ?length_app, ?length_map; simpl; lia.

Ltac pr :=
  lazymatch goal with
  | |- prints _ (then_ _ _) _ => eapply prints_then; pr
  | |- prints _ (SCOPED_INDENT _) _ => eapply prints_SCOPED_INDENT; pr
  | |- prints _ (Print _ _ _) _ => apply prints_Print; in_names
  | |- prints _ (Visit _ _) _ =>
      first [ eapply prints_Visit; eassumption
            | eapply prints_Visit; intros; eauto ]
  | |- prints _ (VisitEach _ _) _ =>
      first [ eapply prints_VisitEach; eassumption
            | eapply prints_VisitEach; apply Forall_forall; intros; eauto ]
  | |- prints _ _ _ => solve [eauto]
  end.

Ltac pr_node := eapply prints_weaken; [pr | pr_count].

Lemma VisitExpr_prints (e : Expr) :
  prints (length (nodes_Expr e)) (VisitExpr e) (VisitExpr (L := L) e).
Proof.
  revert e.
  apply Expr_nested_ind with
    (Pv := fun v => prints (length (nodes_VarIdent v))
                           (VisitVarIdent v) (VisitVarIdent (L := L) v))
    (Pc := fun c => prints (length (nodes_FunctionCall c))
                           (VisitFunctionCall c)
                           (VisitFunctionCall (L := L) c));
    intros; cbn [VisitExpr VisitVarIdent VisitFunctionCall]; pr_node.
Qed.

Lemma VisitVarIdent_prints (v : VarIdent) :
  prints (length (nodes_VarIdent v)) (VisitVarIdent v)
         (VisitVarIdent (L := L) v).
Proof.
  revert v.
  apply VarIdent_nested_ind with
    (P := fun e => prints (length (nodes_Expr e))
                          (VisitExpr e) (VisitExpr (L := L) e))
    (Pc := fun c => prints (length (nodes_FunctionCall c))
                           (VisitFunctionCall c)
                           (VisitFunctionCall (L := L) c));
    intros; cbn [VisitExpr VisitVarIdent VisitFunctionCall]; pr_node.
Qed.

Lemma VisitFunctionCall_prints (c : FunctionCall) :
  prints (length (nodes_FunctionCall c)) (VisitFunctionCall c)
         (VisitFunctionCall (L := L) c).
Proof.
  destruct c as [h n args]. cbn [VisitFunctionCall].
  pose proof VisitExpr_prints. pose proof VisitVarIdent_prints. pr_node.
Qed.

Lemma VisitPackOffset_prints (ast : PackOffset) :
  prints 1 (VisitPackOffset ast) (VisitPackOffset (L := L) ast).
Proof. unfold VisitPackOffset. apply prints_Print. in_names. Qed.

Lemma VisitVarSemantic_prints (ast : VarSemantic) :
  prints (length (nodes_VarSemantic ast)) (VisitVarSemantic ast)
         (VisitVarSemantic (L := L) ast).
Proof.
  unfold VisitVarSemantic, nodes_VarSemantic.
  pose proof VisitPackOffset_prints as V.
  eapply prints_weaken.
  - eapply prints_then; [apply prints_Print; in_names|].
    apply prints_SCOPED_INDENT.
    apply (prints_Visit (fun po => [NodePackOffset po])).
    intros a _. apply V.
  - pr_count.
Qed.

Lemma VisitVarDecl_prints (ast : VarDecl) :
  prints (length (nodes_VarDecl ast)) (VisitVarDecl ast)
         (VisitVarDecl (L := L) ast).
Proof.
  unfold VisitVarDecl, nodes_VarDecl.
  pose proof VisitExpr_prints. pose proof VisitVarSemantic_prints.
  pr_node.
Qed.

Lemma VisitVarDeclStmnt_prints (ast : VarDeclStmnt) :
  prints (length (nodes_VarDeclStmnt ast)) (VisitVarDeclStmnt ast)
         (VisitVarDeclStmnt (L := L) ast).
Proof.
  destruct ast as [h im tm sm t ds]. cbn [VisitVarDeclStmnt nodes_VarDeclStmnt].
  pose proof VisitVarDecl_prints. pr_node.
Qed.

Lemma VisitStructure_prints (ast : Structure) :
  prints (length (nodes_Structure ast)) (VisitStructure ast)
         (VisitStructure (L := L) ast).
Proof.
  destruct ast as [h n ms]. cbn [VisitStructure nodes_Structure].
  pose proof VisitVarDeclStmnt_prints. pr_node.
Qed.

Lemma VisitStmnt_prints (s : Stmnt) :
  prints (length (nodes_Stmnt s)) (VisitStmnt s) (VisitStmnt (L := L) s).
Proof.
  pose proof VisitExpr_prints. pose proof VisitVarIdent_prints.
  pose proof VisitFunctionCall_prints. pose proof VisitStructure_prints.
  revert s.
  apply Stmnt_nested_ind with
    (Pb := fun b => prints (length (nodes_CodeBlock b))
                           (VisitCodeBlock b) (VisitCodeBlock (L := L) b))
    (Pe := fun e => prints (length (nodes_ElseStmnt e))
                           (VisitElseStmnt e) (VisitElseStmnt (L := L) e))
    (Pc := fun c => prints (length (nodes_SwitchCase c))
                           (VisitSwitchCase c) (VisitSwitchCase (L := L) c));
    intros;
    cbn [VisitStmnt VisitCodeBlock VisitElseStmnt VisitSwitchCase];
    try apply VisitVarDeclStmnt_prints; pr_node.
Qed.

Lemma VisitCodeBlock_prints (b : CodeBlock) :
  prints (length (nodes_CodeBlock b)) (VisitCodeBlock b)
         (VisitCodeBlock (L := L) b).
Proof.
  destruct b as [h ss]. cbn [VisitCodeBlock nodes_CodeBlock].
  pose proof VisitStmnt_prints. pr_node.
Qed.

Lemma VisitBufferDeclIdent_prints (ast : BufferDeclIdent) :
  prints (length [NodeBufferDeclIdent ast]) (VisitBufferDeclIdent ast)
         (VisitBufferDeclIdent (L := L) ast).
Proof. unfold VisitBufferDeclIdent. apply prints_Print. in_names. Qed.

Lemma flat_map_singleton {A B} (f : A -> B) (xs : list A) :
  flat_map (fun x => [f x]) xs = map f xs.
Proof. induction xs; simpl; congruence. Qed.

Lemma VisitGlobalDecl_prints (d : GlobalDecl) :
  prints (length (nodes_GlobalDecl d)) (VisitGlobalDecl d)
         (VisitGlobalDecl (L := L) d).
Proof.
  pose proof VisitFunctionCall_prints. pose proof VisitCodeBlock_prints.
  pose proof VisitVarDeclStmnt_prints. pose proof VisitStructure_prints.
  destruct d; cbn [VisitGlobalDecl nodes_GlobalDecl].
  - pr_node.
  - pr_node.
  - eapply prints_weaken.
    + eapply prints_then; [apply prints_Print; in_names|].
      apply prints_SCOPED_INDENT.
      apply (prints_VisitEach (fun x => [NodeBufferDeclIdent x])).
      apply Forall_forall. intros x _. apply VisitBufferDeclIdent_prints.
    + rewrite flat_map_singleton. pr_count.
  - eapply prints_weaken.
    + eapply prints_then; [apply prints_Print; in_names|].
      apply prints_SCOPED_INDENT.
      apply (prints_VisitEach (fun x => [NodeBufferDeclIdent x])).
      apply Forall_forall. intros x _. apply VisitBufferDeclIdent_prints.
    + rewrite flat_map_singleton. pr_count.
  - pr_node.
  - pr_node.
Qed.

Lemma VisitProgram_prints (ast : Program) :
  prints (length (nodes_Program ast)) (VisitProgram ast)
         (VisitProgram (L := L) ast).
Proof.
  unfold VisitProgram, nodes_Program.
  pose proof VisitGlobalDecl_prints. pr_node.
Qed.

Lemma DumpAST_prints (program : Program) :
  prints (length (nodes_Program program)) (DumpAST program)
         (DumpAST (L := L) program).
Proof. exact (VisitProgram_prints program). Qed.

End Printer_trace.


(** ** What the printer sends to a sink *)

Lemma DumpAST_recorded (program : Program) :
  trace_ok (length (nodes_Program program)) (DumpAST program [])
  /\ forall (L : Type) (logger : Logger L) (log : L),
       DumpAST program log = replay (DumpAST program []) log.
Proof.
  split.
  - destruct (DumpAST_prints (L := list LogCall) program)
      as (calls & R & _ & T).
    rewrite R. exact T.
  - intros L logger log.
    destruct (DumpAST_prints (L := L) program) as (calls & R & A & _).
    rewrite R, A. reflexivity.
Qed.

Lemma lines_from_shape (calls : list LogCall) :
  Forall call_ok calls ->
  forall i, Forall (fun line => line_shape (snd line)) (lines_from i calls).
Proof.
  induction 1 as [|c calls Hc _ IH]; intros i; [constructor|].
  destruct c; simpl; auto.
Qed.

Lemma lines_from_closing (calls : list LogCall) :
  forall i, lines_from i (calls ++ [CallDecIndent]) = lines_from i calls.
Proof.
  induction calls as [|c calls IH]; intros i; [reflexivity|].
  destruct c; simpl; rewrite ?IH; reflexivity.
Qed.

(** Lines emitted between paired calls are indented at least as deep
    as the level the calls started at. *)
Lemma lines_from_nested (calls : list LogCall) :
  forall r k i, nesting r calls = Some k -> r <= i ->
    Forall (fun line => i - r <= fst line) (lines_from i calls).
Proof.
  induction calls as [|c calls IH]; intros r k i N Le; [constructor|].
  destruct c; simpl in *.
  - constructor; [simpl; lia|]. eapply IH; eassumption.
  - eapply IH; eassumption.
  - eapply IH; eassumption.
  - replace (i - r) with (S i - S r) by lia.
    eapply IH; [eassumption|lia].
  - destruct r as [|r]; [discriminate N|].
    replace (i - S r) with (Nat.pred i - r) by lia.
    eapply IH; [eassumption|lia].
Qed.

Lemma DumpAST_lines (program : Program) :
  exists body,
    (forall d, nesting d body = Some d)
    /\ lines (DumpAST program [])
       = (0, "Program (" ++ ToString (pos (prog_h program)) ++ ")")
         :: lines_from 1 body.
Proof.
  pose proof (@VisitGlobalDecl_prints (list LogCall) Recorder) as V.
  destruct (@prints_VisitEach _ Recorder _ nodes_GlobalDecl
              VisitGlobalDecl VisitGlobalDecl (globalDecls program)
              (proj2 (Forall_forall _ _) (fun d _ => V d)))
    as (body & R & _ & _ & N & _).
  exists body. split; [exact N|].
  unfold DumpAST, VisitProgram, then_, SCOPED_INDENT, Print, lines.
  rewrite R. simpl. rewrite lines_from_closing. reflexivity.
Qed.

(** X18: what the printer does to any sink is a fixed sequence of calls
    that depends on the tree alone; a recording sink keeps what it held
    and gets the calls behind it, and none of them is a warning or an
    error. *)
Theorem printer_only_informs (program : Program) :
  (forall (L : Type) (logger : Logger L) (log : L),
      DumpAST program log = replay (DumpAST program []) log)
  /\ (forall log : list LogCall,
        DumpAST program log = (log ++ DumpAST program [])%list)
  /\ Forall (fun c => is_report c = false) (DumpAST program []).
Proof.
  destruct (DumpAST_recorded program) as ((C & _ & _) & A).
  split; [exact A|]. split.
  - intros log. rewrite (A _ Recorder log). apply replay_Recorder.
  - eapply Forall_impl; [|exact C]. intros [m|m|m| |]; simpl; tauto.
Qed.

(** X19: the printer pairs every [IncIndent] with a later [DecIndent]:
    started at any indentation, the dump never goes below it and ends
    on it. *)
Theorem printer_restores_indentation (program : Program) (depth : nat) :
  nesting depth (DumpAST program []) = Some depth.
Proof.
  destruct (DumpAST_recorded program) as ((_ & N & _) & _). apply N.
Qed.

(** X20: the printer emits at least one line, and never more lines
    than the tree has nodes. *)
Theorem printer_prints_a_node_at_most_once (program : Program) :
  1 <= length (lines (DumpAST program []))
  /\ length (lines (DumpAST program [])) <= length (nodes_Program program).
Proof.
  split.
  - destruct (DumpAST_lines program) as (body & _ & E). rewrite E.
    simpl. lia.
  - destruct (DumpAST_recorded program) as ((_ & _ & C) & _). exact C.
Qed.

(** X21: every line the printer emits is built by [Print] from the name
    of an AST class: the name, the position between brackets and,
    unless it is empty, the info between quotes. *)
Theorem printed_lines_have_the_shape_of_Print (program : Program) :
  Forall (fun line => line_shape (snd line)) (lines (DumpAST program [])).
Proof.
  destruct (DumpAST_recorded program) as ((C & _ & _) & _).
  apply lines_from_shape. exact C.
Qed.

(** X22: the first line is the [Program] line, at indentation 0 and
    without info; every other line is indented by one level at
    least. *)
Theorem program_line_comes_first_and_outermost (program : Program) :
  exists rest,
    lines (DumpAST program [])
    = (0, "Program (" ++ ToString (pos (prog_h program)) ++ ")") :: rest
    /\ Forall (fun line => 1 <= fst line) rest.
Proof.
  destruct (DumpAST_lines program) as (body & N & E).
  exists (lines_from 1 body). split; [exact E|].
  apply (@lines_from_nested body 0 0 1); [apply N|lia].
Qed.
